(** * EduGenius: content model, quiz engine, audio decoding and generation
      orchestration

    A shallow embedding of the TypeScript sources, one module per source
    file (the repository keeps some of them in one file, one after the
    other):
    - [Types]: src/types.ts;
    - [GeminiService]: services/geminiService.ts ([decodeAudioData], second
      part of src/main.tsx);
    - [InteractivePlayer]: src/components/InteractivePlayer.tsx
      ([toggleAnswer], [score], [stopAudio], [toggleAudio]);
    - [LMSPlayer]: src/components/LMSPlayer.tsx ([toggleAnswer]);
    - [CourseBuilder]: components/CourseBuilder.tsx ([generateLessonBody],
      [toggleQuizAnswer], [addQuizQuestion]);
    - [App]: App.tsx ([startInteractiveGeneration], second part of
      components/CourseBuilder.tsx);
    followed by the properties of the specification, stated over these
    definitions.

    Conventions.  A JS array is a [list]; an object used as a map from
    numbers ([Record<number, number[]>]) is a [gmap nat]; a [Set<string>] is
    a [gset string]; an optional field [f?: T] is an [option T]; a call that
    can throw returns a [result].  React state is threaded explicitly: an
    event handler is a function from the component state to the next one,
    and an [async] function is cut at its [await]: the part before it and
    the part that runs when the awaited promise settles. *)

From Stdlib Require Import ZArith QArith Qround Floats Uint63 String List Lia.
From Stdlib Require Strings.Byte.
From stdpp Require Import base option list gmap strings sets pretty.

Import ListNotations.
#[local] Open Scope string_scope.
#[local] Open Scope list_scope.
#[local] Open Scope nat_scope.

(** ** JavaScript values shared by all modules *)

Module Js.

(** The exceptions the modelled code can raise. *)
Inductive Error : Set :=
| RangeError          (* typed-array construction over a misaligned buffer *)
| TypeError           (* property access on [undefined] *)
| NotSupportedError   (* Web Audio: argument outside its nominal range *)
| ServiceError.       (* a rejected promise of the generative service *)

Definition result (A : Type) : Type := Error + A.
Definition ok {A} (a : A) : result A := inr a.
Definition throw {A} (e : Error) : result A := inl e.

Definition bind {A B} (r : result A) (k : A → result B) : result B :=
  match r with
  | inl e => inl e
  | inr a => k a
  end.

(** [Array.prototype.map] with a callback that may throw: the first
    exception aborts the traversal. *)
Fixpoint mapM {A B} (f : A → result B) (l : list A) : result (list B) :=
  match l with
  | [] => ok []
  | x :: l' => bind (f x) (λ y, bind (mapM f l') (λ ys, ok (y :: ys)))
  end.

(** [Array.prototype.includes] on an array of numbers. *)
Definition includes (l : list nat) (x : nat) : bool := bool_decide (x ∈ l).

(** [Array.prototype.every]. *)
Definition every {A} (p : A → bool) (l : list A) : bool := forallb p l.

(** [Array.prototype.reduce((acc, x, idx) => ..., init)]: a left fold that
    also passes the position of the element. *)
Fixpoint reduce_from {A B} (f : B → A → nat → B) (idx : nat) (l : list A) (acc : B) : B :=
  match l with
  | [] => acc
  | x :: l' => reduce_from f (S idx) l' (f acc x idx)
  end.

Definition reduce {A B} (f : B → A → nat → B) (l : list A) (init : B) : B :=
  reduce_from f 0 l init.

(** [Array.prototype.filter((x, i) => ...)]: the elements whose value and
    position pass the test, in order. *)
Fixpoint filter_from {A} (p : A → nat → bool) (idx : nat) (l : list A) : list A :=
  match l with
  | [] => []
  | x :: l' => if p x idx then x :: filter_from p (S idx) l'
               else filter_from p (S idx) l'
  end.

Definition filter_index {A} (p : A → nat → bool) (l : list A) : list A :=
  filter_from p 0 l.

(** [Array.prototype.findIndex]: the first position that passes the test;
    [None] stands for -1. *)
Fixpoint findIndex_from {A} (p : A → bool) (idx : nat) (l : list A) : option nat :=
  match l with
  | [] => None
  | x :: l' => if p x then Some idx else findIndex_from p (S idx) l'
  end.

Definition findIndex {A} (p : A → bool) (l : list A) : option nat :=
  findIndex_from p 0 l.

(** [xs[i]] for an integer [i]: [undefined] outside the array. *)
Definition index {A} (xs : list A) (i : Z) : option A :=
  if (i <? 0)%Z then None else xs !! Z.to_nat i.

End Js.

Notation "'do' x <- r ; k" := (Js.bind r (λ x, k))
  (at level 10, x name, r at level 100, k at level 200).

(** ** [src/types.ts] *)

Module Types.

Inductive LessonType : Set := text | video | quiz | interactive.

#[export] Instance LessonType_eq_dec : EqDecision LessonType.
Proof. solve_decision. Defined.

Record QuizQuestion : Set := mkQuizQuestion {
  question : string;
  options : list string;
  correctAnswers : list nat
}.

Record LessonStep : Set := mkLessonStep {
  step_id : string;
  step_title : string;
  explanation : string;
  keyPoints : list string;
  imagePrompt : string;
  step_imageUrl : option string;
  audioData : option string
}.

Record InteractiveLesson : Set := mkInteractiveLesson {
  il_id : string;
  topic : string;
  steps : list LessonStep;
  il_quiz : list QuizQuestion
}.

Record Lesson : Set := mkLesson {
  lesson_id : string;
  lesson_title : string;
  content : string;
  lesson_type : LessonType;
  videoUrl : option string;
  lesson_imageUrl : option string;
  lesson_quiz : option (list QuizQuestion);
  interactiveData : option InteractiveLesson
}.

Record CourseModule : Set := mkModule {
  module_id : string;
  module_title : string;
  lessons : list Lesson
}.

Record Course : Set := mkCourse {
  course_id : string;
  course_title : string;
  description : string;
  thumbnail : option string;
  modules : list CourseModule;
  teaserVideoUrl : option string
}.

End Types.

Import Types.

(** ** [services/geminiService.ts]: decoding raw PCM narration *)

Module GeminiService.

Import Strings.Byte.

(** An element of a [Float32Array].  Every number the decoder stores is
    [k / 32768] for a 16-bit integer [k]: a dyadic rational with a 16-bit
    numerator, which binary64 division yields and binary32 storage keeps
    without rounding.  Rational arithmetic is therefore exact for these
    values.  [NaN] is what [undefined / 32768.0] evaluates to. *)
Inductive Sample : Set :=
| Num (q : Q)
| NaN.

(** The part of a [BaseAudioContext] that [createBuffer] depends on: the
    limits of the implementation (the Web Audio standard requires at least
    32 channels and the rates 8000..96000 to be supported). *)
Record AudioContext : Set := mkAudioContext {
  maxChannelCount : nat;
  minSampleRate : Z;
  maxSampleRate : Z
}.

Record AudioBuffer : Set := mkAudioBuffer {
  numberOfChannels : nat;
  buffer_length : nat;
  buffer_sampleRate : Z;
  channels : list (list Sample)       (* [getChannelData(c)], one array per channel *)
}.

(** The signed 16-bit value of two bytes, least significant first:
    the unsigned value wraps around at 2^15. *)
Definition int16_of_le (lo hi : byte) : Z :=
  let u := (Z.of_N (to_N lo) + 256 * Z.of_N (to_N hi))%Z in
  if (u <? 32768)%Z then u else (u - 65536)%Z.

(** The elements an [Int16Array] view shows over a byte buffer
    (little-endian platforms). *)
Fixpoint int16_elements (bytes : list byte) : list Z :=
  match bytes with
  | lo :: hi :: rest => int16_of_le lo hi :: int16_elements rest
  | _ => []
  end.

(** [new Int16Array(data.buffer)]: the constructor throws a [RangeError]
    when the byte length of the buffer is not a multiple of the element
    size 2.  The buffer of the array that [decodeBase64] allocates holds
    the bytes of the array and nothing else. *)
Definition Int16Array (buffer : list byte) : Js.result (list Z) :=
  if Nat.even (length buffer) then Js.ok (int16_elements buffer)
  else Js.throw Js.RangeError.

(** Conversion of a non-negative number to WebIDL [unsigned long]:
    truncation, modulo 2^32. *)
Definition to_unsigned_long (x : Q) : nat := Z.to_nat (Qfloor x mod 2 ^ 32).

(** [ctx.createBuffer(numberOfChannels, length, sampleRate)]: a
    [NotSupportedError] when an argument is zero or outside its nominal
    range; otherwise a buffer of silence. *)
Definition createBuffer (ctx : AudioContext) (numOfChannels : nat) (length : Q)
    (sampleRate : Z) : Js.result AudioBuffer :=
  let len := to_unsigned_long length in
  if (numOfChannels =? 0) || (maxChannelCount ctx <? numOfChannels) || (len =? 0)
     || (sampleRate <? minSampleRate ctx)%Z || (maxSampleRate ctx <? sampleRate)%Z
  then Js.throw Js.NotSupportedError
  else Js.ok {| numberOfChannels := numOfChannels;
                buffer_length := len;
                buffer_sampleRate := sampleRate;
                channels := replicate numOfChannels (replicate len (Num 0)) |}.

(** The number of iterations of [for (let i = 0; i < frameCount; i++)]. *)
Definition iterations (frameCount : Q) : nat := Z.to_nat (Qceiling frameCount).

(** [dataInt16[k] / 32768.0]; reading past the end yields [undefined]. *)
Definition scaled (dataInt16 : list Z) (k : nat) : Sample :=
  match dataInt16 !! k with
  | Some v => Num (v # 32768)
  | None => NaN
  end.

(** The inner loop over the frames of one channel.  A store past the end of
    a typed array is ignored, which is what list insertion does. *)
Definition fill_channel (dataInt16 : list Z) (numChannels channel : nat)
    (frameCount : Q) (channelData : list Sample) : list Sample :=
  foldl (λ cd i, <[i := scaled dataInt16 (i * numChannels + channel)]> cd)
        channelData (seq 0 (iterations frameCount)).

(** [export async function decodeAudioData(data, ctx, sampleRate, numChannels)].
    A rejected promise is a thrown error.  [getChannelData(channel)] aliases
    the channel's array inside the buffer, so filling it updates the buffer.
    [frameCount] is the quotient of two integers; its binary64 value has the
    integer part of the exact quotient and passes the same loop tests as
    long as the two integers add up to less than 2^53, so the exact
    quotient stands for it. *)
Definition decodeAudioData (data : list byte) (ctx : AudioContext)
    (sampleRate : Z) (numChannels : nat) : Js.result AudioBuffer :=
  do dataInt16 <- Int16Array data;
  let frameCount := (inject_Z (Z.of_nat (length dataInt16))
                     / inject_Z (Z.of_nat numChannels))%Q in
  do buffer <- createBuffer ctx numChannels frameCount sampleRate;
  Js.ok (foldl
           (λ buf channel,
              {| numberOfChannels := numberOfChannels buf;
                 buffer_length := buffer_length buf;
                 buffer_sampleRate := buffer_sampleRate buf;
                 channels := alter (fill_channel dataInt16 numChannels channel frameCount)
                                   channel (channels buf) |})
           buffer (seq 0 numChannels)).

(** The specification's [int16At]: the [k]-th signed 16-bit little-endian
    sample of a byte sequence, read directly from bytes [2k] and [2k+1]. *)
Definition int16At (data : list byte) (k : nat) : option Z :=
  match data !! (2 * k), data !! (2 * k + 1) with
  | Some lo, Some hi => Some (int16_of_le lo hi)
  | _, _ => None
  end.

(** *** The narration request

    The text of a lesson is read here as its sequence of UTF-16 code
    units; [<] is the code unit 60 and [>] is 62. *)
Definition codeUnits (s : string) : list N :=
  map Ascii.N_of_ascii (list_ascii_of_string s).

(** [text.replace(/<[^>]*>?/gm, '')]: a match starts at every [<] outside
    a match, runs over all code units that are not [>], line ends
    included, and takes the [>] that follows, if the text does not end
    first; the matches are removed.  [inTag] tells whether the scan is
    inside a match. *)
Fixpoint replaceTags (inTag : bool) (text : list N) : list N :=
  match text with
  | [] => []
  | c :: rest =>
      if inTag then replaceTags (negb (c =? 62)%N) rest
      else if (c =? 60)%N then replaceTags true rest
      else c :: replaceTags false rest
  end.

(** [`Explain this clearly and educationally: ${cleanText.substring(0, 800)}`] *)
Definition narrationPrompt (text : list N) : list N :=
  let cleanText := replaceTags false text in
  codeUnits "Explain this clearly and educationally: " ++ take 800 cleanText.

(** [generateNarration(text)]: [respond] is the answer of the model to the
    request, [None] when the call is rejected, and otherwise
    [response.candidates?.[0]?.content?.parts?.[0]?.inlineData?.data];
    an answer without audio raises. *)
Definition generateNarration (respond : list N → option (option string))
    (text : list N) : Js.result string :=
  match respond (narrationPrompt text) with
  | None => Js.throw Js.ServiceError
  | Some base64Audio =>
      match base64Audio with
      | Some audio => if bool_decide (audio = "") then Js.throw Js.ServiceError
                      else Js.ok audio
      | None => Js.throw Js.ServiceError
      end
  end.

End GeminiService.

(** ** [components/InteractivePlayer.tsx]: the learner's quiz *)

Module InteractivePlayer.

(** [const toggleAnswer = (qIdx, oIdx) => { if (quizSubmitted) return;
      setUserAnswers(prev => { ... return { ...prev, [qIdx]: updated } }) }] *)
Definition toggleAnswer (quizSubmitted : bool) (prev : gmap nat (list nat))
    (qIdx oIdx : nat) : gmap nat (list nat) :=
  if quizSubmitted then prev
  else
    let current := default [] (prev !! qIdx) in
    let updated :=
      if Js.includes current oIdx
      then filter (λ i, i ≠ oIdx) current
      else current ++ [oIdx] in
    <[qIdx := updated]> prev.

(** The body of the [reduce] callback of [score]:
    [answers.length === q.correctAnswers.length &&
     answers.every(a => q.correctAnswers.includes(a))]. *)
Definition isCorrect (q : QuizQuestion) (answers : list nat) : bool :=
  (length answers =? length (correctAnswers q))
  && Js.every (λ a, Js.includes (correctAnswers q) a) answers.

(** [const score = quizSubmitted ? lesson.quiz.reduce(..., 0) : 0]. *)
Definition score (quizSubmitted : bool) (quiz : list QuizQuestion)
    (userAnswers : gmap nat (list nat)) : nat :=
  if quizSubmitted then
    Js.reduce
      (λ acc q idx,
         let answers := default [] (userAnswers !! idx) in
         acc + (if isCorrect q answers then 1 else 0))
      quiz 0
  else 0.

(** *** Narration playback

    An [AudioBufferSourceNode] is identified by the order of its creation.
    Besides the component's own variables ([isPlaying], the two refs) the
    state records what the audio graph is doing: which sources are
    sounding ([playing]), which were stopped and still owe their [ended]
    event ([stopped]), how many sources exist ([created]), and how many
    calls of [toggleAudio] are suspended at [await decodeAudioData]
    ([decoding]). *)
Record Playback : Type := mkPlayback {
  isPlaying : bool;
  audioContextRef : option GeminiService.AudioContext;
  audioSourceRef : option nat;
  playing : gset nat;
  stopped : gset nat;
  created : nat;
  decoding : nat
}.

Definition initial : Playback :=
  {| isPlaying := false; audioContextRef := None; audioSourceRef := None;
     playing := ∅; stopped := ∅; created := 0; decoding := 0 |}.

Definition setIsPlaying (b : bool) (st : Playback) : Playback :=
  {| isPlaying := b; audioContextRef := audioContextRef st;
     audioSourceRef := audioSourceRef st; playing := playing st;
     stopped := stopped st; created := created st; decoding := decoding st |}.

(** [source.stop()]: a sounding source falls silent and its [ended] event
    becomes due; on a source that has already ended nothing happens.  The
    call raises only on a source that was never started, and the component
    holds a source in [audioSourceRef] only after starting it. *)
Definition stop (source : nat) (st : Playback) : Playback :=
  {| isPlaying := isPlaying st; audioContextRef := audioContextRef st;
     audioSourceRef := audioSourceRef st;
     playing := playing st ∖ {[source]};
     stopped := if bool_decide (source ∈ playing st)
                then {[source]} ∪ stopped st else stopped st;
     created := created st; decoding := decoding st |}.

(** [const stopAudio = () => { if (audioSourceRef.current) {
      audioSourceRef.current.stop(); audioSourceRef.current = null; } }] *)
Definition stopAudio (st : Playback) : Playback :=
  match audioSourceRef st with
  | Some source =>
      let st' := stop source st in
      {| isPlaying := isPlaying st'; audioContextRef := audioContextRef st';
         audioSourceRef := None; playing := playing st';
         stopped := stopped st'; created := created st'; decoding := decoding st' |}
  | None => st
  end.

(** [!currentStep.audioData]: an absent or empty string is falsy. *)
Definition falsy (s : option string) : bool :=
  match s with
  | Some s => bool_decide (s = "")
  | None => true
  end.

(** [toggleAudio] up to its [await]: either the pause branch, or nothing
    (no narration attached), or a suspended call.  [isPlaying_rendered] is
    the value of [isPlaying] in the render whose handler runs; it can lag
    behind the state. *)
Definition toggleAudio (isPlaying_rendered : bool)
    (platform : GeminiService.AudioContext) (audioData : option string)
    (st : Playback) : Playback :=
  if isPlaying_rendered then setIsPlaying false (stopAudio st)
  else if falsy audioData then st
  else
    {| isPlaying := isPlaying st;
       audioContextRef := match audioContextRef st with
                          | Some ctx => Some ctx
                          | None => Some platform
                          end;
       audioSourceRef := audioSourceRef st; playing := playing st;
       stopped := stopped st; created := created st;
       decoding := S (decoding st) |}.

(** [ctx.createBufferSource(); ...; source.start();
     audioSourceRef.current = source; setIsPlaying(true)]. *)
Definition startSource (st : Playback) : Playback :=
  let source := created st in
  {| isPlaying := true; audioContextRef := audioContextRef st;
     audioSourceRef := Some source;
     playing := {[source]} ∪ playing st;
     stopped := stopped st; created := S source; decoding := decoding st |}.

(** [toggleAudio] after its [await]: with a decoded buffer, [stopAudio()]
    and then the new source; with an exception, the [catch] branch. *)
Definition toggleAudio_resume (buffer : Js.result GeminiService.AudioBuffer)
    (st : Playback) : Playback :=
  match decoding st with
  | 0 => st
  | S pending =>
      let st' :=
        match buffer with
        | inr _ => startSource (stopAudio st)
        | inl _ => st
        end in
      {| isPlaying := isPlaying st'; audioContextRef := audioContextRef st';
         audioSourceRef := audioSourceRef st'; playing := playing st';
         stopped := stopped st'; created := created st'; decoding := pending |}
  end.

(** [source.onended = () => setIsPlaying(false)], dispatched when a source
    reaches the end of its buffer or after it was stopped. *)
Definition onended (source : nat) (st : Playback) : Playback :=
  if bool_decide (source ∈ playing st ∪ stopped st) then
    {| isPlaying := false; audioContextRef := audioContextRef st;
       audioSourceRef := audioSourceRef st;
       playing := playing st ∖ {[source]};
       stopped := stopped st ∖ {[source]};
       created := created st; decoding := decoding st |}
  else st.

(** The effect on [currentStepIndex, showQuiz]: the cleanup of the previous
    run ([stopAudio]), then [setIsPlaying(false); stopAudio()]. *)
Definition stepChanged (st : Playback) : Playback :=
  stopAudio (setIsPlaying false (stopAudio st)).

Inductive Event : Type :=
| ToggleAudio (isPlaying_rendered : bool) (platform : GeminiService.AudioContext)
              (audioData : option string)
| Decoded (buffer : Js.result GeminiService.AudioBuffer)
| Ended (source : nat)
| StepChanged
| Unmounted.

Definition handle (st : Playback) (e : Event) : Playback :=
  match e with
  | ToggleAudio rendered platform audioData =>
      toggleAudio rendered platform audioData st
  | Decoded buffer => toggleAudio_resume buffer st
  | Ended source => onended source st
  | StepChanged => stepChanged st
  | Unmounted => stopAudio st
  end.

(** The state after a sequence of events, oldest first. *)
Definition run (events : list Event) : Playback := foldl handle initial events.

(** *** Navigation between the steps

    [currentStepIndex] is a JS number, and [steps.length - 1] is -1 for a
    lesson without steps. *)
Record Position : Set := mkPosition {
  currentStepIndex : Z;
  showQuiz : bool
}.


(** [const handleNext = () => { if (currentStepIndex < steps.length - 1)
      setCurrentStepIndex(currentStepIndex + 1); else setShowQuiz(true); }] *)
Definition handleNext (steps : list LessonStep) (p : Position) : Position :=
  if (currentStepIndex p <? Z.of_nat (length steps) - 1)%Z
  then mkPosition (currentStepIndex p + 1) (showQuiz p)
  else mkPosition (currentStepIndex p) true.

(** [const handlePrev = () => { if (showQuiz) setShowQuiz(false);
      else if (currentStepIndex > 0) setCurrentStepIndex(currentStepIndex - 1); }] *)
Definition handlePrev (p : Position) : Position :=
  if showQuiz p then mkPosition (currentStepIndex p) false
  else if (0 <? currentStepIndex p)%Z
       then mkPosition (currentStepIndex p - 1) (showQuiz p)
       else p.

(** [disabled={!showQuiz && currentStepIndex === 0}] of the Back button. *)
Definition prevDisabled (p : Position) : bool :=
  negb (showQuiz p) && (currentStepIndex p =? 0)%Z.





End InteractivePlayer.

(** ** [components/LMSPlayer.tsx]: the course player's quiz *)

Module LMSPlayer.

(** Same update as in the interactive player, frozen by [showResults]. *)
Definition toggleAnswer (showResults : bool) (prev : gmap nat (list nat))
    (qIdx oIdx : nat) : gmap nat (list nat) :=
  if showResults then prev
  else
    let current := default [] (prev !! qIdx) in
    let updated :=
      if Js.includes current oIdx
      then filter (λ i, i ≠ oIdx) current
      else current ++ [oIdx] in
    <[qIdx := updated]> prev.

(** *** Navigation between the lessons

    The two indices are JS numbers; [lessons.length - 1] is -1 for a module
    without lessons. *)
Record Cursor : Set := mkCursor {
  activeModuleIndex : Z;
  activeLessonIndex : Z
}.

(** [course.modules[activeModuleIndex]?.lessons[activeLessonIndex]]: the
    lesson the effect on the two indices passes to [setCurrentLesson]; when
    there is none the lesson displayed before stays. *)
Definition lessonAt (course : Course) (s : Cursor) : option Lesson :=
  match Js.index (modules course) (activeModuleIndex s) with
  | Some m => Js.index (lessons m) (activeLessonIndex s)
  | None => None
  end.

(** [handleNext]: the indices set by the call, and whether it returned.
    Reading [.lessons] of a module that does not exist raises. *)
Definition handleNext (course : Course) (s : Cursor) : Cursor * Js.result unit :=
  match Js.index (modules course) (activeModuleIndex s) with
  | None => (s, Js.throw Js.TypeError)
  | Some currentModule =>
      if (activeLessonIndex s <? Z.of_nat (length (lessons currentModule)) - 1)%Z
      then (mkCursor (activeModuleIndex s) (activeLessonIndex s + 1), Js.ok ())
      else if (activeModuleIndex s <? Z.of_nat (length (modules course)) - 1)%Z
      then (mkCursor (activeModuleIndex s + 1) 0, Js.ok ())
      else (s, Js.ok ())
  end.

(** [handlePrev]: [setActiveModuleIndex(prevModuleIndex)] is called before
    the previous module is read, so it takes effect also when that read
    raises. *)
Definition handlePrev (course : Course) (s : Cursor) : Cursor * Js.result unit :=
  if (0 <? activeLessonIndex s)%Z
  then (mkCursor (activeModuleIndex s) (activeLessonIndex s - 1), Js.ok ())
  else if (0 <? activeModuleIndex s)%Z
  then
    let prevModuleIndex := (activeModuleIndex s - 1)%Z in
    match Js.index (modules course) prevModuleIndex with
    | None => (mkCursor prevModuleIndex (activeLessonIndex s), Js.throw Js.TypeError)
    | Some m =>
        (mkCursor prevModuleIndex (Z.of_nat (length (lessons m)) - 1), Js.ok ())
    end
  else (s, Js.ok ()).

(** [disabled={activeModuleIndex === 0 && activeLessonIndex === 0}] *)
Definition prevDisabled (s : Cursor) : bool :=
  (activeModuleIndex s =? 0)%Z && (activeLessonIndex s =? 0)%Z.

(** [disabled={activeModuleIndex === course.modules.length - 1 &&
      activeLessonIndex ===
        course.modules[course.modules.length - 1].lessons.length - 1}] *)
Definition nextDisabled (course : Course) (s : Cursor) : Js.result bool :=
  let last := (Z.of_nat (length (modules course)) - 1)%Z in
  if (activeModuleIndex s =? last)%Z then
    match Js.index (modules course) last with
    | None => Js.throw Js.TypeError
    | Some m => Js.ok (activeLessonIndex s =? Z.of_nat (length (lessons m)) - 1)%Z
    end
  else Js.ok false.

(** The sidebar: [onClick={() => { setActiveModuleIndex(mIdx);
    setActiveLessonIndex(lIdx); }}] on the button of lesson [lIdx] of
    module [mIdx]. *)
Definition select (mIdx lIdx : nat) : Cursor :=
  mkCursor (Z.of_nat mIdx) (Z.of_nat lIdx).

(** *** Narration

    The state of the audio graph is recorded as in the interactive player.
    [requesting] counts the calls of [playNarration] suspended at
    [await generateNarration], [decoding] those suspended at
    [await decodeAudioData]. *)
Record Narration : Type := mkNarration {
  isNarrating : bool;
  audioContextRef : option GeminiService.AudioContext;
  audioSourceRef : option nat;
  playing : gset nat;
  stopped : gset nat;
  created : nat;
  requesting : nat;
  decoding : nat
}.


Definition setIsNarrating (b : bool) (st : Narration) : Narration :=
  {| isNarrating := b; audioContextRef := audioContextRef st;
     audioSourceRef := audioSourceRef st; playing := playing st;
     stopped := stopped st; created := created st;
     requesting := requesting st; decoding := decoding st |}.

(** [const stopNarration = () => { if (audioSourceRef.current) {
      audioSourceRef.current.stop(); audioSourceRef.current = null; } }] *)
Definition stopNarration (st : Narration) : Narration :=
  match audioSourceRef st with
  | Some source =>
      {| isNarrating := isNarrating st; audioContextRef := audioContextRef st;
         audioSourceRef := None;
         playing := playing st ∖ {[source]};
         stopped := if bool_decide (source ∈ playing st)
                    then {[source]} ∪ stopped st else stopped st;
         created := created st;
         requesting := requesting st; decoding := decoding st |}
  | None => st
  end.

(** [playNarration] up to [await generateNarration(currentLesson.content)];
    [content] is [currentLesson?.content]. *)
Definition playNarration (content : option string) (st : Narration) : Narration :=
  if InteractivePlayer.falsy content then st
  else
    {| isNarrating := true; audioContextRef := audioContextRef st;
       audioSourceRef := audioSourceRef st; playing := playing st;
       stopped := stopped st; created := created st;
       requesting := S (requesting st); decoding := decoding st |}.

(** From the answer of the service to [await decodeAudioData]: a rejected
    request goes to the [catch] branch; otherwise the audio context is
    created if there is none and the bytes are decoded.  An exception of
    [decodeBase64] or of [decodeAudioData] reaches the same [catch] branch
    and is delivered by [playNarration_decoded]. *)
Definition playNarration_narrated (platform : GeminiService.AudioContext)
    (base64 : Js.result string) (st : Narration) : Narration :=
  match requesting st with
  | 0 => st
  | S pending =>
      match base64 with
      | inl _ =>
          {| isNarrating := false; audioContextRef := audioContextRef st;
             audioSourceRef := audioSourceRef st; playing := playing st;
             stopped := stopped st; created := created st;
             requesting := pending; decoding := decoding st |}
      | inr _ =>
          {| isNarrating := isNarrating st;
             audioContextRef := match audioContextRef st with
                                | Some ctx => Some ctx
                                | None => Some platform
                                end;
             audioSourceRef := audioSourceRef st; playing := playing st;
             stopped := stopped st; created := created st;
             requesting := pending; decoding := S (decoding st) |}
      end
  end.

(** After [await decodeAudioData]: [stopNarration()], then the new source
    is started and kept in [audioSourceRef]; with an exception,
    [setIsNarrating(false)]. *)
Definition playNarration_decoded (buffer : Js.result GeminiService.AudioBuffer)
    (st : Narration) : Narration :=
  match decoding st with
  | 0 => st
  | S pending =>
      match buffer with
      | inr _ =>
          let st' := stopNarration st in
          let source := created st' in
          {| isNarrating := isNarrating st'; audioContextRef := audioContextRef st';
             audioSourceRef := Some source;
             playing := {[source]} ∪ playing st';
             stopped := stopped st'; created := S source;
             requesting := requesting st'; decoding := pending |}
      | inl _ =>
          {| isNarrating := false; audioContextRef := audioContextRef st;
             audioSourceRef := audioSourceRef st; playing := playing st;
             stopped := stopped st; created := created st;
             requesting := requesting st; decoding := pending |}
      end
  end.

(** [source.onended = () => setIsNarrating(false)] *)
Definition onended (source : nat) (st : Narration) : Narration :=
  if bool_decide (source ∈ playing st ∪ stopped st) then
    {| isNarrating := false; audioContextRef := audioContextRef st;
       audioSourceRef := audioSourceRef st;
       playing := playing st ∖ {[source]};
       stopped := stopped st ∖ {[source]};
       created := created st;
       requesting := requesting st; decoding := decoding st |}
  else st.

(** The effect on the indices and the course: the cleanup of the previous
    run, then [stopNarration()] again if the indices name a lesson. *)
Definition lessonChanged (found : bool) (st : Narration) : Narration :=
  if found then stopNarration (stopNarration st) else stopNarration st.

Inductive Event : Type :=
| PlayNarration (content : option string)
| Narrated (platform : GeminiService.AudioContext) (base64 : Js.result string)
| Decoded (buffer : Js.result GeminiService.AudioBuffer)
| Ended (source : nat)
| LessonChanged (found : bool)
| Unmounted.

Definition handle (st : Narration) (e : Event) : Narration :=
  match e with
  | PlayNarration content => playNarration content st
  | Narrated platform base64 => playNarration_narrated platform base64 st
  | Decoded buffer => playNarration_decoded buffer st
  | Ended source => onended source st
  | LessonChanged found => lessonChanged found st
  | Unmounted => stopNarration st
  end.


End LMSPlayer.

(** ** The browser's [localStorage], as far as the application uses it *)

Module LocalStorage.

(** The two keys the application reads and writes.  A stored course list
    is written with [JSON.stringify] and read back with [JSON.parse]; on
    course data the two are inverse to each other, so the list itself
    stands for its serialisation.  [None] is a key without an item. *)
Record Storage : Set := mkStorage {
  edugenius_courses : option (list Course);
  edugenius_topic_draft : option string
}.

End LocalStorage.

(** ** [components/CourseBuilder.tsx]: authoring and per-lesson generation *)

Module CourseBuilder.

(** Object spreads [{ ...l, field: value }]. *)
Definition with_videoUrl (url : string) (l : Lesson) : Lesson :=
  mkLesson (lesson_id l) (lesson_title l) (content l) (lesson_type l)
           (Some url) (lesson_imageUrl l) (lesson_quiz l) (interactiveData l).

Definition with_content (html : string) (l : Lesson) : Lesson :=
  mkLesson (lesson_id l) (lesson_title l) html (lesson_type l)
           (videoUrl l) (lesson_imageUrl l) (lesson_quiz l) (interactiveData l).

Definition with_quiz (qs : list QuizQuestion) (l : Lesson) : Lesson :=
  mkLesson (lesson_id l) (lesson_title l) (content l) (lesson_type l)
           (videoUrl l) (lesson_imageUrl l) (Some qs) (interactiveData l).

Definition with_lessons (ls : list Lesson) (m : CourseModule) : CourseModule :=
  mkModule (module_id m) (module_title m) ls.

Definition with_modules (ms : list CourseModule) (c : Course) : Course :=
  mkCourse (course_id c) (course_title c) (description c) (thumbnail c) ms
           (teaserVideoUrl c).

Definition with_correctAnswers (answers : list nat) (q : QuizQuestion) : QuizQuestion :=
  mkQuizQuestion (question q) (options q) answers.

(** What a generation request resolves to, by the type of the lesson:
    [generateCourseTeaser] yields a video URL, [generateLessonContent(_, 'quiz')]
    a list of questions, [generateLessonContent(_, 'text')] markup. *)
Definition Generated (t : LessonType) : Set :=
  match t with
  | video => string
  | quiz => list QuizQuestion
  | text | interactive => string
  end.

(** The lesson update of the two success branches of [generateLessonBody]. *)
Definition install (t : LessonType) : Generated t → Lesson → Lesson :=
  match t with
  | video => with_videoUrl
  | quiz => with_quiz
  | text | interactive => with_content
  end.

(** A call of [generateLessonBody] suspended at its [await]: the values its
    closure captured. *)
Record Request : Set := mkRequest {
  req_course : Course;
  req_moduleId : string;
  req_lessonId : string;
  req_lesson : Lesson
}.

(** The component state the claims are about.  [requests] is not a program
    variable: it lists the generation requests sent to the service and not
    yet settled, oldest first. *)
Record State : Type := mkState {
  course : option Course;
  loadingStatus : string;
  generatingLessonIds : gset string;
  requests : list Request
}.

(** [course.modules.find(m => m.id === moduleId)?.lessons.find(l => l.id === lessonId)] *)
Definition find_lesson (c : Course) (moduleId lessonId : string) : option Lesson :=
  match List.find (λ m, bool_decide (module_id m = moduleId)) (modules c) with
  | Some m => List.find (λ l, bool_decide (lesson_id l = lessonId)) (lessons m)
  | None => None
  end.

(** [generateLessonBody(moduleId, lessonId)] up to its [await]. *)
Definition generateLessonBody (moduleId lessonId : string) (st : State) : State :=
  match course st with
  | None => st
  | Some c =>
      match find_lesson c moduleId lessonId with
      | None => st
      | Some lesson =>
          {| course := course st;
             loadingStatus := "AI is crafting: " +:+ lesson_title lesson +:+ "...";
             generatingLessonIds := {[lessonId]} ∪ generatingLessonIds st;
             requests := requests st ++ [mkRequest c moduleId lessonId lesson] |}
      end
  end.

(** The [updatedModules] of the success branches, over the captured course. *)
Definition updatedModules (req : Request)
    (result : Generated (lesson_type (req_lesson req))) : list CourseModule :=
  map (λ m,
         if bool_decide (module_id m = req_moduleId req)
         then with_lessons
                (map (λ l,
                        if bool_decide (lesson_id l = req_lessonId req)
                        then install (lesson_type (req_lesson req)) result l
                        else l)
                     (lessons m))
                m
         else m)
      (modules (req_course req)).

(** [generateLessonBody] after its [await], for the [k]-th pending request:
    [Some result] when the service call resolved, [None] when it raised
    (the [catch] branch only reports); then the [finally] block. *)
Definition generateLessonBody_resume (k : nat) (req : Request)
    (outcome : option (Generated (lesson_type (req_lesson req)))) (st : State) : State :=
  {| course := match outcome with
               | Some result =>
                   Some (with_modules (updatedModules req result) (req_course req))
               | None => course st
               end;
     loadingStatus := "";
     generatingLessonIds := generatingLessonIds st ∖ {[req_lessonId req]};
     requests := delete k (requests st) |}.

(** The sidebar control of a lesson:
    [disabled={isGeneratingThis || !!loadingStatus}]. *)
Definition sidebar_disabled (lessonId : string) (st : State) : bool :=
  bool_decide (lessonId ∈ generatingLessonIds st)
  || negb (bool_decide (loadingStatus st = "")).

Definition sidebar_click (moduleId lessonId : string) (st : State) : State :=
  if sidebar_disabled lessonId st then st
  else generateLessonBody moduleId lessonId st.

(** The toggled [correctAnswers] of [toggleQuizAnswer]. *)
Definition newAnswers (currentAnswers : list nat) (oIdx : nat) : list nat :=
  if Js.includes currentAnswers oIdx
  then filter (λ idx, idx ≠ oIdx) currentAnswers
  else currentAnswers ++ [oIdx].

(** The lesson callback of [toggleQuizAnswer].  [updatedQuiz[qIdx]] is
    [undefined] past the end of the quiz, and reading its [correctAnswers]
    throws. *)
Definition toggleQuizAnswer_lesson (lessonId : string) (qIdx oIdx : nat)
    (l : Lesson) : Js.result Lesson :=
  match bool_decide (lesson_id l = lessonId), lesson_quiz l with
  | true, Some updatedQuiz =>
      match updatedQuiz !! qIdx with
      | None => Js.throw Js.TypeError
      | Some q =>
          Js.ok (with_quiz
                   (<[qIdx := with_correctAnswers (newAnswers (correctAnswers q) oIdx) q]>
                      updatedQuiz)
                   l)
      end
  | _, _ => Js.ok l
  end.

(** [toggleQuizAnswer(moduleId, lessonId, qIdx, oIdx)]: the next [course];
    an exception leaves the state as it was. *)
Definition toggleQuizAnswer (moduleId lessonId : string) (qIdx oIdx : nat)
    (course : option Course) : Js.result (option Course) :=
  match course with
  | None => Js.ok None
  | Some c =>
      do ms <- Js.mapM
                 (λ m, if bool_decide (module_id m = moduleId)
                       then do ls <- Js.mapM (toggleQuizAnswer_lesson lessonId qIdx oIdx)
                                             (lessons m);
                            Js.ok (with_lessons ls m)
                       else Js.ok m)
                 (modules c);
      Js.ok (Some (with_modules ms c))
  end.

Definition newQuestion : QuizQuestion :=
  {| question := "New Question";
     options := ["Option 1"; "Option 2"];
     correctAnswers := [0] |}.

(** [addQuizQuestion(moduleId, lessonId)]: the next [course]. *)
Definition addQuizQuestion (moduleId lessonId : string)
    (course : option Course) : option Course :=
  match course with
  | None => None
  | Some c =>
      Some (with_modules
              (map (λ m,
                      if bool_decide (module_id m = moduleId)
                      then with_lessons
                             (map (λ l,
                                     if bool_decide (lesson_id l = lessonId)
                                     then with_quiz (default [] (lesson_quiz l) ++ [newQuestion]) l
                                     else l)
                                  (lessons m))
                             m
                      else m)
                   (modules c))
              c)
  end.

(** *** The other edit handlers

    Every edit handler walks the course the same way:
    [course.modules.map(m => m.id === moduleId
       ? { ...m, lessons: m.lessons.map(l => l.id === lessonId ? f(l) : l) }
       : m)]. *)
Definition editLessons (moduleId lessonId : string) (f : Lesson → Lesson)
    (c : Course) : Course :=
  with_modules
    (map (λ m,
            if bool_decide (module_id m = moduleId)
            then with_lessons
                   (map (λ l, if bool_decide (lesson_id l = lessonId) then f l else l)
                        (lessons m))
                   m
            else m)
         (modules c))
    c.

(** [{ ...l, quiz: l.quiz?.f(...) }]: an absent quiz stays absent. *)
Definition with_quiz_of (f : list QuizQuestion → list QuizQuestion) (l : Lesson) : Lesson :=
  mkLesson (lesson_id l) (lesson_title l) (content l) (lesson_type l)
           (videoUrl l) (lesson_imageUrl l) (f <$> lesson_quiz l) (interactiveData l).

Definition with_question (text : string) (q : QuizQuestion) : QuizQuestion :=
  mkQuizQuestion text (options q) (correctAnswers q).

Definition with_options (opts : list string) (q : QuizQuestion) : QuizQuestion :=
  mkQuizQuestion (question q) opts (correctAnswers q).

(** [updateLessonContent(moduleId, lessonId, content)]: the next [course]. *)
Definition updateLessonContent (moduleId lessonId html : string)
    (course : option Course) : option Course :=
  editLessons moduleId lessonId (with_content html) <$> course.

(** [deleteQuizQuestion(moduleId, lessonId, qIdx)]:
    [quiz: l.quiz?.filter((_, i) => i !== qIdx)]. *)
Definition deleteQuizQuestion (moduleId lessonId : string) (qIdx : nat)
    (course : option Course) : option Course :=
  editLessons moduleId lessonId
    (with_quiz_of (Js.filter_index (λ _ i, negb (i =? qIdx)))) <$> course.

(** [updateQuizQuestionText(moduleId, lessonId, qIdx, text)]:
    [quiz: l.quiz?.map((q, i) => i === qIdx ? { ...q, question: text } : q)]. *)
Definition updateQuizQuestionText (moduleId lessonId : string) (qIdx : nat)
    (text : string) (course : option Course) : option Course :=
  editLessons moduleId lessonId
    (with_quiz_of (imap (λ i q, if i =? qIdx then with_question text q else q)))
    <$> course.

(** [updateOptionText(moduleId, lessonId, qIdx, oIdx, text)]:
    [options: q.options.map((opt, oi) => oi === oIdx ? text : opt)]. *)
Definition updateOptionText (moduleId lessonId : string) (qIdx oIdx : nat)
    (text : string) (course : option Course) : option Course :=
  editLessons moduleId lessonId
    (with_quiz_of
       (imap (λ i q,
                if i =? qIdx
                then with_options
                       (imap (λ oi opt, if oi =? oIdx then text else opt) (options q)) q
                else q)))
    <$> course.

(** [addOption(moduleId, lessonId, qIdx)]:
    [options: [...q.options, "New Option"]]. *)
Definition addOption (moduleId lessonId : string) (qIdx : nat)
    (course : option Course) : option Course :=
  editLessons moduleId lessonId
    (with_quiz_of
       (imap (λ i q,
                if i =? qIdx then with_options (options q ++ ["New Option"]) q else q)))
    <$> course.

(** *** Creating a course *)

(** The answer to a structure request:
    [{ title, description, modules: [{ id, title, lessons: [{ id, title, type }] }] }]. *)
Record LessonStub : Set := mkLessonStub {
  stub_id : string;
  stub_title : string;
  stub_type : LessonType
}.

Record ModuleStub : Set := mkModuleStub {
  mstub_id : string;
  mstub_title : string;
  mstub_lessons : list LessonStub
}.

Record Structure : Set := mkStructure {
  structure_title : string;
  structure_description : string;
  structure_modules : list ModuleStub
}.

(** The state variables of the component before a course exists. *)
Record Draft : Set := mkDraft {
  draft_topic : string;
  draft_isGenerating : bool;
  draft_loadingStatus : string;
  draft_course : option Course
}.

(** [{ ...l, content: '' }] *)
Definition lesson_of_stub (l : LessonStub) : Lesson :=
  mkLesson (stub_id l) (stub_title l) "" (stub_type l) None None None None.

(** [{ ...m, lessons: m.lessons.map(l => ({ ...l, content: '' })) }] *)
Definition module_of_stub (m : ModuleStub) : CourseModule :=
  mkModule (mstub_id m) (mstub_title m) (map lesson_of_stub (mstub_lessons m)).

(** [handleInitialGeneration]: the two requests are answered
    ([Some]) or rejected ([None]); [randomId] is the value of
    [Math.random().toString(36).substr(2, 9)].  The [catch] branch only
    reports, the [finally] block resets [isGenerating]. *)
Definition handleInitialGeneration
    (generateCourseStructure : string → option Structure)
    (generateThumbnail : string → option string)
    (randomId : string) (d : Draft) : Draft :=
  if bool_decide (draft_topic d = "") then d
  else
    match generateCourseStructure (draft_topic d) with
    | None => mkDraft (draft_topic d) false "Architecting course structure..." (draft_course d)
    | Some structure =>
        match generateThumbnail (draft_topic d) with
        | None =>
            mkDraft (draft_topic d) false "Architecting course structure..." (draft_course d)
        | Some thumbnail =>
            mkDraft (draft_topic d) false ""
              (Some {| course_id := randomId;
                       course_title := structure_title structure;
                       description := structure_description structure;
                       thumbnail := Some thumbnail;
                       modules := map module_of_stub (structure_modules structure);
                       teaserVideoUrl := None |})
        end
    end.

(** The mark of a generated lesson in the sidebar:
    [!!(lesson.content || (lesson.quiz && lesson.quiz.length > 0) || lesson.videoUrl)]. *)
Definition hasContent (l : Lesson) : bool :=
  negb (bool_decide (content l = ""))
  || match lesson_quiz l with
     | Some qs => 0 <? length qs
     | None => false
     end
  || match videoUrl l with
     | Some url => negb (bool_decide (url = ""))
     | None => false
     end.

(** *** Saving *)

Import LocalStorage.

(** The auto-save effect on [course]: the stored list gets the course at
    the position of the first stored course with its id, or at the end;
    the topic draft is removed. *)
Definition autosave (course : option Course) (store : Storage) : Storage :=
  match course with
  | None => store
  | Some c =>
      let coursesList := default [] (edugenius_courses store) in
      let existingIndex :=
        Js.findIndex (λ x, bool_decide (course_id x = course_id c)) coursesList in
      {| edugenius_courses :=
           Some match existingIndex with
                | Some i => <[i := c]> coursesList
                | None => coursesList ++ [c]
                end;
         edugenius_topic_draft := None |}
  end.

(** The effect that saves the topic draft:
    [if (!course && topic) localStorage.setItem('edugenius_topic_draft', topic)]. *)
Definition saveTopicDraft (d : Draft) (store : Storage) : Storage :=
  match draft_course d with
  | Some _ => store
  | None =>
      if bool_decide (draft_topic d = "") then store
      else {| edugenius_courses := edugenius_courses store;
              edugenius_topic_draft := Some (draft_topic d) |}
  end.

(** The effect that loads it:
    [if (!course) { const savedTopic = ...getItem(...); if (savedTopic) setTopic(savedTopic) }]. *)
Definition loadTopicDraft (store : Storage) (d : Draft) : Draft :=
  match draft_course d, edugenius_topic_draft store with
  | None, Some savedTopic =>
      if bool_decide (savedTopic = "") then d
      else mkDraft savedTopic (draft_isGenerating d) (draft_loadingStatus d) (draft_course d)
  | _, _ => d
  end.

End CourseBuilder.

(** ** [App.tsx]: generation of an interactive lesson *)

Module App.

#[local] Open Scope float_scope.

Inductive View : Set :=
| dashboard | create | learn | edit | interactive_gen | interactive_play.

(** The answers of the generative service during one generation.  [None]
    is a rejected promise.  The asset requests also take the position of
    the step they are made for, since the service may answer the same
    prompt differently each time. *)
Record Service : Type := mkService {
  generateInteractiveLessonStructure : string → option InteractiveLesson;
  generateIllustration : nat → string → option string;
  generateNarration : nat → string → option string
}.

(** The state of the component.  A JS number is a binary64 float.
    [published] is not a program variable: it lists every value passed to
    [setGenProgress], oldest first. *)
Record State : Type := mkState {
  courses : list Course;
  currentView : View;
  activeCourse : option Course;
  interactiveLesson : option InteractiveLesson;
  isGeneratingInteractive : bool;
  interactiveTopic : string;
  genProgress : float;
  genStatus : string;
  published : list float
}.

Definition setIsGeneratingInteractive (b : bool) (st : State) : State :=
  mkState (courses st) (currentView st) (activeCourse st) (interactiveLesson st)
          b (interactiveTopic st) (genProgress st) (genStatus st) (published st).

Definition setGenProgress (p : float) (st : State) : State :=
  mkState (courses st) (currentView st) (activeCourse st) (interactiveLesson st)
          (isGeneratingInteractive st) (interactiveTopic st) p (genStatus st)
          (published st ++ [p]).

Definition setGenStatus (s : string) (st : State) : State :=
  mkState (courses st) (currentView st) (activeCourse st) (interactiveLesson st)
          (isGeneratingInteractive st) (interactiveTopic st) (genProgress st) s
          (published st).

Definition setInteractiveLesson (l : InteractiveLesson) (st : State) : State :=
  mkState (courses st) (currentView st) (activeCourse st) (Some l)
          (isGeneratingInteractive st) (interactiveTopic st) (genProgress st)
          (genStatus st) (published st).

Definition setCurrentView (v : View) (st : State) : State :=
  mkState (courses st) v (activeCourse st) (interactiveLesson st)
          (isGeneratingInteractive st) (interactiveTopic st) (genProgress st)
          (genStatus st) (published st).

(** An array length or loop counter as a JS number. *)
Definition number (n : nat) : float := PrimFloat.of_uint63 (Uint63.of_Z (Z.of_nat n)).

(** [40 + (i + 1) * (60 / lesson.steps.length)], with [completed = i + 1]. *)
Definition stepProgress (completed total : nat) : float :=
  40 + number completed * (60 / number total).

(** [{ ...step, imageUrl, audioData }] *)
Definition with_assets (imageUrl audio : string) (step : LessonStep) : LessonStep :=
  mkLessonStep (step_id step) (step_title step) (explanation step) (keyPoints step)
               (imagePrompt step) (Some imageUrl) (Some audio).

(** The [for] loop of [startInteractiveGeneration], from step [i] on:
    [todo] are the steps [i, i+1, ...] of the lesson.  State updates made
    before an exception stay. *)
Fixpoint generateAssets (svc : Service) (total i : nat) (todo : list LessonStep)
    (stepsWithAssets : list LessonStep) (st : State)
    : State * Js.result (list LessonStep) :=
  match todo with
  | [] => (st, Js.ok stepsWithAssets)
  | step :: rest =>
      let st := setGenStatus ("Step " +:+ pretty (i + 1)%nat
                              +:+ ": Generating illustration...") st in
      match generateIllustration svc i (imagePrompt step) with
      | None => (st, Js.throw Js.ServiceError)
      | Some imageUrl =>
          let st := setGenStatus ("Step " +:+ pretty (i + 1)%nat
                                  +:+ ": Synthesizing voice explanation...") st in
          match generateNarration svc i (explanation step) with
          | None => (st, Js.throw Js.ServiceError)
          | Some audio =>
              let st := setGenProgress (stepProgress (i + 1) total) st in
              generateAssets svc total (S i) rest
                (stepsWithAssets ++ [with_assets imageUrl audio step]) st
          end
      end
  end.

(** The [try] block. *)
Definition tryGeneration (svc : Service) (st : State) : State * Js.result unit :=
  match generateInteractiveLessonStructure svc (interactiveTopic st) with
  | None => (st, Js.throw Js.ServiceError)
  | Some lesson =>
      let st := setGenProgress 40 st in
      let st := setGenStatus "Architecting visuals and audio..." st in
      match generateAssets svc (length (steps lesson)) 0 (steps lesson) [] st with
      | (st, inl e) => (st, Js.throw e)
      | (st, inr stepsWithAssets) =>
          let st := setInteractiveLesson
                      (mkInteractiveLesson (il_id lesson) (topic lesson)
                                           stepsWithAssets (il_quiz lesson)) st in
          (setCurrentView interactive_play st, Js.ok ())
      end
  end.

(** [const startInteractiveGeneration = async () => { ... }]: the [catch]
    branch only reports; the [finally] block resets the indicators. *)
Definition startInteractiveGeneration (svc : Service) (st : State) : State :=
  if bool_decide (interactiveTopic st = "") then st
  else
    let st := setIsGeneratingInteractive true st in
    let st := setGenProgress 10 st in
    let st := setGenStatus "Brainstorming sequence..." st in
    let '(st, _) := tryGeneration svc st in
    let st := setIsGeneratingInteractive false st in
    let st := setGenProgress 0 st in
    setGenStatus "" st.

(** *** The library *)

Import LocalStorage.

(** [saveCourse(course)]: the next state and what is written to the store. *)
Definition saveCourse (course : Course) (st : State) (store : Storage) : State * Storage :=
  let prev := courses st in
  let exists_ := List.find (λ c, bool_decide (course_id c = course_id course)) prev in
  let updated :=
    match exists_ with
    | Some _ => map (λ c, if bool_decide (course_id c = course_id course) then course else c) prev
    | None => prev ++ [course]
    end in
  (mkState updated dashboard (activeCourse st) (interactiveLesson st)
           (isGeneratingInteractive st) (interactiveTopic st) (genProgress st)
           (genStatus st) (published st),
   {| edugenius_courses := Some updated;
      edugenius_topic_draft := edugenius_topic_draft store |}).

(** [deleteCourse(id)]; [confirmed] is the answer to the [confirm] dialog. *)
Definition deleteCourse (confirmed : bool) (id : string) (st : State) (store : Storage)
    : State * Storage :=
  if confirmed then
    let updated := filter (λ c, course_id c ≠ id) (courses st) in
    (mkState updated (currentView st) (activeCourse st) (interactiveLesson st)
             (isGeneratingInteractive st) (interactiveTopic st) (genProgress st)
             (genStatus st) (published st),
     {| edugenius_courses := Some updated;
        edugenius_topic_draft := edugenius_topic_draft store |})
  else (st, store).

(** The effect that loads the library when the application starts:
    [if (saved) setCourses(JSON.parse(saved))]. *)
Definition loadCourses (store : Storage) (st : State) : State :=
  match edugenius_courses store with
  | Some saved =>
      mkState saved (currentView st) (activeCourse st) (interactiveLesson st)
              (isGeneratingInteractive st) (interactiveTopic st) (genProgress st)
              (genStatus st) (published st)
  | None => st
  end.

(** [startEditing(course)] *)
Definition startEditing (course : Course) (st : State) : State :=
  mkState (courses st) edit (Some course) (interactiveLesson st)
          (isGeneratingInteractive st) (interactiveTopic st) (genProgress st)
          (genStatus st) (published st).

End App.

(** * Properties *)

(** ** Sets of option indices held in arrays *)

(** Two arrays hold the same set of indices. *)
Definition same_members (a b : list nat) : Prop := ∀ x, x ∈ a ↔ x ∈ b.

(** Every index of [a] is in [b], and [b] has one more. *)
Definition strict_subset (a b : list nat) : Prop :=
  (∀ x, x ∈ a → x ∈ b) ∧ ∃ y, y ∈ b ∧ y ∉ a.

Lemma includes_spec (l : list nat) (x : nat) : Js.includes l x = true ↔ x ∈ l.
Proof. unfold Js.includes. apply bool_decide_eq_true. Qed.

Lemma includes_false (l : list nat) (x : nat) : Js.includes l x = false ↔ x ∉ l.
Proof. unfold Js.includes. apply bool_decide_eq_false. Qed.

Lemma every_includes (c sel : list nat) :
  Js.every (λ a, Js.includes c a) sel = true ↔ ∀ x, x ∈ sel → x ∈ c.
Proof.
  unfold Js.every. rewrite forallb_forall. split.
  - intros H x Hx. apply includes_spec, H, list_elem_of_In, Hx.
  - intros H x Hx. apply includes_spec, H, list_elem_of_In, Hx.
Qed.

(** A duplicate-free array inside another one of the same length fills it. *)
Lemma NoDup_subset_same_length (a b : list nat) :
  NoDup a → (∀ x, x ∈ a → x ∈ b) → length a = length b → a ≡ₚ b.
Proof.
  intros Ha Hsub Hlen.
  apply submseteq_length_Permutation; [by apply NoDup_submseteq | lia].
Qed.

Lemma same_members_length (a b : list nat) :
  NoDup a → NoDup b → same_members a b → length a = length b.
Proof.
  intros Ha Hb Hab. apply Permutation_length, NoDup_Permutation; auto.
Qed.

Lemma isCorrect_same_members (q : QuizQuestion) (answers : list nat) :
  NoDup answers → NoDup (correctAnswers q) →
  InteractivePlayer.isCorrect q answers = true ↔ same_members answers (correctAnswers q).
Proof.
  intros Ha Hc. unfold InteractivePlayer.isCorrect.
  rewrite andb_true_iff, Nat.eqb_eq, every_includes. split.
  - intros [Hlen Hsub] x.
    by rewrite (NoDup_subset_same_length _ _ Ha Hsub Hlen).
  - intros Hsame. split; [by apply same_members_length | intros x; apply Hsame].
Qed.

Lemma strict_subset_not_same (a b : list nat) :
  strict_subset a b ∨ strict_subset b a → ¬ same_members a b.
Proof.
  intros [[_ (y & Hy & Hny)] | [_ (y & Hy & Hny)]] Hsame; apply Hny, Hsame, Hy.
Qed.

(** ** The score is a sum of per-question points *)

Lemma reduce_from_sum {A} (pt : nat → A → nat) (l : list A) (i acc : nat) :
  Js.reduce_from (λ acc x idx, acc + pt idx x) i l acc
  = acc + sum_list (imap (λ j, pt (i + j)) l).
Proof.
  revert i acc. induction l as [|x l IH]; intros i acc; simpl.
  - lia.
  - rewrite IH, Nat.add_0_r.
    rewrite (imap_ext (λ j, pt (S i + j)) ((λ j, pt (i + j)) ∘ S)) by
      (intros; simpl; f_equal; lia).
    lia.
Qed.

Lemma sum_points_bound {A} (pt : nat → A → nat) (l : list A) :
  (∀ i x, pt i x ≤ 1) →
  sum_list (imap pt l) ≤ length l
  ∧ (sum_list (imap pt l) = length l ↔ ∀ i x, l !! i = Some x → pt i x = 1).
Proof.
  revert pt. induction l as [|x l IH]; intros pt Hpt; simpl.
  - split; [lia | split; [intros _ i x Hx | done]]. by rewrite lookup_nil in Hx.
  - destruct (IH (pt ∘ S)) as [Hle Hiff]; [intros; apply Hpt|].
    pose proof (Hpt 0 x). split; [lia|]. split.
    + intros Hsum [|i] y Hy; simpl in Hy.
      * inversion Hy; subst. lia.
      * apply (proj1 Hiff); [lia | done].
    + intros Hall. rewrite (Hall 0 x eq_refl).
      f_equal. apply Hiff. intros i y Hy. apply (Hall (S i) y Hy).
Qed.

(** C1. Scoring of a submitted quiz.  With [correctAnswers] and the
    learner's selections held as duplicate-free arrays (sets of indices),
    a question earns one point exactly when the selected set equals the
    set of correct answers (and then the two have the same size), and no
    point otherwise, in particular for a strict subset or superset; the
    score is the sum of the points, it is at most the number of questions,
    and it equals that number exactly when every selection equals its
    question's correct answers. *)
Theorem score_exact_set_match
    (quiz : list QuizQuestion) (userAnswers : gmap nat (list nat)) :
  (∀ i q, quiz !! i = Some q → NoDup (correctAnswers q)) →
  (∀ i sel, userAnswers !! i = Some sel → NoDup sel) →
  let selected i := default [] (userAnswers !! i) in
  let point i q := if InteractivePlayer.isCorrect q (selected i) then 1 else 0 in
  (∀ i q, quiz !! i = Some q →
     (point i q = 1 ↔ same_members (selected i) (correctAnswers q))
     ∧ (point i q = 0 ↔ ¬ same_members (selected i) (correctAnswers q))
     ∧ (point i q = 1 → length (selected i) = length (correctAnswers q))
     ∧ (strict_subset (selected i) (correctAnswers q)
        ∨ strict_subset (correctAnswers q) (selected i) → point i q = 0))
  ∧ InteractivePlayer.score true quiz userAnswers = sum_list (imap point quiz)
  ∧ InteractivePlayer.score true quiz userAnswers ≤ length quiz
  ∧ (InteractivePlayer.score true quiz userAnswers = length quiz
     ↔ ∀ i q, quiz !! i = Some q → same_members (selected i) (correctAnswers q)).
Proof.
  intros Hquiz Hsel selected point.
  assert (Hnd : ∀ i, NoDup (selected i)).
  { intros i. unfold selected. destruct (userAnswers !! i) eqn:E; simpl.
    - by eapply Hsel.
    - constructor. }
  assert (Hpoint : ∀ i q, quiz !! i = Some q →
            (point i q = 1 ↔ same_members (selected i) (correctAnswers q))).
  { intros i q Hq. unfold point.
    rewrite <- (isCorrect_same_members q (selected i) (Hnd i) (Hquiz i q Hq)).
    destruct (InteractivePlayer.isCorrect q (selected i)); split; congruence. }
  assert (Hle : ∀ i q, point i q ≤ 1).
  { intros i q. unfold point. destruct (InteractivePlayer.isCorrect _ _); lia. }
  assert (Hscore : InteractivePlayer.score true quiz userAnswers
                   = sum_list (imap point quiz)).
  { unfold InteractivePlayer.score, Js.reduce.
    exact (reduce_from_sum point quiz 0 0). }
  destruct (sum_points_bound point quiz Hle) as [Hbound Hfull].
  split; [|split; [done | split; [by rewrite Hscore|]]].
  - intros i q Hq. pose proof (Hpoint i q Hq) as Hp. pose proof (Hle i q).
    split; [done|]. split; [|split].
    + rewrite <- Hp. lia.
    + intros H1. apply same_members_length; [apply Hnd | by eapply Hquiz | by apply Hp].
    + intros Hstrict. apply strict_subset_not_same in Hstrict.
      rewrite <- Hp in Hstrict. lia.
  - rewrite Hscore, Hfull. split; intros H i q Hq; [apply Hpoint | apply Hpoint]; auto.
Qed.

(** The example of the specification: one question with correct answers
    {0, 2}; selecting {0} scores 0, {0, 2} scores 1, {0, 1, 2} scores 0. *)
Example score_spec_example :
  let q := mkQuizQuestion "Which?" ["a"; "b"; "c"] [0; 2] in
  InteractivePlayer.score true [q] {[ 0 := [0] ]} = 0
  ∧ InteractivePlayer.score true [q] {[ 0 := [0; 2] ]} = 1
  ∧ InteractivePlayer.score true [q] {[ 0 := [2; 0] ]} = 1
  ∧ InteractivePlayer.score true [q] {[ 0 := [0; 1; 2] ]} = 0
  ∧ InteractivePlayer.score true [q] ∅ = 0
  ∧ InteractivePlayer.score false [q] {[ 0 := [0; 2] ]} = 0.
Proof. repeat split; vm_compute; reflexivity. Qed.

(** Without duplicate-freedom the comparison by length and inclusion is
    not set equality: a repeated index can stand in for a missing one. *)
Example isCorrect_needs_NoDup :
  InteractivePlayer.isCorrect (mkQuizQuestion "Which?" ["a"; "b"] [0; 1]) [0; 0] = true
  ∧ ¬ same_members [0; 0] [0; 1].
Proof.
  split; [reflexivity|]. intros H. specialize (H 1).
  rewrite !elem_of_cons, !elem_of_nil in H. lia.
Qed.

(** Closed facts about explicit arrays are decided by evaluation. *)
Ltac by_evaluation := apply (bool_decide_unpack _); vm_compute; exact I.

Lemma score_exact_set_match_witness :
  let q := mkQuizQuestion "Which?" ["a"; "b"; "c"] [0; 2] in
  InteractivePlayer.score true [q] {[ 0 := [2; 0] ]} = length [q].
Proof.
  intros q.
  assert (Hq : ∀ i q', [q] !! i = Some q' → NoDup (correctAnswers q')).
  { intros [|[|i]] q' H; simpl in H; inversion H; subst; simpl. by_evaluation. }
  assert (Hs : ∀ i sel, ({[ 0 := [2; 0] ]} : gmap nat (list nat)) !! i = Some sel → NoDup sel).
  { intros i sel H. apply lookup_singleton_Some in H as [_ <-]. by_evaluation. }
  destruct (score_exact_set_match [q] {[ 0 := [2; 0] ]} Hq Hs) as (_ & _ & _ & Hfull).
  apply Hfull. intros [|[|i]] q' H; simpl in H; inversion H; subst.
  rewrite lookup_singleton_eq. simpl. intros x.
  rewrite !elem_of_cons, !elem_of_nil. lia.
Defined.

(** ** The learner's toggle keeps selections duplicate-free *)

Lemma LMSPlayer_toggleAnswer_same frozen (prev : gmap nat (list nat)) qIdx oIdx :
  LMSPlayer.toggleAnswer frozen prev qIdx oIdx
  = InteractivePlayer.toggleAnswer frozen prev qIdx oIdx.
Proof. reflexivity. Qed.

(** The two branches of the toggle on one selection. *)
Lemma toggled_remove (current : list nat) (oIdx : nat) :
  NoDup current →
  NoDup (filter (λ i, i ≠ oIdx) current)
  ∧ (oIdx ∉ filter (λ i, i ≠ oIdx) current)
  ∧ ∀ x, x ∈ filter (λ i, i ≠ oIdx) current ↔ x ∈ current ∧ x ≠ oIdx.
Proof.
  intros Hnd. split; [by apply NoDup_filter|]. split.
  - rewrite list_elem_of_filter. tauto.
  - intros x. rewrite list_elem_of_filter. tauto.
Qed.

Lemma toggled_append (current : list nat) (oIdx : nat) :
  NoDup current → oIdx ∉ current →
  NoDup (current ++ [oIdx])
  ∧ ∀ x, x ∈ current ++ [oIdx] ↔ x ∈ current ∨ x = oIdx.
Proof.
  intros Hnd Hnot. split.
  - apply NoDup_app. split; [done|]. split; [|apply NoDup_singleton].
    intros x Hx. rewrite list_elem_of_singleton. congruence.
  - intros x. by rewrite elem_of_app, list_elem_of_singleton.
Qed.

(** C9. In both players, toggling an option in an answers map whose
    selections are duplicate-free yields a map whose selections are
    duplicate-free: other questions keep their selection, and the toggled
    question gets its previous selection (empty when it had no entry) with
    the option filtered out if it was selected and appended once if it was
    not.  After submission the map does not change. *)
Theorem toggleAnswer_preserves_NoDup
    (frozen : bool) (prev : gmap nat (list nat)) (qIdx oIdx : nat) :
  (∀ i sel, prev !! i = Some sel → NoDup sel) →
  let current := default [] (prev !! qIdx) in
  let next := InteractivePlayer.toggleAnswer frozen prev qIdx oIdx in
  LMSPlayer.toggleAnswer frozen prev qIdx oIdx = next
  ∧ (∀ i sel, next !! i = Some sel → NoDup sel)
  ∧ (frozen = true → next = prev)
  ∧ (frozen = false →
       (∀ i, i ≠ qIdx → next !! i = prev !! i)
       ∧ (prev !! qIdx = None → next !! qIdx = Some [oIdx])
       ∧ (oIdx ∈ current →
            next !! qIdx = Some (filter (λ i, i ≠ oIdx) current)
            ∧ (oIdx ∉ default [] (next !! qIdx))
            ∧ ∀ x, x ≠ oIdx → (x ∈ default [] (next !! qIdx) ↔ x ∈ current))
       ∧ (oIdx ∉ current →
            next !! qIdx = Some (current ++ [oIdx])
            ∧ ∀ x, x ∈ default [] (next !! qIdx) ↔ x ∈ current ∨ x = oIdx)).
Proof.
  intros Hprev current next.
  assert (Hcur : NoDup current).
  { unfold current. destruct (prev !! qIdx) eqn:E; simpl; [by eapply Hprev | constructor]. }
  split; [reflexivity|]. unfold next, InteractivePlayer.toggleAnswer.
  destruct frozen; [by repeat split|]. fold current.
  destruct (Js.includes current oIdx) eqn:Hinc.
  - apply includes_spec in Hinc.
    destruct (toggled_remove current oIdx Hcur) as (Hnd & Hout & Hmem).
    split; [|split; [done|intros _; repeat split]].
    + intros i sel. rewrite lookup_insert. case_decide; [|by apply Hprev].
      intros [= <-]. done.
    + intros i Hi. by rewrite lookup_insert_ne.
    + intros Hnone. unfold current in Hinc. rewrite Hnone in Hinc. simpl in Hinc.
      by apply elem_of_nil in Hinc.
    + by rewrite lookup_insert_eq.
    + by rewrite lookup_insert_eq.
    + rewrite lookup_insert_eq. simpl. rewrite Hmem. tauto.
    + rewrite lookup_insert_eq. simpl. rewrite Hmem. tauto.
    + done.
    + done.
    + done.
  - apply includes_false in Hinc.
    destruct (toggled_append current oIdx Hcur Hinc) as (Hnd & Hmem).
    split; [|split; [done|intros _; repeat split]].
    + intros i sel. rewrite lookup_insert. case_decide; [|by apply Hprev].
      intros [= <-]. done.
    + intros i Hi. by rewrite lookup_insert_ne.
    + intros Hnone. rewrite lookup_insert_eq. unfold current. by rewrite Hnone.
    + done.
    + done.
    + done.
    + done.
    + by rewrite lookup_insert_eq.
    + rewrite lookup_insert_eq. simpl. apply Hmem.
    + rewrite lookup_insert_eq. simpl. apply Hmem.
Qed.

Lemma toggleAnswer_preserves_NoDup_witness :
  InteractivePlayer.toggleAnswer false {[ 0 := [1] ]} 0 2 !! 0 = Some [1; 2]
  ∧ LMSPlayer.toggleAnswer false {[ 0 := [1] ]} 0 2
    = InteractivePlayer.toggleAnswer false {[ 0 := [1] ]} 0 2.
Proof.
  assert (Hprev : ∀ i sel,
            ({[ 0 := [1] ]} : gmap nat (list nat)) !! i = Some sel → NoDup sel).
  { intros i sel H. apply lookup_singleton_Some in H as [_ <-]. by_evaluation. }
  destruct (toggleAnswer_preserves_NoDup false {[ 0 := [1] ]} 0 2 Hprev)
    as (Hsame & _ & _ & Hrun).
  destruct (Hrun eq_refl) as (_ & _ & _ & Happend).
  split; [|exact Hsame].
  rewrite lookup_singleton_eq in Happend. simpl in Happend.
  apply Happend. rewrite list_elem_of_singleton. lia.
Defined.

(** ** Decoding 16-bit PCM *)

Section Decode.

Import GeminiService.
Import Strings.Byte.

Lemma int16_of_le_range (lo hi : byte) :
  (-32768 ≤ int16_of_le lo hi < 32768)%Z.
Proof.
  unfold int16_of_le.
  pose proof (to_N_bounded lo). pose proof (to_N_bounded hi).
  destruct (Z.ltb_spec (Z.of_N (to_N lo) + 256 * Z.of_N (to_N hi)) 32768); lia.
Qed.

(** Induction over a byte sequence two bytes at a time. *)
Lemma bytes_pair_ind (P : list byte → Prop) :
  P [] → (∀ b, P [b]) → (∀ lo hi rest, P rest → P (lo :: hi :: rest)) →
  ∀ data, P data.
Proof.
  intros Hnil Hone Hpair data.
  assert (H : P data ∧ ∀ b, P (b :: data)); [|apply H].
  induction data as [|b data [IH1 IH2]]; split; auto.
Qed.

(** The view built by the [Int16Array] constructor shows at each position
    the sample that [int16At] reads from the bytes. *)
Lemma int16_elements_lookup (data : list byte) (k : nat) :
  int16_elements data !! k = int16At data k.
Proof.
  revert k. induction data as [|b|lo hi rest IH] using bytes_pair_ind; intros k.
  - unfold int16At. by rewrite !lookup_nil.
  - unfold int16At. simpl. destruct k as [|k]; simpl; [done|].
    replace (k + S (k + 0)) with (S (k + (k + 0))) by lia. done.
  - destruct k as [|k]; [done|]. simpl int16_elements. simpl lookup at 1.
    rewrite IH. unfold int16At.
    replace (2 * S k) with (S (S (2 * k))) by lia.
    replace (S (S (2 * k)) + 1) with (S (S (2 * k + 1))) by lia.
    reflexivity.
Qed.

Lemma int16_elements_length (data : list byte) :
  length (int16_elements data) = length data / 2.
Proof.
  induction data as [|b|lo hi rest IH] using bytes_pair_ind; [done..|].
  simpl length. rewrite IH.
  change (S (S (length rest))) with (1 * 2 + length rest).
  rewrite Nat.div_add_l by lia. lia.
Qed.

Lemma int16_elements_range (data : list byte) (k : nat) (v : Z) :
  int16_elements data !! k = Some v → (-32768 ≤ v < 32768)%Z.
Proof.
  rewrite int16_elements_lookup. unfold int16At.
  destruct (data !! (2 * k)), (data !! (2 * k + 1)); try done.
  intros [= <-]. apply int16_of_le_range.
Qed.

(** *** The loops *)

Lemma foldl_insert_length {A} (f : nat → A) (js : list nat) (l : list A) :
  length (foldl (λ cd i, <[i := f i]> cd) l js) = length l.
Proof.
  revert l. induction js as [|j js IH]; intros l; simpl; [done|].
  by rewrite IH, length_insert.
Qed.

Lemma foldl_insert_seq_lookup {A} (f : nat → A) (m : nat) (l : list A) (j : nat) :
  foldl (λ cd i, <[i := f i]> cd) l (seq 0 m) !! j
  = if decide (j < m ∧ j < length l) then Some (f j) else l !! j.
Proof.
  induction m as [|m IH].
  - destruct (decide _) as [[? _]|_]; [lia | done].
  - rewrite seq_S, foldl_app. simpl.
    rewrite list_lookup_insert, foldl_insert_length, IH.
    destruct (decide (m = j ∧ _)) as [[-> ?]|?].
    + by rewrite decide_True by lia.
    + destruct (decide (j < m ∧ j < length l)) as [[? ?]|?].
      * by rewrite decide_True by lia.
      * by rewrite decide_False by lia.
Qed.

(** One channel after the inner loop: position [i] holds sample
    [i * numChannels + channel]; iterations past the end of the channel
    store nothing. *)
Lemma fill_channel_eq (dataInt16 : list Z) (nc c : nat) (frameCount : Q)
    (cd : list Sample) :
  length cd ≤ iterations frameCount →
  fill_channel dataInt16 nc c frameCount cd
  = map (λ i, scaled dataInt16 (i * nc + c)) (seq 0 (length cd)).
Proof.
  intros Hlen. apply list_eq. intros j. unfold fill_channel.
  rewrite (foldl_insert_seq_lookup (λ i, scaled dataInt16 (i * nc + c))).
  change (map ?f ?l) with (f <$> l). rewrite list_lookup_fmap.
  case_decide as Hj.
  - rewrite lookup_seq_lt by lia. done.
  - rewrite lookup_seq_ge by lia. simpl. apply lookup_ge_None. lia.
Qed.

Lemma foldl_alter_seq_lookup {A} (g : nat → A → A) (m : nat) (l : list A) (j : nat) :
  foldl (λ chs c, alter (g c) c chs) l (seq 0 m) !! j
  = if decide (j < m) then g j <$> l !! j else l !! j.
Proof.
  induction m as [|m IH].
  - by rewrite decide_False by lia.
  - rewrite seq_S, foldl_app. simpl. rewrite list_lookup_alter.
    destruct (decide (m = j)) as [->|Hne].
    + rewrite IH, decide_False, decide_True by lia. done.
    + rewrite IH. destruct (decide (j < m)).
      * by rewrite decide_True by lia.
      * by rewrite decide_False by lia.
Qed.

(** The outer loop changes the channel arrays of the buffer only. *)
Lemma foldl_channels (g : nat → list Sample → list Sample) (cs : list nat)
    (buf : AudioBuffer) :
  foldl (λ buf channel,
           {| numberOfChannels := numberOfChannels buf;
              buffer_length := buffer_length buf;
              buffer_sampleRate := buffer_sampleRate buf;
              channels := alter (g channel) channel (channels buf) |}) buf cs
  = {| numberOfChannels := numberOfChannels buf;
       buffer_length := buffer_length buf;
       buffer_sampleRate := buffer_sampleRate buf;
       channels := foldl (λ chs c, alter (g c) c chs) (channels buf) cs |}.
Proof.
  revert buf. induction cs as [|c cs IH]; intros buf; simpl.
  - by destruct buf.
  - by rewrite IH.
Qed.

(** *** The frame count, a quotient of two integers *)

Lemma frameCount_floor (n nc : nat) :
  0 < nc →
  Qfloor (inject_Z (Z.of_nat n) / inject_Z (Z.of_nat nc)) = Z.of_nat (n / nc).
Proof.
  intros Hnc. rewrite Nat2Z.inj_div.
  destruct (Z.of_nat nc) as [|p|p] eqn:E; try lia.
  unfold Qdiv, Qinv, Qmult, inject_Z, Qfloor. simpl.
  by rewrite Z.mul_1_r.
Qed.

(** The loop runs at least once for every whole frame. *)
Lemma frameCount_iterations (n nc : nat) :
  0 < nc →
  n / nc ≤ iterations (inject_Z (Z.of_nat n) / inject_Z (Z.of_nat nc)).
Proof.
  intros Hnc. unfold iterations.
  pose proof (Qle_floor_ceiling (inject_Z (Z.of_nat n) / inject_Z (Z.of_nat nc))) as H.
  rewrite <- Zle_Qle, frameCount_floor in H by done. lia.
Qed.

(** [iterations] counts the values of [i] that pass the loop test. *)
Lemma iterations_spec (frameCount : Q) (i : nat) :
  i < iterations frameCount ↔ (inject_Z (Z.of_nat i) < frameCount)%Q.
Proof.
  unfold iterations. split.
  - intros Hi. assert (Z.of_nat i ≤ Qceiling frameCount - 1)%Z as Hz by lia.
    eapply Qle_lt_trans; [|apply Qceiling_lt]. by rewrite <- Zle_Qle.
  - intros Hi.
    assert (inject_Z (Z.of_nat i) < inject_Z (Qceiling frameCount))%Q as Hc
      by (eapply Qlt_le_trans; [exact Hi | apply Qle_ceiling]).
    rewrite <- Zlt_Qlt in Hc. lia.
Qed.

Lemma createBuffer_ok (ctx : AudioContext) (nc : nat) (frameCount : Q) (rate : Z)
    (frames : nat) :
  1 ≤ nc ≤ maxChannelCount ctx →
  (minSampleRate ctx ≤ rate ≤ maxSampleRate ctx)%Z →
  Qfloor frameCount = Z.of_nat frames → 1 ≤ frames → (Z.of_nat frames < 2 ^ 32)%Z →
  createBuffer ctx nc frameCount rate
  = Js.ok {| numberOfChannels := nc; buffer_length := frames;
             buffer_sampleRate := rate;
             channels := replicate nc (replicate frames (Num 0)) |}.
Proof.
  intros Hnc Hrate Hfloor Hpos Hsmall. unfold createBuffer, to_unsigned_long.
  rewrite Hfloor, Z.mod_small, Nat2Z.id by lia.
  destruct (Nat.eqb_spec nc 0); [lia|].
  destruct (Nat.ltb_spec (maxChannelCount ctx) nc); [lia|].
  destruct (Nat.eqb_spec frames 0); [lia|].
  destruct (Z.ltb_spec rate (minSampleRate ctx)); [lia|].
  destruct (Z.ltb_spec (maxSampleRate ctx) rate); [lia|].
  reflexivity.
Qed.

(** The channel arrays of a decoded buffer: channel [c], frame [i] holds
    the scaled sample [i * numChannels + c]. *)
Definition deinterleaved (dataInt16 : list Z) (nc frames : nat) : list (list Sample) :=
  map (λ c, map (λ i, scaled dataInt16 (i * nc + c)) (seq 0 frames)) (seq 0 nc).

(** Decoding a byte sequence of even length that holds at least one whole
    frame. *)
Lemma decodeAudioData_even (ctx : AudioContext) (data : list byte) (rate : Z)
    (nc : nat) :
  let frames := length data / 2 / nc in
  Nat.even (length data) = true →
  1 ≤ nc ≤ maxChannelCount ctx →
  (minSampleRate ctx ≤ rate ≤ maxSampleRate ctx)%Z →
  1 ≤ frames → (Z.of_nat frames < 2 ^ 32)%Z →
  decodeAudioData data ctx rate nc
  = Js.ok {| numberOfChannels := nc; buffer_length := frames;
             buffer_sampleRate := rate;
             channels := deinterleaved (int16_elements data) nc frames |}.
Proof.
  intros frames Heven Hnc Hrate Hpos Hsmall.
  unfold decodeAudioData, Int16Array. rewrite Heven. simpl Js.bind.
  rewrite int16_elements_length.
  rewrite (createBuffer_ok ctx nc _ rate frames) by
    (try done; apply frameCount_floor; lia).
  simpl Js.bind. rewrite foldl_channels. simpl. unfold Js.ok. do 2 f_equal.
  apply list_eq. intros c. rewrite foldl_alter_seq_lookup.
  unfold deinterleaved. change (map ?f ?l) with (f <$> l) at 1.
  rewrite list_lookup_fmap.
  destruct (decide (c < nc)) as [Hc|Hc].
  - rewrite lookup_replicate_2, lookup_seq_lt by done. simpl. f_equal.
    rewrite fill_channel_eq; rewrite length_replicate; [done|].
    apply frameCount_iterations. lia.
  - rewrite lookup_seq_ge by lia. simpl. apply lookup_replicate_None. lia.
Qed.

Lemma deinterleaved_lookup (dataInt16 : list Z) (nc frames c i : nat) :
  c < nc → i < frames →
  ∃ cd, deinterleaved dataInt16 nc frames !! c = Some cd
        ∧ length cd = frames
        ∧ cd !! i = Some (scaled dataInt16 (i * nc + c)).
Proof.
  intros Hc Hi. eexists. unfold deinterleaved.
  change (map ?f ?l) with (f <$> l) at 1.
  rewrite list_lookup_fmap, lookup_seq_lt by done. simpl.
  split; [reflexivity|]. rewrite length_map, length_seq. split; [done|].
  change (map ?f ?l) with (f <$> l).
  by rewrite list_lookup_fmap, lookup_seq_lt.
Qed.

Lemma scaled_range (v : Z) :
  (-32768 ≤ v < 32768)%Z → (-1 <= v # 32768)%Q ∧ (v # 32768 < 1)%Q.
Proof. intros Hv. unfold Qle, Qlt. simpl. lia. Qed.

Lemma whole_frames_length (frames nc : nat) :
  0 < nc →
  Nat.even (frames * nc * 2) = true ∧ frames * nc * 2 / 2 / nc = frames.
Proof.
  intros Hnc. split.
  - rewrite Nat.even_mul. simpl. apply orb_true_r.
  - rewrite !Nat.div_mul by lia. done.
Qed.

End Decode.

Import GeminiService.
Import Strings.Byte.

(** C2. Decoding interleaved signed 16-bit little-endian PCM.  For a byte
    sequence that holds [frames] whole frames of [numChannels] channels
    (at least one frame, on a context that supports the channel count and
    the rate), [decodeAudioData] returns a buffer with [numChannels]
    channel arrays of [frames] samples each, [frames] being the number of
    16-bit samples divided by [numChannels]; the sample of channel [c] at
    frame [i] is [int16At (i * numChannels + c) / 32768], it lies in
    [-1, 1), a sample value 0 decodes to 0 and 32767 to 32767/32768. *)
Theorem decodeAudioData_samples
    (ctx : AudioContext) (data : list byte) (sampleRate : Z)
    (numChannels frames : nat) :
  1 ≤ numChannels ≤ maxChannelCount ctx →
  (minSampleRate ctx ≤ sampleRate ≤ maxSampleRate ctx)%Z →
  1 ≤ frames → (Z.of_nat frames < 2 ^ 32)%Z →
  length data = frames * numChannels * 2 →
  ∃ buffer,
    decodeAudioData data ctx sampleRate numChannels = Js.ok buffer
    ∧ numberOfChannels buffer = numChannels
    ∧ length (channels buffer) = numChannels
    ∧ buffer_length buffer = frames
    ∧ frames = length data / 2 / numChannels
    ∧ ∀ c i, c < numChannels → i < frames →
        ∃ cd v,
          channels buffer !! c = Some cd
          ∧ length cd = frames
          ∧ int16At data (i * numChannels + c) = Some v
          ∧ cd !! i = Some (Num (v # 32768))
          ∧ (v # 32768 == inject_Z v / 32768)%Q
          ∧ (-1 <= v # 32768)%Q ∧ (v # 32768 < 1)%Q
          ∧ (v = 0%Z → v # 32768 == 0)%Q
          ∧ (v = 32767%Z →
             (v # 32768 == 32767 / 32768)%Q
             ∧ (99996 # 100000 < v # 32768)%Q ∧ (v # 32768 < 99998 # 100000)%Q).
Proof.
  intros Hnc Hrate Hpos Hsmall Hlen.
  destruct (whole_frames_length frames numChannels) as [Heven Hframes]; [lia|].
  rewrite <- Hlen in Heven, Hframes.
  pose proof (decodeAudioData_even ctx data sampleRate numChannels) as Hdec.
  cbv zeta in Hdec. rewrite Hframes in Hdec.
  eexists. split; [by apply Hdec|]. simpl.
  split; [done|]. split; [unfold deinterleaved; by rewrite length_map, length_seq|].
  split; [done|]. split; [done|]. intros c i Hc Hi.
  destruct (deinterleaved_lookup (int16_elements data) numChannels frames c i Hc Hi)
    as (cd & Hcd & Hcdlen & Hsample).
  assert (is_Some (int16_elements data !! (i * numChannels + c))) as [v Hv].
  { apply lookup_lt_is_Some. rewrite int16_elements_length, Hlen, Nat.div_mul by lia.
    nia. }
  exists cd, v. unfold scaled in Hsample. rewrite Hv in Hsample.
  pose proof (int16_elements_range _ _ _ Hv) as Hrange.
  destruct (scaled_range v Hrange) as [Hlo Hhi].
  rewrite int16_elements_lookup in Hv.
  split_and!; try done.
  - apply Qmake_Qdiv.
  - by intros ->.
  - intros ->. by split_and!.
Qed.

(** Two mono frames: the samples 0 and 32767. *)
Example decodeAudioData_two_frames :
  decodeAudioData [x00; x00; xff; x7f] (mkAudioContext 32 8000 96000) 24000 1
  = Js.ok {| numberOfChannels := 1; buffer_length := 2; buffer_sampleRate := 24000;
             channels := [[Num (0 # 32768); Num (32767 # 32768)]] |}.
Proof. vm_compute. reflexivity. Qed.

(** A stereo frame: the samples -32768 (left) and -1 (right). *)
Example decodeAudioData_stereo_frame :
  decodeAudioData [x00; x80; xff; xff] (mkAudioContext 32 8000 96000) 24000 2
  = Js.ok {| numberOfChannels := 2; buffer_length := 1; buffer_sampleRate := 24000;
             channels := [[Num (-32768 # 32768)]; [Num (-1 # 32768)]] |}.
Proof. vm_compute. reflexivity. Qed.

Lemma decodeAudioData_samples_witness :
  ∃ buffer,
    decodeAudioData [x00; x00; xff; x7f] (mkAudioContext 32 8000 96000) 24000 1
    = Js.ok buffer
    ∧ numberOfChannels buffer = 1 ∧ buffer_length buffer = 2.
Proof.
  destruct (decodeAudioData_samples (mkAudioContext 32 8000 96000)
              [x00; x00; xff; x7f] 24000 1 2) as (buffer & Hdec & Hn & _ & Hl & _);
    [simpl; lia | simpl; lia | lia | lia | reflexivity |].
  exists buffer. by split_and!.
Defined.

(** ** Byte sequences that do not hold a whole number of frames *)

(** Three bytes of mono audio: the [Int16Array] constructor raises. *)
Lemma decodeAudioData_odd_length_raises :
  length [x01; x02; x03] `mod` (1 * 2) ≠ 0
  ∧ decodeAudioData [x01; x02; x03] (mkAudioContext 32 8000 96000) 24000 1
    = Js.throw Js.RangeError.
Proof. split; [simpl; lia | reflexivity]. Qed.

(** An empty byte sequence, or one shorter than a frame: [createBuffer]
    raises on the frame count 0. *)
Example decodeAudioData_no_frame_raises :
  decodeAudioData [] (mkAudioContext 32 8000 96000) 24000 1
  = Js.throw Js.NotSupportedError
  ∧ decodeAudioData [x01; x02] (mkAudioContext 32 8000 96000) 24000 2
    = Js.throw Js.NotSupportedError.
Proof. split; vm_compute; reflexivity. Qed.

(** Three stereo samples: one whole frame, the lone third sample is
    dropped. *)
Example decodeAudioData_partial_frame_dropped :
  decodeAudioData [x01; x00; x02; x00; x03; x00] (mkAudioContext 32 8000 96000) 24000 2
  = Js.ok {| numberOfChannels := 2; buffer_length := 1; buffer_sampleRate := 24000;
             channels := [[Num (1 # 32768)]; [Num (2 # 32768)]] |}.
Proof. vm_compute. reflexivity. Qed.

Lemma int16At_take (data : list byte) (n k : nat) :
  2 * k + 1 < n → int16At (take n data) k = int16At data k.
Proof.
  intros Hk. unfold int16At. by rewrite !lookup_take_lt by lia.
Qed.

Lemma deinterleaved_take (data : list byte) (nc frames : nat) :
  deinterleaved (int16_elements (take (frames * nc * 2) data)) nc frames
  = deinterleaved (int16_elements data) nc frames.
Proof.
  unfold deinterleaved. apply map_ext_in. intros c Hc. apply in_seq in Hc.
  apply map_ext_in. intros i Hi. apply in_seq in Hi.
  unfold scaled. rewrite !int16_elements_lookup, int16At_take; [done | nia].
Qed.

(** C6 (as the code has it).  A byte sequence of odd length is rejected:
    [decodeAudioData] raises a [RangeError].  A byte sequence of even
    length that holds at least one whole frame is decoded without an
    error, and the result is that of the sequence cut after its last whole
    frame: the samples of a trailing partial frame are dropped. *)
Theorem decodeAudioData_partial_frame
    (ctx : AudioContext) (data : list byte) (sampleRate : Z) (numChannels : nat) :
  let frames := length data / 2 / numChannels in
  1 ≤ numChannels ≤ maxChannelCount ctx →
  (minSampleRate ctx ≤ sampleRate ≤ maxSampleRate ctx)%Z →
  (Nat.even (length data) = false →
     decodeAudioData data ctx sampleRate numChannels = Js.throw Js.RangeError)
  ∧ (Nat.even (length data) = true → 1 ≤ frames → (Z.of_nat frames < 2 ^ 32)%Z →
       ∃ buffer,
         decodeAudioData data ctx sampleRate numChannels = Js.ok buffer
         ∧ buffer_length buffer = frames
         ∧ length (take (frames * numChannels * 2) data) = frames * numChannels * 2
         ∧ decodeAudioData (take (frames * numChannels * 2) data) ctx sampleRate numChannels
           = Js.ok buffer).
Proof.
  intros frames Hnc Hrate. split.
  - intros Hodd. unfold decodeAudioData, Int16Array. by rewrite Hodd.
  - intros Heven Hpos Hsmall.
    pose proof (decodeAudioData_even ctx data sampleRate numChannels) as Hdec.
    cbv zeta in Hdec. fold frames in Hdec.
    eexists. split; [by apply Hdec|]. split; [done|].
    assert (Hcut : length (take (frames * numChannels * 2) data)
                   = frames * numChannels * 2).
    { apply length_take_le. unfold frames.
      pose proof (Nat.Div0.mul_div_le (length data / 2) numChannels).
      pose proof (Nat.Div0.mul_div_le (length data) 2). lia. }
    split; [done|].
    destruct (whole_frames_length frames numChannels) as [Heven' Hframes']; [lia|].
    pose proof (decodeAudioData_even ctx (take (frames * numChannels * 2) data)
                  sampleRate numChannels) as Hdec'.
    cbv zeta in Hdec'. rewrite Hcut, Hframes' in Hdec'.
    rewrite Hdec' by done. by rewrite deinterleaved_take.
Qed.

Lemma decodeAudioData_partial_frame_witness :
  decodeAudioData [x01; x02; x03] (mkAudioContext 32 8000 96000) 24000 1
  = Js.throw Js.RangeError
  ∧ ∃ buffer,
      decodeAudioData [x01; x00; x02; x00; x03; x00] (mkAudioContext 32 8000 96000) 24000 2
      = Js.ok buffer
      ∧ decodeAudioData [x01; x00; x02; x00] (mkAudioContext 32 8000 96000) 24000 2
        = Js.ok buffer.
Proof.
  split.
  - apply (decodeAudioData_partial_frame (mkAudioContext 32 8000 96000)
             [x01; x02; x03] 24000 1); [simpl; lia | simpl; lia | reflexivity].
  - destruct (decodeAudioData_partial_frame (mkAudioContext 32 8000 96000)
                [x01; x00; x02; x00; x03; x00] 24000 2) as [_ Heven];
      [simpl; lia | simpl; lia |].
    destruct Heven as (buffer & Hdec & _ & _ & Hcut);
      [reflexivity | simpl; lia | simpl; lia |].
    exists buffer. split; [exact Hdec | exact Hcut].
Defined.

(** ** Authoring: toggling a correct answer *)

Import CourseBuilder.

(** A traversal whose callback never throws is a plain [map]. *)
Lemma mapM_ok {A B} (f : A → Js.result B) (g : A → B) (l : list A) :
  (∀ x, x ∈ l → f x = Js.ok (g x)) → Js.mapM f l = Js.ok (map g l).
Proof.
  induction l as [|x l IH]; intros Hf; simpl; [done|].
  rewrite (Hf x) by apply list_elem_of_here. simpl.
  rewrite IH; [done|]. intros y Hy. apply Hf. by apply list_elem_of_further.
Qed.

(** A traversal that succeeds called its callback successfully on every
    element. *)
Lemma mapM_inv {A B} (f : A → Js.result B) (l : list A) (l' : list B) :
  Js.mapM f l = Js.ok l' → ∀ x, x ∈ l → ∃ y, f x = Js.ok y.
Proof.
  revert l'. induction l as [|x l IH]; intros l' Hl y Hy.
  - by apply elem_of_nil in Hy.
  - simpl in Hl. destruct (f x) as [e|b] eqn:Hfx; [done|]. simpl in Hl.
    destruct (Js.mapM f l) as [e|bs] eqn:Hm; [done|].
    apply elem_of_cons in Hy as [->|Hy]; [by exists b | by eapply IH].
Qed.

(** The toggle is a symmetric difference with the singleton of the option. *)
Lemma newAnswers_members (currentAnswers : list nat) (oIdx x : nat) :
  x ∈ newAnswers currentAnswers oIdx
  ↔ (x ∈ currentAnswers ∧ x ≠ oIdx) ∨ (x = oIdx ∧ oIdx ∉ currentAnswers).
Proof.
  unfold newAnswers. destruct (Js.includes currentAnswers oIdx) eqn:Hinc.
  - apply includes_spec in Hinc. rewrite list_elem_of_filter. tauto.
  - apply includes_false in Hinc. rewrite elem_of_app, list_elem_of_singleton.
    destruct (decide (x = oIdx)) as [->|Hne]; tauto.
Qed.




(** What one toggle does to a question, a lesson, a module, a course. *)
Definition toggledQuestion (oIdx : nat) (q : QuizQuestion) : QuizQuestion :=
  with_correctAnswers (newAnswers (correctAnswers q) oIdx) q.

Definition toggledLesson (lessonId : string) (qIdx oIdx : nat) (l : Lesson) : Lesson :=
  match bool_decide (lesson_id l = lessonId), lesson_quiz l with
  | true, Some qs => with_quiz (alter (toggledQuestion oIdx) qIdx qs) l
  | _, _ => l
  end.

Definition toggledModule (moduleId lessonId : string) (qIdx oIdx : nat)
    (m : CourseModule) : CourseModule :=
  if bool_decide (module_id m = moduleId)
  then with_lessons (map (toggledLesson lessonId qIdx oIdx) (lessons m)) m
  else m.

Definition toggledCourse (moduleId lessonId : string) (qIdx oIdx : nat)
    (c : Course) : Course :=
  with_modules (map (toggledModule moduleId lessonId qIdx oIdx) (modules c)) c.

(** The question index exists in every quiz the toggle addresses. *)
Definition quiz_index_valid (moduleId lessonId : string) (qIdx : nat) (c : Course) : Prop :=
  ∀ m l qs, m ∈ modules c → module_id m = moduleId →
            l ∈ lessons m → lesson_id l = lessonId →
            lesson_quiz l = Some qs → qIdx < length qs.

Lemma insert_as_alter {A} (g : A → A) (l : list A) (i : nat) (x : A) :
  l !! i = Some x → <[i := g x]> l = alter g i l.
Proof.
  intros Hx. apply list_eq. intros j.
  rewrite list_lookup_insert, list_lookup_alter.
  destruct (decide (i = j)) as [->|Hne].
  - rewrite decide_True by (split; [done | by eapply lookup_lt_Some]).
    by rewrite Hx.
  - by rewrite decide_False by tauto.
Qed.

Lemma toggleQuizAnswer_lesson_ok (lessonId : string) (qIdx oIdx : nat) (l : Lesson) :
  (lesson_id l = lessonId → ∀ qs, lesson_quiz l = Some qs → qIdx < length qs) →
  toggleQuizAnswer_lesson lessonId qIdx oIdx l
  = Js.ok (toggledLesson lessonId qIdx oIdx l).
Proof.
  intros Hvalid. unfold toggleQuizAnswer_lesson, toggledLesson.
  destruct (bool_decide (lesson_id l = lessonId)) eqn:Hid; [|done].
  apply bool_decide_eq_true in Hid.
  destruct (lesson_quiz l) as [qs|] eqn:Hq; [|done].
  destruct (lookup_lt_is_Some_2 qs qIdx (Hvalid Hid qs eq_refl)) as [q Hlook].
  rewrite Hlook. unfold toggledQuestion.
  by rewrite (insert_as_alter (λ q, with_correctAnswers (newAnswers (correctAnswers q) oIdx) q)
                qs qIdx q Hlook).
Qed.

Lemma toggleQuizAnswer_ok (moduleId lessonId : string) (qIdx oIdx : nat) (c : Course) :
  quiz_index_valid moduleId lessonId qIdx c →
  toggleQuizAnswer moduleId lessonId qIdx oIdx (Some c)
  = Js.ok (Some (toggledCourse moduleId lessonId qIdx oIdx c)).
Proof.
  intros Hvalid. unfold toggleQuizAnswer.
  rewrite (mapM_ok _ (toggledModule moduleId lessonId qIdx oIdx)); [done|].
  intros m Hm. unfold toggledModule.
  destruct (bool_decide (module_id m = moduleId)) eqn:Hid; [|done].
  apply bool_decide_eq_true in Hid.
  rewrite (mapM_ok _ (toggledLesson lessonId qIdx oIdx)); [done|].
  intros l Hl. apply toggleQuizAnswer_lesson_ok. intros Hlid qs Hqs.
  by eapply Hvalid.
Qed.

(** The handler succeeds only when the question index exists in every
    quiz it addresses. *)
Lemma toggleQuizAnswer_ok_inv (moduleId lessonId : string) (qIdx oIdx : nat)
    (c : Course) (next : option Course) :
  toggleQuizAnswer moduleId lessonId qIdx oIdx (Some c) = Js.ok next →
  quiz_index_valid moduleId lessonId qIdx c.
Proof.
  unfold toggleQuizAnswer. intros Hok m l qs Hm Hmid Hl Hlid Hqs.
  destruct (Js.mapM _ (modules c)) as [e|ms] eqn:Hms; [done|].
  destruct (mapM_inv _ _ _ Hms m Hm) as [m' Hm'].
  rewrite bool_decide_eq_true_2 in Hm' by done.
  destruct (Js.mapM _ (lessons m)) as [e|ls] eqn:Hls; [done|].
  destruct (mapM_inv _ _ _ Hls l Hl) as [l' Hl'].
  unfold toggleQuizAnswer_lesson in Hl'.
  rewrite bool_decide_eq_true_2, Hqs in Hl' by done.
  destruct (qs !! qIdx) as [q|] eqn:Hq; [|done].
  by eapply lookup_lt_Some.
Qed.
















(** A course with one quiz lesson of one question, correct answers {2, 0}. *)
Definition sampleQuizLesson : Lesson :=
  mkLesson "l1" "Check" "" quiz None None
           (Some [mkQuizQuestion "Which?" ["a"; "b"; "c"] [2; 0]]) None.

Definition sampleCourse : Course :=
  mkCourse "c1" "Course" "" None [mkModule "m1" "Basics" [sampleQuizLesson]] None.

(** Toggling option 2 twice: {2, 0}, then {0}, then {0, 2}: the original
    set in another order. *)
Example toggleQuizAnswer_twice_reorders :
  ∃ c2, (do c1 <- toggleQuizAnswer "m1" "l1" 0 2 (Some sampleCourse);
         toggleQuizAnswer "m1" "l1" 0 2 c1) = Js.ok (Some c2)
        ∧ modules c2
          = [mkModule "m1" "Basics"
               [mkLesson "l1" "Check" "" quiz None None
                  (Some [mkQuizQuestion "Which?" ["a"; "b"; "c"] [0; 2]]) None]].
Proof. eexists. split; vm_compute; reflexivity. Qed.

(** Past the end of the quiz the handler throws and sets nothing. *)
Example toggleQuizAnswer_out_of_range :
  toggleQuizAnswer "m1" "l1" 1 0 (Some sampleCourse) = Js.throw Js.TypeError.
Proof. vm_compute. reflexivity. Qed.


(** ** Authoring: adding a question *)

(** C10. [addQuizQuestion] appends one question, [newQuestion], at the end
    of the quiz of every lesson it addresses, an absent quiz counting as
    empty; the questions already there stay as they are and where they
    are, every other lesson, module and field of the course is unchanged.
    [newQuestion] has two options and the correct answers [0], so it has
    at least two options and every correct index is below their number. *)
Theorem addQuizQuestion_appends (c : Course) (moduleId lessonId : string) :
  ∃ c',
    addQuizQuestion moduleId lessonId (Some c) = Some c'
    ∧ course_id c' = course_id c ∧ course_title c' = course_title c
    ∧ description c' = description c ∧ thumbnail c' = thumbnail c
    ∧ teaserVideoUrl c' = teaserVideoUrl c
    ∧ length (modules c') = length (modules c)
    ∧ (∀ mi m, modules c !! mi = Some m →
         ∃ m',
           modules c' !! mi = Some m'
           ∧ module_id m' = module_id m ∧ module_title m' = module_title m
           ∧ length (lessons m') = length (lessons m)
           ∧ (module_id m ≠ moduleId → m' = m)
           ∧ ∀ li l, lessons m !! li = Some l →
               ∃ l',
                 lessons m' !! li = Some l'
                 ∧ (¬ (module_id m = moduleId ∧ lesson_id l = lessonId) → l' = l)
                 ∧ (module_id m = moduleId → lesson_id l = lessonId →
                      let old := default [] (lesson_quiz l) in
                      l' = with_quiz (old ++ [newQuestion]) l
                      ∧ lesson_quiz l' = Some (old ++ [newQuestion])
                      ∧ length (old ++ [newQuestion]) = S (length old)
                      ∧ (∀ k q, old !! k = Some q → (old ++ [newQuestion]) !! k = Some q)
                      ∧ (old ++ [newQuestion]) !! length old = Some newQuestion))
    ∧ length (options newQuestion) = 2
    ∧ correctAnswers newQuestion = [0]
    ∧ 2 ≤ length (options newQuestion)
    ∧ (∀ a, a ∈ correctAnswers newQuestion → a < length (options newQuestion))
    ∧ addQuizQuestion moduleId lessonId None = None.
Proof.
  eexists. split; [reflexivity|]. simpl.
  split_and!; try done.
  - by rewrite length_map.
  - intros mi m Hm. eexists. change (map ?f ?l) with (f <$> l) at 1.
    rewrite list_lookup_fmap, Hm. simpl. split; [reflexivity|].
    destruct (bool_decide (module_id m = moduleId)) eqn:Hid.
    + apply bool_decide_eq_true in Hid. simpl. split_and!; try done.
      * by rewrite length_map.
      * intros li l Hl. eexists. change (map ?f ?l) with (f <$> l) at 1.
        rewrite list_lookup_fmap, Hl. simpl. split; [reflexivity|].
        destruct (bool_decide (lesson_id l = lessonId)) eqn:Hlid.
        -- apply bool_decide_eq_true in Hlid. split; [tauto|]. intros _ _.
           split_and!; try done.
           ++ rewrite length_app. simpl. lia.
           ++ intros k q Hk. by apply lookup_app_l_Some.
           ++ by rewrite lookup_app_r, Nat.sub_diag.
        -- apply bool_decide_eq_false in Hlid. split; [done|]. congruence.
    + apply bool_decide_eq_false in Hid. split_and!; try done.
      intros li l Hl. exists l. split_and!; try done.
  - intros a Ha. apply list_elem_of_singleton in Ha as ->. simpl. lia.
Qed.

(** ** Per-lesson generation: the in-flight set *)

(** The component state before any generation. *)
Definition idle (c : option Course) : State :=
  {| course := c; loadingStatus := ""; generatingLessonIds := ∅; requests := [] |}.

(** A state in which lesson "l1" is being generated. *)
Definition generating_l1 : State :=
  generateLessonBody "m1" "l1" (idle (Some sampleCourse)).

(** Calling [generateLessonBody] for a lesson that is in flight issues a
    second request for it; and when the first of the two settles, the
    lesson leaves the in-flight set although the second is still pending. *)
Lemma generateLessonBody_in_flight_not_rejected :
  "l1" ∈ generatingLessonIds generating_l1
  ∧ map req_lessonId (requests generating_l1) = ["l1"]
  ∧ map req_lessonId (requests (generateLessonBody "m1" "l1" generating_l1))
    = ["l1"; "l1"]
  ∧ ∃ req,
      requests (generateLessonBody "m1" "l1" generating_l1) !! 0 = Some req
      ∧ let st := generateLessonBody_resume 0 req None
                    (generateLessonBody "m1" "l1" generating_l1) in
        map req_lessonId (requests st) = ["l1"] ∧ "l1" ∉ generatingLessonIds st.
Proof.
  split; [by_evaluation|]. split; [reflexivity|]. split; [reflexivity|].
  eexists. split; [reflexivity|]. split; [reflexivity|]. by_evaluation.
Qed.

Lemma generateLessonBody_found (moduleId lessonId : string) (st : State)
    (c : Course) (lesson : Lesson) :
  course st = Some c → find_lesson c moduleId lessonId = Some lesson →
  generateLessonBody moduleId lessonId st
  = {| course := course st;
       loadingStatus := "AI is crafting: " +:+ lesson_title lesson +:+ "...";
       generatingLessonIds := {[lessonId]} ∪ generatingLessonIds st;
       requests := requests st ++ [mkRequest c moduleId lessonId lesson] |}.
Proof. intros Hc Hl. unfold generateLessonBody. by rewrite Hc, Hl. Qed.

Lemma crafting_status_nonempty (title : string) :
  "AI is crafting: " +:+ title +:+ "..." ≠ "".
Proof. done. Qed.

(** The events that change the component state while generation is
    triggered from the sidebar: a click on a lesson's control, the
    settlement of a pending request, and any edit of the course. *)
Inductive step : State → State → Prop :=
| step_sidebar moduleId lessonId st :
    step st (sidebar_click moduleId lessonId st)
| step_resume k req outcome st :
    requests st !! k = Some req →
    step st (generateLessonBody_resume k req outcome st)
| step_edit c st :
    step st {| course := c; loadingStatus := loadingStatus st;
               generatingLessonIds := generatingLessonIds st;
               requests := requests st |}.

(** While a request is pending a status is displayed, and no second
    request is pending. *)
Definition one_at_a_time (st : State) : Prop :=
  length (requests st) ≤ 1 ∧ (requests st ≠ [] → loadingStatus st ≠ "").

Lemma step_one_at_a_time (st st' : State) :
  step st st' → one_at_a_time st → one_at_a_time st'.
Proof.
  intros Hstep [Hlen Hstatus]. destruct Hstep as [m l st|k req outcome st Hreq|c st].
  - unfold sidebar_click, sidebar_disabled.
    destruct (bool_decide (l ∈ generatingLessonIds st)); simpl; [done|].
    destruct (bool_decide (loadingStatus st = "")) eqn:Hidle; simpl; [|done].
    apply bool_decide_eq_true in Hidle.
    assert (requests st = []) as Hnone.
    { destruct (requests st); [done|]. exfalso. by apply Hstatus. }
    unfold generateLessonBody.
    destruct (course st) as [c|]; [|done].
    destruct (find_lesson c m l); [|done].
    split; simpl; [by rewrite Hnone | intros _; apply crafting_status_nonempty].
  - split; simpl.
    + rewrite length_delete by eauto. lia.
    + intros Hne. exfalso. apply Hne.
      destruct (requests st) as [|r [|r' rs]]; simpl in *; [done| |lia].
      by destruct k.
  - done.
Qed.

Lemma rtc_one_at_a_time (st st' : State) :
  rtc step st st' → one_at_a_time st → one_at_a_time st'.
Proof. induction 1; eauto using step_one_at_a_time. Qed.

(** C3 (as the code has it).  [generateLessonBody] does not consult the
    in-flight set: called for a lesson of the course it adds the lesson to
    the set and issues a request, whether or not the lesson is in flight
    already.  What keeps generations apart is the sidebar control, disabled
    while its lesson is in flight or a status is displayed: a click on it
    then changes nothing, and while generation is triggered from the
    sidebar at most one request is pending.  When a request settles, by
    success or by failure, its lesson is removed from the in-flight set and
    the status is cleared, so the control is enabled again and the next
    click starts a new generation. *)
Theorem generateLessonBody_in_flight
    (st : State) (c : Course) (moduleId lessonId : string) (lesson : Lesson) :
  course st = Some c → find_lesson c moduleId lessonId = Some lesson →
  let st1 := generateLessonBody moduleId lessonId st in
  lessonId ∈ generatingLessonIds st1
  ∧ requests st1 = requests st ++ [mkRequest c moduleId lessonId lesson]
  ∧ (∀ st' m, lessonId ∈ generatingLessonIds st' → sidebar_click m lessonId st' = st')
  ∧ (∀ c0 st', rtc step (idle c0) st' → length (requests st') ≤ 1)
  ∧ (∀ k req outcome st',
       requests st' !! k = Some req →
       let st2 := generateLessonBody_resume k req outcome st' in
       (req_lessonId req ∉ generatingLessonIds st2)
       ∧ loadingStatus st2 = ""
       ∧ requests st2 = delete k (requests st')
       ∧ sidebar_disabled (req_lessonId req) st2 = false
       ∧ ∀ c2 lesson2,
           course st2 = Some c2 →
           find_lesson c2 (req_moduleId req) (req_lessonId req) = Some lesson2 →
           let st3 := sidebar_click (req_moduleId req) (req_lessonId req) st2 in
           req_lessonId req ∈ generatingLessonIds st3
           ∧ requests st3
             = requests st2 ++ [mkRequest c2 (req_moduleId req) (req_lessonId req) lesson2]).
Proof.
  intros Hc Hl st1. unfold st1.
  rewrite (generateLessonBody_found _ _ _ _ _ Hc Hl). simpl. split_and!.
  - by apply elem_of_union_l, elem_of_singleton.
  - done.
  - intros st' m Hin. unfold sidebar_click, sidebar_disabled.
    by rewrite (bool_decide_eq_true_2 _ Hin).
  - intros c0 st' Hreach.
    apply (rtc_one_at_a_time _ _ Hreach). split; simpl; [lia | done].
  - intros k req outcome st' Hreq. simpl.
    assert (Hout : req_lessonId req ∉ generatingLessonIds st' ∖ {[req_lessonId req]})
      by (rewrite elem_of_difference, elem_of_singleton; tauto).
    split_and!; try done.
    + unfold sidebar_disabled. simpl. by rewrite (bool_decide_eq_false_2 _ Hout).
    + intros c2 lesson2 Hc2 Hl2. unfold sidebar_click, sidebar_disabled. simpl.
      rewrite (bool_decide_eq_false_2 _ Hout). simpl.
      rewrite (generateLessonBody_found _ _ _ c2 lesson2) by done. simpl.
      split; [by apply elem_of_union_l, elem_of_singleton | done].
Qed.

Lemma generateLessonBody_in_flight_witness :
  "l1" ∈ generatingLessonIds (generateLessonBody "m1" "l1" generating_l1)
  ∧ length (requests (generateLessonBody "m1" "l1" generating_l1)) = 2.
Proof.
  destruct (generateLessonBody_in_flight generating_l1 sampleCourse "m1" "l1"
              sampleQuizLesson eq_refl eq_refl) as (Hin & Hreqs & _).
  split; [exact Hin|]. rewrite Hreqs. reflexivity.
Defined.

(** ** Generation of an interactive lesson *)

Section Interactive.

Import App.
Variable svc : Service.

(** Every asset request for the steps [todo], the first of which is step
    [i] of the lesson, is answered. *)
Definition assets_available (i : nat) (todo : list LessonStep) : Prop :=
  ∀ j step, todo !! j = Some step →
    is_Some (generateIllustration svc (i + j) (imagePrompt step))
    ∧ is_Some (generateNarration svc (i + j) (explanation step)).

(** One of the asset requests for the steps [todo] is rejected. *)
Definition asset_fails (i : nat) (todo : list LessonStep) : Prop :=
  ∃ j step, todo !! j = Some step
    ∧ (generateIllustration svc (i + j) (imagePrompt step) = None
       ∨ generateNarration svc (i + j) (explanation step) = None).

(** The attempt fails: the structure request or an asset request is
    rejected. *)
Definition generation_fails (topic : string) : Prop :=
  match generateInteractiveLessonStructure svc topic with
  | None => True
  | Some lesson => asset_fails 0 (steps lesson)
  end.

(** What the learner and the library see: everything but the three
    progress indicators. *)
Definition same_content (st st' : State) : Prop :=
  courses st' = courses st ∧ currentView st' = currentView st
  ∧ activeCourse st' = activeCourse st
  ∧ interactiveLesson st' = interactiveLesson st
  ∧ interactiveTopic st' = interactiveTopic st.

Lemma generateAssets_frame (total : nat) (todo : list LessonStep) :
  ∀ i acc st,
    same_content st (generateAssets svc total i todo acc st).1
    ∧ isGeneratingInteractive (generateAssets svc total i todo acc st).1
      = isGeneratingInteractive st.
Proof using Type.
  induction todo as [|step rest IH]; intros i acc st; simpl.
  - by split_and!.
  - destruct (generateIllustration svc i (imagePrompt step)); [|by split_and!].
    destruct (generateNarration svc i (explanation step)); [|by split_and!].
    match goal with
    | |- context [generateAssets svc total ?i' rest ?acc' ?st'] =>
        destruct (IH i' acc' st') as [(H1 & H2 & H3 & H4 & H5) H6]
    end.
    unfold same_content. rewrite H1, H2, H3, H4, H5, H6. by split_and!.
Qed.

Lemma assets_available_tail (i : nat) (step : LessonStep) (rest : list LessonStep) :
  assets_available i (step :: rest) → assets_available (S i) rest.
Proof using Type.
  intros H j s Hs. specialize (H (S j) s Hs).
  by replace (i + S j) with (S i + j) in H by lia.
Qed.

(** The loop when every request is answered: it returns the steps with
    their assets attached, in order, and publishes one progress value per
    step. *)
Lemma generateAssets_complete (total : nat) (todo : list LessonStep) :
  ∀ i acc st,
    assets_available i todo →
    ∃ stepsWithAssets,
      (generateAssets svc total i todo acc st).2 = Js.ok stepsWithAssets
      ∧ published (generateAssets svc total i todo acc st).1
        = published st
          ++ map (λ completed, stepProgress completed total) (seq (S i) (length todo))
      ∧ length stepsWithAssets = length acc + length todo
      ∧ take (length acc) stepsWithAssets = acc
      ∧ ∀ j step, todo !! j = Some step →
          ∃ imageUrl audio,
            generateIllustration svc (i + j) (imagePrompt step) = Some imageUrl
            ∧ generateNarration svc (i + j) (explanation step) = Some audio
            ∧ stepsWithAssets !! (length acc + j) = Some (with_assets imageUrl audio step).
Proof using Type.
  induction todo as [|step rest IH]; intros i acc st Havail; simpl.
  - exists acc. split_and!; try done.
    + by rewrite app_nil_r.
    + by rewrite firstn_all.
  - destruct (Havail 0 step eq_refl) as [[imageUrl Himg] [audio Haudio]].
    rewrite Nat.add_0_r in Himg, Haudio. rewrite Himg, Haudio.
    destruct (IH (S i) (acc ++ [with_assets imageUrl audio step])
                (setGenProgress (stepProgress (i + 1) total)
                   (setGenStatus ("Step " +:+ pretty (i + 1)
                                  +:+ ": Synthesizing voice explanation...")
                      (setGenStatus ("Step " +:+ pretty (i + 1)
                                     +:+ ": Generating illustration...") st)))
                (assets_available_tail _ _ _ Havail))
      as (sw & Hres & Hpub & Hlen & Htake & Hsteps).
    rewrite length_app in Hlen, Htake, Hsteps. simpl in Hlen, Htake, Hsteps.
    exists sw. split_and!.
    + done.
    + rewrite Hpub. simpl. rewrite <- app_assoc. simpl.
      by replace (i + 1) with (S i) by lia.
    + lia.
    + replace (length acc) with (min (length acc) (length acc + 1)) at 1 by lia.
      rewrite <- take_take, Htake. by rewrite take_app_length.
    + intros [|j] s Hs; simpl in Hs.
      * inversion Hs; subst s. exists imageUrl, audio.
        rewrite !Nat.add_0_r. split_and!; try done.
        rewrite <- (lookup_take_lt sw (length acc + 1)) by lia.
        rewrite Htake. by rewrite lookup_app_r, Nat.sub_diag by lia.
      * destruct (Hsteps j s Hs) as (img & aud & H1 & H2 & H3).
        exists img, aud.
        replace (i + S j) with (S i + j) by lia.
        replace (length acc + S j) with (length acc + 1 + j) by lia. done.
Qed.

(** The loop when a request is rejected: an exception. *)
Lemma generateAssets_fails (total : nat) (todo : list LessonStep) :
  ∀ i acc st,
    asset_fails i todo →
    (generateAssets svc total i todo acc st).2 = Js.throw Js.ServiceError.
Proof using Type.
  induction todo as [|step rest IH]; intros i acc st (j & s & Hs & Hfail).
  - by rewrite lookup_nil in Hs.
  - simpl. destruct j as [|j]; simpl in Hs.
    + inversion Hs; subst s. rewrite Nat.add_0_r in Hfail.
      destruct (generateIllustration svc i (imagePrompt step)); [|done].
      destruct (generateNarration svc i (explanation step)); [|done].
      by destruct Hfail.
    + destruct (generateIllustration svc i (imagePrompt step)); [|done].
      destruct (generateNarration svc i (explanation step)); [|done].
      apply IH. exists j, s. split; [done|].
      by replace (S i + j) with (i + S j) by lia.
Qed.

End Interactive.

(** *** The value after the last step

    In exact arithmetic [40 + n * (60 / n)] is 100 for every step count.
    In binary64 arithmetic [n * (60 / n)] need not be 60 (it is not for 11
    steps), yet adding 40 rounds to 100: this is checked by evaluation for
    every step count up to 2^20. *)

Lemma progress_formula_exact (n : Z) :
  (1 ≤ n)%Z → (40 + inject_Z n * (60 / inject_Z n) == 100)%Q.
Proof.
  intros Hn. field. intros H. unfold Qeq in H. simpl in H. lia.
Qed.

(** The progress value after the last of [z] steps. *)
Definition finalProgress (z : Z) : float :=
  (40 + PrimFloat.of_uint63 (Uint63.of_Z z)
        * (60 / PrimFloat.of_uint63 (Uint63.of_Z z)))%float.

(** Tests the step counts [1, 2, ..., count]; the first component is the
    next step count to test. *)
Definition sweep (count : positive) : Z * bool :=
  Pos.iter (λ '(z, ok), (Z.succ z, ok && PrimFloat.eqb (finalProgress z) 100))
           (1%Z, true) count.

Lemma sweep_spec (count : positive) :
  (sweep count).1 = (1 + Z.pos count)%Z
  ∧ ((sweep count).2 = true →
     ∀ z, (1 ≤ z ≤ Z.pos count)%Z → PrimFloat.eqb (finalProgress z) 100 = true).
Proof.
  unfold sweep. induction count as [|count [IHz IHok]] using Pos.peano_ind.
  - simpl. split; [done|]. intros Hok z Hz. by replace z with 1%Z by lia.
  - rewrite Pos.iter_succ.
    destruct (Pos.iter _ (1%Z, true) count) as [z0 ok] eqn:Hiter.
    simpl in *. subst z0. split; [lia|].
    intros [Hok Hlast]%andb_true_iff z Hz.
    destruct (decide (z = 1 + Z.pos count)%Z) as [->|Hne]; [done|].
    apply IHok; [done | lia].
Qed.

Lemma sweep_checked : (sweep 1048576).2 = true.
Proof. vm_compute. reflexivity. Qed.

Lemma stepProgress_final (total : nat) :
  1 ≤ total → (Z.of_nat total ≤ 1048576)%Z →
  PrimFloat.eqb (App.stepProgress total total) 100 = true.
Proof.
  intros Hpos Hbound.
  apply (proj2 (sweep_spec 1048576) sweep_checked (Z.of_nat total)). lia.
Qed.

Example stepProgress_rounding :
  PrimFloat.eqb (App.number 11 * (60 / App.number 11)) 60 = false
  ∧ PrimFloat.eqb (App.stepProgress 11 11) 100 = true.
Proof. split; vm_compute; reflexivity. Qed.

Lemma startInteractiveGeneration_unfold (svc : App.Service) (st : App.State) :
  App.interactiveTopic st ≠ "" →
  App.startInteractiveGeneration svc st
  = App.setGenStatus ""
      (App.setGenProgress 0
         (App.setIsGeneratingInteractive false
            (App.tryGeneration svc
               (App.setGenStatus "Brainstorming sequence..."
                  (App.setGenProgress 10
                     (App.setIsGeneratingInteractive true st)))).1)).
Proof.
  intros Htopic. unfold App.startInteractiveGeneration.
  rewrite bool_decide_eq_false_2 by done.
  by destruct (App.tryGeneration _ _).
Qed.

(** C4. Progress of an interactive generation in which every request is
    answered.  The values passed to [setGenProgress] are, in order: 10
    when the structure request is issued, 40 when the structure has
    arrived, [40 + completed * (60 / totalSteps)] after the assets of each
    step, and 0 when the [finally] block resets the indicator.  The value
    after the last step is 100 (in binary64 arithmetic, for every step
    count from 1 to 2^20); for three steps the values after the steps are
    60, 80, 100.  The generated lesson is then shown. *)
Theorem interactive_progress
    (svc : App.Service) (st : App.State) (lesson : InteractiveLesson) :
  App.interactiveTopic st ≠ "" →
  App.generateInteractiveLessonStructure svc (App.interactiveTopic st) = Some lesson →
  assets_available svc 0 (steps lesson) →
  let total := length (steps lesson) in
  let st' := App.startInteractiveGeneration svc st in
  App.published st'
  = App.published st
    ++ [10%float; 40%float]
    ++ map (λ completed, App.stepProgress completed total) (seq 1 total)
    ++ [0%float]
  ∧ (∀ completed,
       App.stepProgress completed total
       = (40 + App.number completed * (60 / App.number total))%float)
  ∧ (1 ≤ total → (Z.of_nat total ≤ 1048576)%Z →
       PrimFloat.eqb (App.stepProgress total total) 100 = true)
  ∧ (total = 3 →
       map (λ completed, App.stepProgress completed total) (seq 1 total)
       = [60%float; 80%float; 100%float])
  ∧ ∃ stepsWithAssets,
      App.interactiveLesson st'
      = Some (mkInteractiveLesson (il_id lesson) (topic lesson) stepsWithAssets
                                  (il_quiz lesson))
      ∧ length stepsWithAssets = total
      ∧ App.currentView st' = App.interactive_play.
Proof.
  intros Htopic Hstructure Havail total st'. unfold st'.
  rewrite startInteractiveGeneration_unfold by done.
  unfold App.tryGeneration. simpl App.interactiveTopic. rewrite Hstructure.
  match goal with
  | |- context [App.generateAssets svc ?t 0 ?todo [] ?s] =>
      destruct (generateAssets_complete svc t todo 0 [] s Havail)
        as (sw & Hres & Hpub & Hlen & _);
      destruct (App.generateAssets svc t 0 todo [] s) as [st1 r] eqn:Hrun
  end.
  simpl in Hres, Hpub, Hlen. subst r. simpl.
  split_and!.
  - rewrite Hpub. fold total. rewrite <- !app_assoc. reflexivity.
  - done.
  - apply stepProgress_final.
  - intros ->. reflexivity.
  - exists sw. by split_and!.
Qed.

(** A lesson of three steps, a service that answers every request, and one
    whose narration request for the second step is rejected. *)
Definition sampleStep (n : string) : LessonStep :=
  mkLessonStep n ("Step " +:+ n) "Explanation" ["a"; "b"; "c"] "A drawing" None None.

Definition sampleLesson : InteractiveLesson :=
  mkInteractiveLesson "i1" "Triangles"
    [sampleStep "1"; sampleStep "2"; sampleStep "3"]
    [mkQuizQuestion "How many sides?" ["2"; "3"] [1]].

Definition reliable : App.Service :=
  {| App.generateInteractiveLessonStructure := λ _, Some sampleLesson;
     App.generateIllustration := λ _ _, Some "data:image/png;base64,AAAA";
     App.generateNarration := λ _ _, Some "AAD/fw==" |}.

Definition flaky : App.Service :=
  {| App.generateInteractiveLessonStructure := λ _, Some sampleLesson;
     App.generateIllustration := λ _ _, Some "data:image/png;base64,AAAA";
     App.generateNarration := λ i _, if i =? 1 then None else Some "AAD/fw==" |}.

Definition ready : App.State :=
  {| App.courses := []; App.currentView := App.dashboard; App.activeCourse := None;
     App.interactiveLesson := None; App.isGeneratingInteractive := false;
     App.interactiveTopic := "Triangles"; App.genProgress := 0%float;
     App.genStatus := ""; App.published := [] |}.

Lemma interactive_progress_witness :
  App.published (App.startInteractiveGeneration reliable ready)
  = [10%float; 40%float; 60%float; 80%float; 100%float; 0%float].
Proof.
  assert (Havail : assets_available reliable 0 (steps sampleLesson)).
  { intros j step _. split; by eexists. }
  destruct (interactive_progress reliable ready sampleLesson)
    as (Hpub & _ & _ & Hthree & _); [done | reflexivity | exact Havail |].
  rewrite Hpub, (Hthree eq_refl). reflexivity.
Defined.

(** ** Failed generations *)

(** When a request of the flaky service is rejected after the first step,
    the progress values 10, 40 and 60 were published, and nothing else
    changed. *)
Example startInteractiveGeneration_flaky :
  App.startInteractiveGeneration flaky ready
  = {| App.courses := []; App.currentView := App.dashboard; App.activeCourse := None;
       App.interactiveLesson := None; App.isGeneratingInteractive := false;
       App.interactiveTopic := "Triangles"; App.genProgress := 0%float;
       App.genStatus := "";
       App.published := [10%float; 40%float; 60%float; 0%float] |}.
Proof. vm_compute. reflexivity. Qed.

(** C5. A failed generation leaves the content as it was before the
    attempt.  Course mode: neither the call of [generateLessonBody] nor the
    settlement of its request by a failure changes the course, so every
    lesson keeps the payload it had.  Interactive mode: when the structure
    request or any asset request is rejected, the displayed view, the
    interactive lesson, the library and the topic are those before the
    attempt: no partly generated lesson is shown; only the progress
    indicators were moved, and they are reset. *)
Theorem failed_generation_keeps_content :
  (∀ moduleId lessonId st,
     course (generateLessonBody moduleId lessonId st) = course st)
  ∧ (∀ k req st, course (generateLessonBody_resume k req None st) = course st)
  ∧ (∀ moduleId lessonId st k req,
       requests (generateLessonBody moduleId lessonId st) !! k = Some req →
       course (generateLessonBody_resume k req None
                 (generateLessonBody moduleId lessonId st)) = course st)
  ∧ (∀ svc st,
       generation_fails svc (App.interactiveTopic st) →
       let st' := App.startInteractiveGeneration svc st in
       same_content st st'
       ∧ (App.interactiveTopic st ≠ "" →
            App.isGeneratingInteractive st' = false
            ∧ App.genProgress st' = 0%float ∧ App.genStatus st' = "")).
Proof.
  assert (Hstart : ∀ moduleId lessonId st,
            course (generateLessonBody moduleId lessonId st) = course st).
  { intros moduleId lessonId st. unfold generateLessonBody.
    destruct (course st) as [c|] eqn:Hc; [|done].
    by destruct (find_lesson c moduleId lessonId). }
  split_and!; try done.
  - intros moduleId lessonId st k req _. simpl. apply Hstart.
  - intros svc st Hfail st'. unfold st'.
    destruct (decide (App.interactiveTopic st = "")) as [Hempty|Htopic].
    { unfold App.startInteractiveGeneration.
      rewrite bool_decide_eq_true_2 by done. by split_and!. }
    rewrite startInteractiveGeneration_unfold by done.
    unfold generation_fails in Hfail. unfold App.tryGeneration.
    simpl App.interactiveTopic.
    destruct (App.generateInteractiveLessonStructure svc (App.interactiveTopic st))
      as [lesson|]; [|by split_and!].
    match goal with
    | |- context [App.generateAssets svc ?t 0 ?todo [] ?s] =>
        pose proof (generateAssets_fails svc t todo 0 [] s Hfail) as Hres;
        destruct (generateAssets_frame svc t todo 0 [] s)
          as [(H1 & H2 & H3 & H4 & H5) H6];
        destruct (App.generateAssets svc t 0 todo [] s) as [st1 r] eqn:Hrun
    end.
    simpl in *. subst r. simpl. by split_and!.
Qed.

Lemma failed_generation_keeps_content_witness :
  same_content ready (App.startInteractiveGeneration flaky ready)
  ∧ course (generateLessonBody_resume 0
              (mkRequest sampleCourse "m1" "l1" sampleQuizLesson) None generating_l1)
    = Some sampleCourse.
Proof.
  destruct failed_generation_keeps_content as (_ & Hcourse & _ & Hinteractive).
  split.
  - apply Hinteractive. exists 1, (sampleStep "2"). split; [reflexivity|].
    right. reflexivity.
  - rewrite Hcourse. reflexivity.
Defined.

(** ** Narration playback: one source at a time *)

Section Playback.

Import InteractivePlayer.

(** Every sounding source is the one the component holds in
    [audioSourceRef]. *)
Definition exclusive (st : Playback) : Prop :=
  ∀ s, s ∈ playing st → audioSourceRef st = Some s.

Lemma exclusive_size (st : Playback) : exclusive st → size (playing st) ≤ 1.
Proof.
  intros Hex. destruct (audioSourceRef st) as [s0|] eqn:Href.
  - rewrite <- (size_singleton (C := gset nat) s0). apply subseteq_size.
    intros s Hs. apply elem_of_singleton.
    specialize (Hex s Hs). congruence.
  - rewrite (proj2 (size_empty_iff (playing st))); [lia|].
    intros s. split; [|by intros ?%not_elem_of_empty].
    intros Hs. specialize (Hex s Hs). congruence.
Qed.

Lemma exclusive_initial : exclusive initial.
Proof. intros s Hs. by apply not_elem_of_empty in Hs. Qed.

(** After [stopAudio] nothing sounds and no source is held. *)
Lemma stopAudio_silent (st : Playback) :
  exclusive st →
  playing (stopAudio st) = ∅ ∧ audioSourceRef (stopAudio st) = None.
Proof.
  intros Hex. unfold stopAudio.
  destruct (audioSourceRef st) as [s0|] eqn:Href; simpl.
  - split; [|done]. apply leibniz_equiv, elem_of_equiv_empty. intros s.
    rewrite elem_of_difference, elem_of_singleton. intros [Hs Hne].
    specialize (Hex s Hs). congruence.
  - split; [|done]. apply leibniz_equiv, elem_of_equiv_empty. intros s Hs.
    specialize (Hex s Hs). congruence.
Qed.

Lemma stopAudio_exclusive (st : Playback) : exclusive st → exclusive (stopAudio st).
Proof.
  intros Hex s Hs. rewrite (proj1 (stopAudio_silent st Hex)) in Hs.
  by apply not_elem_of_empty in Hs.
Qed.

Lemma setIsPlaying_exclusive (b : bool) (st : Playback) :
  exclusive st → exclusive (setIsPlaying b st).
Proof. done. Qed.

Lemma startSource_after_stop (st : Playback) :
  exclusive st →
  playing (startSource (stopAudio st)) = {[created st]}
  ∧ audioSourceRef (startSource (stopAudio st)) = Some (created st).
Proof.
  intros Hex. unfold startSource. simpl.
  rewrite (proj1 (stopAudio_silent st Hex)).
  assert (created (stopAudio st) = created st) as ->.
  { unfold stopAudio. by destruct (audioSourceRef st). }
  split; [|done]. apply (right_id_L ∅ (∪)).
Qed.

Lemma handle_exclusive (st : Playback) (e : Event) :
  exclusive st → exclusive (handle st e).
Proof.
  intros Hex. destruct e as [rendered platform audioData|buffer|source| |]; simpl.
  - unfold toggleAudio. destruct rendered.
    + by apply setIsPlaying_exclusive, stopAudio_exclusive.
    + by destruct (falsy audioData).
  - unfold toggleAudio_resume. destruct (decoding st) as [|pending]; [done|].
    destruct buffer as [err|buffer]; [done|].
    destruct (startSource_after_stop st Hex) as [Hplaying Href].
    intros s Hs. simpl in *. rewrite Hplaying in Hs.
    apply elem_of_singleton in Hs as ->. exact Href.
  - unfold onended. destruct (bool_decide _); [|done].
    intros s Hs. simpl in *. apply elem_of_difference in Hs as [Hs _]. by apply Hex.
  - unfold stepChanged.
    by apply stopAudio_exclusive, setIsPlaying_exclusive, stopAudio_exclusive.
  - by apply stopAudio_exclusive.
Qed.

Lemma run_exclusive (events : list Event) : exclusive (run events).
Proof.
  unfold run. induction events as [|e events IH] using rev_ind.
  - apply exclusive_initial.
  - rewrite foldl_app. simpl. by apply handle_exclusive.
Qed.

End Playback.

(** C8. The playback controller of the interactive player.  After every
    sequence of events (clicks on the play control, decodings that finish
    or fail, sources that end, step changes, unmounting) at most one audio
    source is sounding, and it is the one held in [audioSourceRef].  When
    a decoded clip is about to start, [stopAudio] runs first and leaves no
    source sounding and none held; the new source is then the only one.
    [stopAudio] with no source held changes nothing, and when nothing
    sounds it stops nothing and raises nothing. *)
Theorem playback_exclusive (events : list InteractivePlayer.Event) :
  let st := InteractivePlayer.run events in
  size (InteractivePlayer.playing st) ≤ 1
  ∧ (∀ s, s ∈ InteractivePlayer.playing st → InteractivePlayer.audioSourceRef st = Some s)
  ∧ (∀ buffer pending,
       InteractivePlayer.decoding st = S pending →
       let stopped := InteractivePlayer.stopAudio st in
       let st' := InteractivePlayer.toggleAudio_resume (Js.ok buffer) st in
       InteractivePlayer.playing stopped = ∅
       ∧ InteractivePlayer.audioSourceRef stopped = None
       ∧ InteractivePlayer.playing st' = {[InteractivePlayer.created st]}
       ∧ InteractivePlayer.audioSourceRef st' = Some (InteractivePlayer.created st)
       ∧ InteractivePlayer.isPlaying st' = true
       ∧ size (InteractivePlayer.playing st') = 1)
  ∧ (InteractivePlayer.audioSourceRef st = None → InteractivePlayer.stopAudio st = st)
  ∧ (InteractivePlayer.playing st = ∅ →
       InteractivePlayer.playing (InteractivePlayer.stopAudio st) = ∅
       ∧ InteractivePlayer.stopped (InteractivePlayer.stopAudio st)
         = InteractivePlayer.stopped st
       ∧ InteractivePlayer.isPlaying (InteractivePlayer.stopAudio st)
         = InteractivePlayer.isPlaying st).
Proof.
  intros st. pose proof (run_exclusive events) as Hex. fold st in Hex.
  split_and!.
  - by apply exclusive_size.
  - exact Hex.
  - intros buffer pending Hpending stopped st'.
    destruct (stopAudio_silent st Hex) as [Hsilent Hnone].
    destruct (startSource_after_stop st Hex) as [Hplaying Href].
    unfold st', InteractivePlayer.toggleAudio_resume. rewrite Hpending.
    split_and!; [exact Hsilent | exact Hnone | exact Hplaying | exact Href | done |].
    change (size (InteractivePlayer.playing
                    (InteractivePlayer.startSource (InteractivePlayer.stopAudio st))) = 1).
    rewrite Hplaying. apply size_singleton.
  - intros Hnone. unfold InteractivePlayer.stopAudio. by rewrite Hnone.
  - intros Hsilent. unfold InteractivePlayer.stopAudio.
    destruct (InteractivePlayer.audioSourceRef st) as [s0|]; simpl; [|done].
    rewrite Hsilent, bool_decide_eq_false_2 by apply not_elem_of_empty.
    split_and!; [apply empty_difference_L | done | done].
Qed.

(** Two clicks before the first decoding has finished: the second clip
    stops the first, and one source sounds. *)
Example playback_two_clicks :
  let platform := mkAudioContext 32 8000 96000 in
  let buffer := mkAudioBuffer 1 1 24000 [[Num 0]] in
  let st := InteractivePlayer.run
              [InteractivePlayer.ToggleAudio false platform (Some "AAA=");
               InteractivePlayer.ToggleAudio false platform (Some "AAA=");
               InteractivePlayer.Decoded (Js.ok buffer);
               InteractivePlayer.Decoded (Js.ok buffer)] in
  InteractivePlayer.playing st = {[1]}
  ∧ InteractivePlayer.stopped st = {[0]}
  ∧ InteractivePlayer.audioSourceRef st = Some 1.
Proof. split_and!; by_evaluation || reflexivity. Qed.

(** * Further properties of the authoring handlers *)

(** ** The traversal shared by the edit handlers *)

Lemma find_map_preserved {A} (p : A → bool) (f : A → A) (l : list A) :
  (∀ x, p (f x) = p x) → List.find p (map f l) = f <$> List.find p l.
Proof.
  intros Hp. induction l as [|x l IH]; simpl; [done|].
  rewrite Hp. by destruct (p x).
Qed.

Lemma with_lessons_same (m : CourseModule) : with_lessons (lessons m) m = m.
Proof. by destruct m. Qed.

Lemma with_modules_same (c : Course) : with_modules (modules c) c = c.
Proof. by destruct c. Qed.

Lemma map_pointwise_id {A} (f : A → A) (l : list A) :
  (∀ x, x ∈ l → f x = x) → map f l = l.
Proof.
  induction l as [|x l IH]; intros Hf; simpl; [done|].
  rewrite (Hf x) by apply list_elem_of_here. f_equal.
  apply IH. intros y Hy. by apply Hf, list_elem_of_further.
Qed.

(** The modules and lessons keep their number, order and ids. *)
Lemma editLessons_shape (moduleId lessonId : string) (f : Lesson → Lesson) (c : Course) :
  (∀ l, lesson_id (f l) = lesson_id l) →
  map module_id (modules (editLessons moduleId lessonId f c)) = map module_id (modules c)
  ∧ ∀ i m, modules c !! i = Some m →
      ∃ m', modules (editLessons moduleId lessonId f c) !! i = Some m'
            ∧ module_title m' = module_title m
            ∧ map lesson_id (lessons m') = map lesson_id (lessons m).
Proof.
  intros Hid. unfold editLessons. simpl. split.
  - rewrite map_map. apply map_ext. intros m. by destruct (bool_decide _).
  - intros i m Hm. eexists. change (map ?g ?l) with (g <$> l) at 1.
    rewrite list_lookup_fmap, Hm. simpl. split; [reflexivity|].
    destruct (bool_decide (module_id m = moduleId)); [|done]. simpl. split; [done|].
    rewrite map_map. apply map_ext. intros l.
    by destruct (bool_decide (lesson_id l = lessonId)).
Qed.

(** The lesson shown for the edited path is the old one with the edit
    applied. *)
Lemma editLessons_find (moduleId lessonId : string) (f : Lesson → Lesson) (c : Course) :
  (∀ l, lesson_id (f l) = lesson_id l) →
  find_lesson (editLessons moduleId lessonId f c) moduleId lessonId
  = f <$> find_lesson c moduleId lessonId.
Proof.
  intros Hid. unfold find_lesson, editLessons. simpl.
  rewrite find_map_preserved by
    (intros m; destruct (bool_decide (module_id m = moduleId)) eqn:E; simpl; by rewrite ?E).
  destruct (List.find _ (modules c)) as [m|] eqn:Hm; [|done]. simpl.
  apply find_some in Hm as [_ Hm]. rewrite Hm. simpl.
  rewrite find_map_preserved.
  - destruct (List.find _ (lessons m)) as [l|] eqn:Hl; [|done]. simpl.
    apply find_some in Hl as [_ Hl]. by rewrite Hl.
  - intros l. destruct (bool_decide (lesson_id l = lessonId)) eqn:E; by rewrite ?Hid, ?E.
Qed.

(** The lesson shown for any other path is the old one. *)
Lemma editLessons_find_other (moduleId lessonId : string) (f : Lesson → Lesson)
    (c : Course) (moduleId' lessonId' : string) :
  (∀ l, lesson_id (f l) = lesson_id l) →
  moduleId' ≠ moduleId ∨ lessonId' ≠ lessonId →
  find_lesson (editLessons moduleId lessonId f c) moduleId' lessonId'
  = find_lesson c moduleId' lessonId'.
Proof.
  intros Hid Hother. unfold find_lesson, editLessons. simpl.
  rewrite find_map_preserved by
    (intros m; destruct (bool_decide (module_id m = moduleId)) eqn:E; simpl; by rewrite ?E).
  destruct (List.find _ (modules c)) as [m|] eqn:Hm; [|done]. simpl.
  destruct (bool_decide (module_id m = moduleId)) eqn:Hmid; [|done]. simpl.
  rewrite find_map_preserved.
  - destruct (List.find _ (lessons m)) as [l|] eqn:Hl; [|done]. simpl.
    apply find_some in Hm as [_ Hm]. apply find_some in Hl as [_ Hl].
    apply bool_decide_eq_true in Hm, Hmid, Hl.
    rewrite bool_decide_eq_false_2; [done|]. intros Heq.
    destruct Hother; congruence.
  - intros l. destruct (bool_decide (lesson_id l = lessonId)) eqn:E; by rewrite ?Hid, ?E.
Qed.

(** Two edits of the same path compose into one. *)
Lemma editLessons_compose (moduleId lessonId : string) (f g : Lesson → Lesson)
    (c : Course) :
  (∀ l, lesson_id (g l) = lesson_id l) →
  editLessons moduleId lessonId f (editLessons moduleId lessonId g c)
  = editLessons moduleId lessonId (f ∘ g) c.
Proof.
  intros Hid. unfold editLessons, with_modules. simpl. f_equal. rewrite map_map.
  apply map_ext. intros m.
  destruct (bool_decide (module_id m = moduleId)) eqn:Hm; simpl; rewrite Hm; [|done].
  unfold with_lessons. simpl. f_equal. rewrite map_map. apply map_ext. intros l.
  destruct (bool_decide (lesson_id l = lessonId)) eqn:Hl; simpl.
  - by rewrite Hid, Hl.
  - by rewrite Hl.
Qed.

Lemma editLessons_ext (moduleId lessonId : string) (f g : Lesson → Lesson) (c : Course) :
  (∀ m l, m ∈ modules c → module_id m = moduleId →
          l ∈ lessons m → lesson_id l = lessonId → f l = g l) →
  editLessons moduleId lessonId f c = editLessons moduleId lessonId g c.
Proof.
  intros Hfg. unfold editLessons. f_equal.
  apply map_ext_in. intros m Hm%list_elem_of_In.
  destruct (bool_decide (module_id m = moduleId)) eqn:Hmid; [|done].
  apply bool_decide_eq_true in Hmid. f_equal.
  apply map_ext_in. intros l Hl%list_elem_of_In.
  destruct (bool_decide (lesson_id l = lessonId)) eqn:Hlid; [|done].
  apply bool_decide_eq_true in Hlid. by eapply Hfg.
Qed.

(** An edit that changes none of the lessons it addresses changes nothing. *)
Lemma editLessons_unchanged (moduleId lessonId : string) (f : Lesson → Lesson) (c : Course) :
  (∀ m l, m ∈ modules c → module_id m = moduleId →
          l ∈ lessons m → lesson_id l = lessonId → f l = l) →
  editLessons moduleId lessonId f c = c.
Proof.
  intros Hf. unfold editLessons. rewrite map_pointwise_id; [apply with_modules_same|].
  intros m Hm. destruct (bool_decide (module_id m = moduleId)) eqn:Hmid; [|done].
  apply bool_decide_eq_true in Hmid.
  rewrite map_pointwise_id; [apply with_lessons_same|].
  intros l Hl. destruct (bool_decide (lesson_id l = lessonId)) eqn:Hlid; [|done].
  apply bool_decide_eq_true in Hlid. by eapply Hf.
Qed.

(** ** Array callbacks that test the position *)

Lemma filter_from_ext {A} (p q : A → nat → bool) (l : list A) (idx : nat) :
  (∀ x i, idx ≤ i → p x i = q x i) →
  Js.filter_from p idx l = Js.filter_from q idx l.
Proof.
  revert idx. induction l as [|x l IH]; intros idx Hpq; simpl; [done|].
  rewrite (Hpq x idx) by lia. rewrite (IH (S idx)) by (intros; apply Hpq; lia).
  done.
Qed.

Lemma filter_from_all {A} (p : A → nat → bool) (l : list A) (idx : nat) :
  (∀ x i, idx ≤ i → p x i = true) → Js.filter_from p idx l = l.
Proof.
  revert idx. induction l as [|x l IH]; intros idx Hp; simpl; [done|].
  rewrite (Hp x idx) by lia. f_equal. apply IH. intros. apply Hp. lia.
Qed.

(** Filtering out one position deletes the element there, if any. *)
Lemma filter_index_delete {A} (l : list A) (k : nat) :
  Js.filter_index (λ _ i, negb (i =? k)) l = delete k l.
Proof.
  unfold Js.filter_index.
  assert (H : ∀ idx, Js.filter_from (λ _ i, negb (i =? idx + k)) idx l = delete k l);
    [|apply (H 0)].
  revert k. induction l as [|x l IH]; intros k idx; simpl; [by destruct k|].
  destruct k as [|k]; simpl.
  - rewrite Nat.add_0_r, Nat.eqb_refl. simpl. apply filter_from_all.
    intros _ i Hi. apply negb_true_iff, Nat.eqb_neq. lia.
  - rewrite (proj2 (Nat.eqb_neq idx (idx + S k))) by lia. simpl. f_equal.
    rewrite <- (IH k (S idx)). apply filter_from_ext.
    intros _ i _. by replace (idx + S k) with (S idx + k) by lia.
Qed.

(** Mapping one position is [alter]. *)
Lemma imap_at {A} (g : A → A) (k : nat) (l : list A) :
  imap (λ i x, if i =? k then g x else x) l = alter g k l.
Proof.
  revert k. induction l as [|x l IH]; intros k; simpl; [done|].
  destruct k as [|k]; simpl.
  - f_equal. etrans; [|apply (list_fmap_id l)].
    etrans; [|apply imap_const]. by apply imap_ext.
  - f_equal. etrans; [|apply IH]. by apply imap_ext.
Qed.

Lemma alter_out_of_range {A} (g : A → A) (k : nat) (l : list A) :
  length l ≤ k → alter g k l = l.
Proof.
  intros Hk. apply list_eq. intros i. rewrite list_lookup_alter.
  destruct (decide (k = i)) as [->|]; [|done].
  by rewrite (lookup_ge_None_2 l i).
Qed.

Lemma with_quiz_of_same (f : list QuizQuestion → list QuizQuestion) (l : Lesson) :
  (∀ qs, lesson_quiz l = Some qs → f qs = qs) → with_quiz_of f l = l.
Proof.
  intros Hf. destruct l as [i t c ty v im q d]. unfold with_quiz_of. simpl in *.
  f_equal. destruct q as [qs|]; [|done]. simpl. by rewrite Hf.
Qed.

(** ** One question of one lesson *)

(** The three handlers that edit a question apply a function to the
    question at one position of the addressed quiz. *)
Definition editQuestion (moduleId lessonId : string) (qIdx : nat)
    (g : QuizQuestion → QuizQuestion) (c : Course) : Course :=
  editLessons moduleId lessonId (with_quiz_of (alter g qIdx)) c.

Lemma updateQuizQuestionText_edit (moduleId lessonId : string) (qIdx : nat)
    (text : string) (c : Course) :
  updateQuizQuestionText moduleId lessonId qIdx text (Some c)
  = Some (editQuestion moduleId lessonId qIdx (with_question text) c).
Proof.
  unfold updateQuizQuestionText, editQuestion. simpl. f_equal.
  apply editLessons_ext. intros _ l _ _ _ _. unfold with_quiz_of. f_equal.
  destruct (lesson_quiz l); [|done]. simpl. f_equal. apply imap_at.
Qed.

Lemma options_updated (oIdx : nat) (text : string) (opts : list string) :
  imap (λ oi opt, if oi =? oIdx then text else opt) opts = <[oIdx := text]> opts.
Proof.
  rewrite (imap_at (λ _, text)). apply list_eq. intros i.
  rewrite list_lookup_alter, list_lookup_insert.
  destruct (decide (oIdx = i)) as [->|].
  - destruct (opts !! i) eqn:E.
    + rewrite decide_True; [done|]. split; [done | by eapply lookup_lt_Some].
    + rewrite decide_False; [done|]. intros [_ H%lookup_lt_is_Some].
      rewrite E in H. by destruct H.
  - rewrite decide_False by tauto. done.
Qed.

Lemma updateOptionText_edit (moduleId lessonId : string) (qIdx oIdx : nat)
    (text : string) (c : Course) :
  updateOptionText moduleId lessonId qIdx oIdx text (Some c)
  = Some (editQuestion moduleId lessonId qIdx
            (λ q, with_options (<[oIdx := text]> (options q)) q) c).
Proof.
  unfold updateOptionText, editQuestion. simpl. f_equal.
  apply editLessons_ext. intros _ l _ _ _ _. unfold with_quiz_of. f_equal.
  destruct (lesson_quiz l) as [qs|]; [|done]. simpl. f_equal.
  rewrite <- imap_at. apply imap_ext. intros i q _. simpl.
  destruct (i =? qIdx); [|done]. by rewrite options_updated.
Qed.

Lemma addOption_edit (moduleId lessonId : string) (qIdx : nat) (c : Course) :
  addOption moduleId lessonId qIdx (Some c)
  = Some (editQuestion moduleId lessonId qIdx
            (λ q, with_options (options q ++ ["New Option"]) q) c).
Proof.
  unfold addOption, editQuestion. simpl. f_equal.
  apply editLessons_ext. intros _ l _ _ _ _. unfold with_quiz_of. f_equal.
  destruct (lesson_quiz l); [|done]. simpl. f_equal. apply imap_at.
Qed.

Lemma deleteQuizQuestion_edit (moduleId lessonId : string) (qIdx : nat) (c : Course) :
  deleteQuizQuestion moduleId lessonId qIdx (Some c)
  = Some (editLessons moduleId lessonId (with_quiz_of (delete qIdx)) c).
Proof.
  unfold deleteQuizQuestion. simpl. f_equal.
  apply editLessons_ext. intros _ l _ _ _ _. unfold with_quiz_of. f_equal.
  destruct (lesson_quiz l); [|done]. simpl. f_equal. apply filter_index_delete.
Qed.

(** No quiz addressed by the path has a question at [qIdx]. *)
Definition question_absent (moduleId lessonId : string) (qIdx : nat) (c : Course) : Prop :=
  ∀ m l qs, m ∈ modules c → module_id m = moduleId →
            l ∈ lessons m → lesson_id l = lessonId →
            lesson_quiz l = Some qs → length qs ≤ qIdx.

Lemma editQuestion_absent (moduleId lessonId : string) (qIdx : nat)
    (g : QuizQuestion → QuizQuestion) (c : Course) :
  question_absent moduleId lessonId qIdx c →
  editQuestion moduleId lessonId qIdx g c = c.
Proof.
  intros Habsent. apply editLessons_unchanged. intros m l Hm Hmid Hl Hlid.
  apply with_quiz_of_same. intros qs Hqs. apply alter_out_of_range. by eapply Habsent.
Qed.

Lemma editQuestion_find (moduleId lessonId : string) (qIdx : nat)
    (g : QuizQuestion → QuizQuestion) (c : Course) :
  find_lesson (editQuestion moduleId lessonId qIdx g c) moduleId lessonId
  = with_quiz_of (alter g qIdx) <$> find_lesson c moduleId lessonId.
Proof. by apply editLessons_find. Qed.

Lemma editQuestion_compose (moduleId lessonId : string) (qIdx : nat)
    (g h : QuizQuestion → QuizQuestion) (c : Course) :
  editQuestion moduleId lessonId qIdx g (editQuestion moduleId lessonId qIdx h c)
  = editQuestion moduleId lessonId qIdx (g ∘ h) c.
Proof.
  unfold editQuestion. rewrite editLessons_compose by done.
  apply editLessons_ext. intros _ l _ _ _ _. unfold with_quiz_of. simpl. f_equal.
  destruct (lesson_quiz l) as [qs|]; [|done]. simpl. f_equal.
  apply list_alter_alter_eq.
Qed.

(** What an edit of question [qIdx] shows at the edited path and at the
    others. *)
Lemma editQuestion_read_back (moduleId lessonId : string) (qIdx : nat)
    (g : QuizQuestion → QuizQuestion) (c : Course) :
  (∀ les qs,
     find_lesson c moduleId lessonId = Some les → lesson_quiz les = Some qs →
     ∃ les' qs',
       find_lesson (editQuestion moduleId lessonId qIdx g c) moduleId lessonId = Some les'
       ∧ lesson_quiz les' = Some qs'
       ∧ length qs' = length qs
       ∧ (∀ q, qs !! qIdx = Some q → qs' !! qIdx = Some (g q))
       ∧ (∀ k, k ≠ qIdx → qs' !! k = qs !! k))
  ∧ (∀ moduleId' lessonId',
       moduleId' ≠ moduleId ∨ lessonId' ≠ lessonId →
       find_lesson (editQuestion moduleId lessonId qIdx g c) moduleId' lessonId'
       = find_lesson c moduleId' lessonId')
  ∧ (question_absent moduleId lessonId qIdx c →
       editQuestion moduleId lessonId qIdx g c = c).
Proof.
  split_and!.
  - intros les qs Hles Hqs. rewrite editQuestion_find, Hles. simpl.
    eexists _, _. split; [reflexivity|]. simpl. rewrite Hqs. simpl.
    split; [reflexivity|]. split; [apply length_alter|]. split.
    + intros q Hq. by rewrite list_lookup_alter_eq, Hq.
    + intros k Hk. by apply list_lookup_alter_ne.
  - intros m' l' Hother. by apply editLessons_find_other.
  - apply editQuestion_absent.
Qed.

(** X1. [updateLessonContent] writes the content of the addressed lesson
    and nothing else: the lesson found at the path afterwards is the old
    one with the new content, the lesson found at any other path is the old
    one, the module ids keep their order, and of two writes to the same
    path the last one wins. *)
Theorem updateLessonContent_read_back (c : Course) (moduleId lessonId html : string) :
  ∃ c',
    updateLessonContent moduleId lessonId html (Some c) = Some c'
    ∧ find_lesson c' moduleId lessonId
      = with_content html <$> find_lesson c moduleId lessonId
    ∧ (∀ l', find_lesson c' moduleId lessonId = Some l' → content l' = html)
    ∧ (∀ moduleId' lessonId',
         moduleId' ≠ moduleId ∨ lessonId' ≠ lessonId →
         find_lesson c' moduleId' lessonId' = find_lesson c moduleId' lessonId')
    ∧ (∀ html',
         updateLessonContent moduleId lessonId html' (Some c')
         = updateLessonContent moduleId lessonId html' (Some c))
    ∧ map module_id (modules c') = map module_id (modules c)
    ∧ updateLessonContent moduleId lessonId html None = None.
Proof.
  eexists. split; [reflexivity|].
  assert (Hfind : find_lesson (editLessons moduleId lessonId (with_content html) c)
                    moduleId lessonId
                  = with_content html <$> find_lesson c moduleId lessonId)
    by by apply editLessons_find.
  split_and!; try done.
  - intros l'. rewrite Hfind. destruct (find_lesson c moduleId lessonId); [|done].
    by intros [= <-].
  - intros m' l' Hother. by apply editLessons_find_other.
  - intros html'. unfold updateLessonContent. simpl. f_equal.
    rewrite editLessons_compose by done. by apply editLessons_ext.
  - by apply editLessons_shape.
Qed.

(** X2. [deleteQuizQuestion] removes the question at [qIdx] from the quiz
    of the addressed lesson: the quiz found there afterwards is the old one
    without that position, so the questions before it keep their place and
    those after it move up by one; a lesson without a quiz stays without
    one; an index past the end of every addressed quiz changes nothing in
    the course; lessons at other paths are untouched. *)
Theorem deleteQuizQuestion_removes (c : Course) (moduleId lessonId : string) (qIdx : nat) :
  ∃ c',
    deleteQuizQuestion moduleId lessonId qIdx (Some c) = Some c'
    ∧ (∀ les,
         find_lesson c moduleId lessonId = Some les →
         ∃ les',
           find_lesson c' moduleId lessonId = Some les'
           ∧ (lesson_quiz les = None → les' = les)
           ∧ ∀ qs, lesson_quiz les = Some qs →
               ∃ qs',
                 lesson_quiz les' = Some qs'
                 ∧ (qIdx < length qs → S (length qs') = length qs)
                 ∧ (∀ k, k < qIdx → qs' !! k = qs !! k)
                 ∧ (∀ k, qIdx ≤ k → qs' !! k = qs !! S k))
    ∧ (question_absent moduleId lessonId qIdx c → c' = c)
    ∧ (∀ moduleId' lessonId',
         moduleId' ≠ moduleId ∨ lessonId' ≠ lessonId →
         find_lesson c' moduleId' lessonId' = find_lesson c moduleId' lessonId')
    ∧ deleteQuizQuestion moduleId lessonId qIdx None = None.
Proof.
  eexists. split; [apply deleteQuizQuestion_edit|]. split_and!; try done.
  - intros les Hles. rewrite editLessons_find, Hles by done. simpl.
    eexists. split; [reflexivity|]. split.
    + intros Hnone. apply with_quiz_of_same. congruence.
    + intros qs Hqs. simpl. rewrite Hqs. simpl. eexists. split; [reflexivity|].
      split_and!.
      * intros Hk. rewrite length_delete by by apply lookup_lt_is_Some_2. lia.
      * intros k Hk. by apply list_lookup_delete_lt.
      * intros k Hk. by apply list_lookup_delete_ge.
  - intros Habsent. apply editLessons_unchanged. intros m l Hm Hmid Hl Hlid.
    apply with_quiz_of_same. intros qs Hqs.
    pose proof (Habsent m l qs Hm Hmid Hl Hlid Hqs) as Hlen.
    apply list_eq. intros k. destruct (decide (k < qIdx)).
    + by apply list_lookup_delete_lt.
    + rewrite list_lookup_delete_ge by lia.
      by rewrite !(lookup_ge_None_2 qs) by lia.
  - intros m' l' Hother. by apply editLessons_find_other.
Qed.

Lemma addQuizQuestion_edit (moduleId lessonId : string) (c : Course) :
  addQuizQuestion moduleId lessonId (Some c)
  = Some (editLessons moduleId lessonId
            (λ l, with_quiz (default [] (lesson_quiz l) ++ [newQuestion]) l) c).
Proof. reflexivity. Qed.

Lemma with_quiz_same (l : Lesson) (qs : list QuizQuestion) :
  lesson_quiz l = Some qs → with_quiz qs l = l.
Proof. destruct l. simpl. by intros ->. Qed.

(** X3. Adding a question and then deleting the last question of the
    addressed lesson gives back the lesson as it was found before, except
    that a quiz that was absent is now present and empty. *)
Theorem addQuizQuestion_then_delete
    (c : Course) (moduleId lessonId : string) (les : Lesson) :
  find_lesson c moduleId lessonId = Some les →
  let old := default [] (lesson_quiz les) in
  ∃ c2,
    deleteQuizQuestion moduleId lessonId (length old)
      (addQuizQuestion moduleId lessonId (Some c)) = Some c2
    ∧ find_lesson c2 moduleId lessonId = Some (with_quiz old les)
    ∧ (is_Some (lesson_quiz les) → find_lesson c2 moduleId lessonId = Some les)
    ∧ (lesson_quiz les = None →
         ∃ les', find_lesson c2 moduleId lessonId = Some les'
                 ∧ lesson_quiz les' = Some []).
Proof.
  intros Hles old. rewrite addQuizQuestion_edit, deleteQuizQuestion_edit.
  eexists. split; [reflexivity|].
  assert (Hfind : find_lesson
                    (editLessons moduleId lessonId (with_quiz_of (delete (length old)))
                       (editLessons moduleId lessonId
                          (λ l, with_quiz (default [] (lesson_quiz l) ++ [newQuestion]) l) c))
                    moduleId lessonId
                  = Some (with_quiz old les)).
  { rewrite !editLessons_find, Hles by done. simpl. f_equal.
    unfold with_quiz_of, with_quiz. simpl. f_equal. f_equal. fold old.
    apply list_eq. intros k. destruct (decide (k < length old)).
    - rewrite list_lookup_delete_lt by done. by apply lookup_app_l.
    - rewrite list_lookup_delete_ge by lia.
      rewrite !lookup_ge_None_2; [done | lia |].
      rewrite length_app. simpl. lia. }
  split_and!; try done.
  - intros [qs Hqs]. rewrite Hfind. f_equal. unfold old. rewrite Hqs. simpl.
    by apply with_quiz_same.
  - intros Hnone. eexists. split; [exact Hfind|]. unfold old. by rewrite Hnone.
Qed.

Lemma addQuizQuestion_then_delete_witness :
  ∃ c2,
    deleteQuizQuestion "m1" "l1" 1 (addQuizQuestion "m1" "l1" (Some sampleCourse)) = Some c2
    ∧ find_lesson c2 "m1" "l1" = Some sampleQuizLesson.
Proof.
  destruct (addQuizQuestion_then_delete sampleCourse "m1" "l1" sampleQuizLesson eq_refl)
    as (c2 & Hc2 & _ & Hsame & _).
  exists c2. split; [exact Hc2|]. apply Hsame. by eexists.
Defined.

(** X4. [updateQuizQuestionText] writes the text of question [qIdx] of the
    addressed lesson: afterwards that question has the new text and its old
    options and correct answers, every other question is as before, the
    quiz has the same length; an index past the end of every addressed quiz
    changes nothing; of two writes to the same question the last one wins;
    lessons at other paths are untouched. *)
Theorem updateQuizQuestionText_read_back
    (c : Course) (moduleId lessonId : string) (qIdx : nat) (text : string) :
  ∃ c',
    updateQuizQuestionText moduleId lessonId qIdx text (Some c) = Some c'
    ∧ (∀ les qs,
         find_lesson c moduleId lessonId = Some les → lesson_quiz les = Some qs →
         ∃ les' qs',
           find_lesson c' moduleId lessonId = Some les'
           ∧ lesson_quiz les' = Some qs'
           ∧ length qs' = length qs
           ∧ (∀ q, qs !! qIdx = Some q →
                ∃ q', qs' !! qIdx = Some q' ∧ question q' = text
                      ∧ options q' = options q
                      ∧ correctAnswers q' = correctAnswers q)
           ∧ (∀ k, k ≠ qIdx → qs' !! k = qs !! k))
    ∧ (question_absent moduleId lessonId qIdx c → c' = c)
    ∧ (∀ text',
         updateQuizQuestionText moduleId lessonId qIdx text' (Some c')
         = updateQuizQuestionText moduleId lessonId qIdx text' (Some c))
    ∧ (∀ moduleId' lessonId',
         moduleId' ≠ moduleId ∨ lessonId' ≠ lessonId →
         find_lesson c' moduleId' lessonId' = find_lesson c moduleId' lessonId').
Proof.
  eexists. split; [apply updateQuizQuestionText_edit|].
  destruct (editQuestion_read_back moduleId lessonId qIdx (with_question text) c)
    as (Hread & Hother & Habsent).
  split_and!; try done.
  - intros les qs Hles Hqs.
    destruct (Hread les qs Hles Hqs) as (les' & qs' & H1 & H2 & H3 & H4 & H5).
    exists les', qs'. split_and!; try done.
    intros q Hq. eexists. split; [by apply H4|]. done.
  - intros text'. rewrite !updateQuizQuestionText_edit. f_equal.
    by rewrite editQuestion_compose.
Qed.

(** X5. [updateOptionText] writes option [oIdx] of question [qIdx] of the
    addressed lesson: afterwards that option has the new text, the other
    options, the question text, the correct answers and the number of
    options are as before, and so is every other question; an option index
    past the end changes no option; a question index past the end of every
    addressed quiz changes nothing; the last of two writes to the same
    option wins. *)
Theorem updateOptionText_read_back
    (c : Course) (moduleId lessonId : string) (qIdx oIdx : nat) (text : string) :
  ∃ c',
    updateOptionText moduleId lessonId qIdx oIdx text (Some c) = Some c'
    ∧ (∀ les qs,
         find_lesson c moduleId lessonId = Some les → lesson_quiz les = Some qs →
         ∃ les' qs',
           find_lesson c' moduleId lessonId = Some les'
           ∧ lesson_quiz les' = Some qs'
           ∧ length qs' = length qs
           ∧ (∀ q, qs !! qIdx = Some q →
                ∃ q', qs' !! qIdx = Some q' ∧ question q' = question q
                      ∧ correctAnswers q' = correctAnswers q
                      ∧ length (options q') = length (options q)
                      ∧ (oIdx < length (options q) → options q' !! oIdx = Some text)
                      ∧ (length (options q) ≤ oIdx → options q' = options q)
                      ∧ (∀ oi, oi ≠ oIdx → options q' !! oi = options q !! oi))
           ∧ (∀ k, k ≠ qIdx → qs' !! k = qs !! k))
    ∧ (question_absent moduleId lessonId qIdx c → c' = c)
    ∧ (∀ text',
         updateOptionText moduleId lessonId qIdx oIdx text' (Some c')
         = updateOptionText moduleId lessonId qIdx oIdx text' (Some c))
    ∧ (∀ moduleId' lessonId',
         moduleId' ≠ moduleId ∨ lessonId' ≠ lessonId →
         find_lesson c' moduleId' lessonId' = find_lesson c moduleId' lessonId').
Proof.
  eexists. split; [apply updateOptionText_edit|].
  destruct (editQuestion_read_back moduleId lessonId qIdx
              (λ q, with_options (<[oIdx := text]> (options q)) q) c)
    as (Hread & Hother & Habsent).
  split_and!; try done.
  - intros les qs Hles Hqs.
    destruct (Hread les qs Hles Hqs) as (les' & qs' & H1 & H2 & H3 & H4 & H5).
    exists les', qs'. split_and!; try done.
    intros q Hq. eexists. split; [by apply H4|]. simpl. split_and!; try done.
    + apply length_insert.
    + intros Hin. by apply list_lookup_insert_eq.
    + intros Hout. by apply list_insert_ge.
    + intros oi Hoi. by apply list_lookup_insert_ne.
  - intros text'. rewrite !updateOptionText_edit. f_equal.
    rewrite editQuestion_compose. apply editLessons_ext. intros _ l _ _ _ _.
    unfold with_quiz_of. f_equal. destruct (lesson_quiz l) as [qs|]; [|done].
    simpl. f_equal. apply list_alter_ext; [|done]. intros q _. unfold with_options.
    simpl. f_equal. apply list_insert_insert_eq.
Qed.

(** X6. [addOption] appends the option "New Option" to question [qIdx] of
    the addressed lesson: the options already there keep their place, the
    question text and the correct answers are as before, and so is every
    other question; a question index past the end of every addressed quiz
    changes nothing. *)
Theorem addOption_appends (c : Course) (moduleId lessonId : string) (qIdx : nat) :
  ∃ c',
    addOption moduleId lessonId qIdx (Some c) = Some c'
    ∧ (∀ les qs,
         find_lesson c moduleId lessonId = Some les → lesson_quiz les = Some qs →
         ∃ les' qs',
           find_lesson c' moduleId lessonId = Some les'
           ∧ lesson_quiz les' = Some qs'
           ∧ length qs' = length qs
           ∧ (∀ q, qs !! qIdx = Some q →
                ∃ q', qs' !! qIdx = Some q' ∧ question q' = question q
                      ∧ correctAnswers q' = correctAnswers q
                      ∧ options q' = options q ++ ["New Option"]
                      ∧ length (options q') = S (length (options q))
                      ∧ (∀ oi opt, options q !! oi = Some opt → options q' !! oi = Some opt))
           ∧ (∀ k, k ≠ qIdx → qs' !! k = qs !! k))
    ∧ (question_absent moduleId lessonId qIdx c → c' = c)
    ∧ (∀ moduleId' lessonId',
         moduleId' ≠ moduleId ∨ lessonId' ≠ lessonId →
         find_lesson c' moduleId' lessonId' = find_lesson c moduleId' lessonId').
Proof.
  eexists. split; [apply addOption_edit|].
  destruct (editQuestion_read_back moduleId lessonId qIdx
              (λ q, with_options (options q ++ ["New Option"]) q) c)
    as (Hread & Hother & Habsent).
  split_and!; try done.
  intros les qs Hles Hqs.
  destruct (Hread les qs Hles Hqs) as (les' & qs' & H1 & H2 & H3 & H4 & H5).
  exists les', qs'. split_and!; try done.
  intros q Hq. eexists. split; [by apply H4|]. simpl. split_and!; try done.
  - rewrite length_app. simpl. lia.
  - intros oi opt Hopt. by apply lookup_app_l_Some.
Qed.

(** ** The quiz invariant of the data model *)

(** A question has at least two options, and its correct answers are
    positions of options. *)
Definition question_well_formed (q : QuizQuestion) : Prop :=
  2 ≤ length (options q) ∧ ∀ a, a ∈ correctAnswers q → a < length (options q).

Definition lesson_well_formed (l : Lesson) : Prop :=
  ∀ qs q, lesson_quiz l = Some qs → q ∈ qs → question_well_formed q.

Definition course_well_formed (c : Course) : Prop :=
  ∀ m l, m ∈ modules c → l ∈ lessons m → lesson_well_formed l.

(** The edits of the syllabus editor. *)
Inductive Edit : Set :=
| UpdateLessonContent (moduleId lessonId html : string)
| ToggleQuizAnswer (moduleId lessonId : string) (qIdx oIdx : nat)
| AddQuizQuestion (moduleId lessonId : string)
| DeleteQuizQuestion (moduleId lessonId : string) (qIdx : nat)
| UpdateQuizQuestionText (moduleId lessonId : string) (qIdx : nat) (text : string)
| UpdateOptionText (moduleId lessonId : string) (qIdx oIdx : nat) (text : string)
| AddOption (moduleId lessonId : string) (qIdx : nat).

Definition apply_edit (e : Edit) (course : option Course) : Js.result (option Course) :=
  match e with
  | UpdateLessonContent m l html => Js.ok (updateLessonContent m l html course)
  | ToggleQuizAnswer m l qIdx oIdx => toggleQuizAnswer m l qIdx oIdx course
  | AddQuizQuestion m l => Js.ok (addQuizQuestion m l course)
  | DeleteQuizQuestion m l qIdx => Js.ok (deleteQuizQuestion m l qIdx course)
  | UpdateQuizQuestionText m l qIdx txt => Js.ok (updateQuizQuestionText m l qIdx txt course)
  | UpdateOptionText m l qIdx oIdx txt => Js.ok (updateOptionText m l qIdx oIdx txt course)
  | AddOption m l qIdx => Js.ok (addOption m l qIdx course)
  end.

(** The option a toggle names is an option of the question it addresses
    (the editor shows one checkbox per option). *)
Definition edit_in_range (e : Edit) (c : Course) : Prop :=
  match e with
  | ToggleQuizAnswer moduleId lessonId qIdx oIdx =>
      ∀ m l qs q, m ∈ modules c → module_id m = moduleId →
                  l ∈ lessons m → lesson_id l = lessonId →
                  lesson_quiz l = Some qs → qs !! qIdx = Some q →
                  oIdx < length (options q)
  | _ => True
  end.

Lemma elem_of_alter {A} (g : A → A) (k : nat) (l : list A) (x : A) :
  x ∈ alter g k l → x ∈ l ∨ ∃ y, l !! k = Some y ∧ x = g y.
Proof.
  intros [i Hi]%list_elem_of_lookup. rewrite list_lookup_alter in Hi.
  destruct (decide (k = i)) as [->|].
  - destruct (l !! i) as [y|] eqn:Hy; [|done]. right. exists y.
    split; [done|]. simpl in Hi. congruence.
  - left. by eapply list_elem_of_lookup_2.
Qed.

Lemma elem_of_delete {A} (k : nat) (l : list A) (x : A) : x ∈ delete k l → x ∈ l.
Proof.
  intros [i Hi]%list_elem_of_lookup. rewrite list_lookup_delete in Hi.
  destruct (decide (i < k)); by eapply list_elem_of_lookup_2.
Qed.

Lemma editLessons_well_formed (moduleId lessonId : string) (f : Lesson → Lesson)
    (c : Course) :
  (∀ m l, m ∈ modules c → module_id m = moduleId →
          l ∈ lessons m → lesson_id l = lessonId →
          lesson_well_formed l → lesson_well_formed (f l)) →
  course_well_formed c → course_well_formed (editLessons moduleId lessonId f c).
Proof.
  intros Hf Hwf m' l' Hm' Hl'. unfold editLessons in Hm'. simpl in Hm'.
  apply list_elem_of_fmap in Hm' as (m & -> & Hm).
  destruct (bool_decide (module_id m = moduleId)) eqn:Hmid; [|by eapply Hwf].
  apply bool_decide_eq_true in Hmid. simpl in Hl'.
  apply list_elem_of_fmap in Hl' as (l & -> & Hl).
  destruct (bool_decide (lesson_id l = lessonId)) eqn:Hlid; [|by eapply Hwf].
  apply bool_decide_eq_true in Hlid. eapply Hf; eauto.
Qed.

Lemma with_quiz_of_alter_well_formed (g : QuizQuestion → QuizQuestion) (k : nat)
    (l : Lesson) :
  (∀ qs q, lesson_quiz l = Some qs → qs !! k = Some q →
           question_well_formed q → question_well_formed (g q)) →
  lesson_well_formed l → lesson_well_formed (with_quiz_of (alter g k) l).
Proof.
  intros Hg Hwf qs' q' Hqs' Hq'. simpl in Hqs'.
  destruct (lesson_quiz l) as [qs|] eqn:Hqs; [|done]. simpl in Hqs'.
  inversion Hqs'; subst qs'.
  apply elem_of_alter in Hq' as [Hq'|(q & Hq & ->)]; [by eapply Hwf|].
  eapply Hg; eauto. eapply Hwf; [done|]. by eapply list_elem_of_lookup_2.
Qed.

Lemma editQuestion_well_formed (moduleId lessonId : string) (qIdx : nat)
    (g : QuizQuestion → QuizQuestion) (c : Course) :
  (∀ m l qs q, m ∈ modules c → module_id m = moduleId →
               l ∈ lessons m → lesson_id l = lessonId →
               lesson_quiz l = Some qs → qs !! qIdx = Some q →
               question_well_formed q → question_well_formed (g q)) →
  course_well_formed c → course_well_formed (editQuestion moduleId lessonId qIdx g c).
Proof.
  intros Hg. apply editLessons_well_formed. intros m l Hm Hmid Hl Hlid.
  apply with_quiz_of_alter_well_formed. intros qs q Hqs Hq. by eapply Hg.
Qed.

Lemma toggledCourse_as_edit (moduleId lessonId : string) (qIdx oIdx : nat) (c : Course) :
  toggledCourse moduleId lessonId qIdx oIdx c
  = editQuestion moduleId lessonId qIdx (toggledQuestion oIdx) c.
Proof.
  unfold toggledCourse, editQuestion, editLessons. f_equal.
  apply map_ext. intros m. unfold toggledModule.
  destruct (bool_decide (module_id m = moduleId)); [|done]. f_equal.
  apply map_ext. intros l. unfold toggledLesson, with_quiz_of, with_quiz.
  destruct (bool_decide (lesson_id l = lessonId)); [|done].
  destruct l as [i t co ty v im [qs|] d]; reflexivity.
Qed.

Lemma newQuestion_well_formed : question_well_formed newQuestion.
Proof.
  split; simpl; [lia|]. intros a Ha. apply list_elem_of_singleton in Ha as ->. lia.
Qed.

(** X7. Every edit of the syllabus editor keeps the quiz invariant: if
    every question of the course has at least two options and only
    positions of options among its correct answers, the same holds after
    the edit, provided a toggled option is an option of its question. *)
Theorem apply_edit_well_formed (e : Edit) (c : Course) (next : option Course) :
  course_well_formed c → edit_in_range e c →
  apply_edit e (Some c) = Js.ok next →
  ∃ c', next = Some c' ∧ course_well_formed c'.
Proof.
  intros Hwf Hrange Hedit.
  destruct e as [m l html|m l qIdx oIdx|m l|m l qIdx|m l qIdx txt
                |m l qIdx oIdx txt|m l qIdx]; unfold apply_edit in Hedit.
  - inversion Hedit; subst next. eexists. split; [reflexivity|].
    apply editLessons_well_formed; [|done]. intros _ les _ _ _ _ Hles. exact Hles.
  - pose proof (toggleQuizAnswer_ok_inv m l qIdx oIdx c next Hedit) as Hvalid.
    rewrite (toggleQuizAnswer_ok m l qIdx oIdx c Hvalid) in Hedit.
    inversion Hedit; subst next. eexists. split; [reflexivity|].
    rewrite toggledCourse_as_edit. apply editQuestion_well_formed; [|done].
    intros mo les qs q Hmo Hmid Hles Hlid Hqs Hq [Hopts Hans].
    split; [done|]. simpl. intros a [[Ha _]|[-> _]]%newAnswers_members.
    + by apply Hans.
    + by eapply (Hrange mo les qs q).
  - inversion Hedit; subst next. eexists. split; [apply addQuizQuestion_edit|].
    apply editLessons_well_formed; [|done]. intros _ les _ _ _ _ Hles qs q Hqs Hq.
    simpl in Hqs. inversion Hqs; subst qs.
    apply elem_of_app in Hq as [Hq|Hq%list_elem_of_singleton].
    + destruct (lesson_quiz les) as [qs|] eqn:Hold; simpl in Hq.
      * by eapply Hles.
      * by apply elem_of_nil in Hq.
    + subst q. apply newQuestion_well_formed.
  - inversion Hedit; subst next. eexists. split; [apply deleteQuizQuestion_edit|].
    apply editLessons_well_formed; [|done]. intros _ les _ _ _ _ Hles qs q Hqs Hq.
    simpl in Hqs. destruct (lesson_quiz les) as [qs0|] eqn:Hold; [|done].
    simpl in Hqs. inversion Hqs; subst qs. apply elem_of_delete in Hq. by eapply Hles.
  - inversion Hedit; subst next. eexists. split; [apply updateQuizQuestionText_edit|].
    apply editQuestion_well_formed; [|done]. by intros.
  - inversion Hedit; subst next. eexists. split; [apply updateOptionText_edit|].
    apply editQuestion_well_formed; [|done].
    intros _ _ _ q _ _ _ _ _ _ [Hopts Hans]. split; simpl.
    + by rewrite length_insert.
    + intros a Ha. rewrite length_insert. by apply Hans.
  - inversion Hedit; subst next. eexists. split; [apply addOption_edit|].
    apply editQuestion_well_formed; [|done].
    intros _ _ _ q _ _ _ _ _ _ [Hopts Hans]. split; simpl.
    + rewrite length_app. simpl. lia.
    + intros a Ha. rewrite length_app. simpl. specialize (Hans a Ha). lia.
Qed.

Lemma apply_edit_well_formed_witness :
  ∃ c', apply_edit (ToggleQuizAnswer "m1" "l1" 0 1) (Some sampleCourse) = Js.ok (Some c')
        ∧ course_well_formed c'.
Proof.
  assert (Hwf : course_well_formed sampleCourse).
  { intros m l Hm Hl qs q Hqs Hq. simpl in Hm.
    apply list_elem_of_singleton in Hm as ->. simpl in Hl.
    apply list_elem_of_singleton in Hl as ->. simpl in Hqs.
    inversion Hqs; subst qs. apply list_elem_of_singleton in Hq as ->.
    split; simpl; [lia|]. intros a Ha.
    rewrite !elem_of_cons, elem_of_nil in Ha. lia. }
  assert (Hrange : edit_in_range (ToggleQuizAnswer "m1" "l1" 0 1) sampleCourse).
  { intros m l qs q Hm _ Hl _ Hqs Hq. simpl in Hm.
    apply list_elem_of_singleton in Hm as ->. simpl in Hl.
    apply list_elem_of_singleton in Hl as ->. simpl in Hqs.
    inversion Hqs; subst qs. simpl in Hq. inversion Hq; subst q. simpl. lia. }
  destruct (apply_edit_well_formed (ToggleQuizAnswer "m1" "l1" 0 1) sampleCourse
              (Some (toggledCourse "m1" "l1" 0 1 sampleCourse)) Hwf Hrange eq_refl)
    as (c' & Hc' & Hwf').
  exists c'. split; [by rewrite <- Hc'|exact Hwf'].
Defined.

(** ** A generation that succeeds *)

Lemma install_lesson_id (t : LessonType) (result : Generated t) (l : Lesson) :
  lesson_id (install t result l) = lesson_id l.
Proof. by destruct t. Qed.

Lemma updatedModules_edit (req : Request)
    (result : Generated (lesson_type (req_lesson req))) :
  with_modules (updatedModules req result) (req_course req)
  = editLessons (req_moduleId req) (req_lessonId req)
      (install (lesson_type (req_lesson req)) result) (req_course req).
Proof. reflexivity. Qed.

(** X8. A generation that succeeds installs its result in the lesson it
    was started for, in the course as it was when the generation started:
    the lesson found at the path afterwards is the lesson found at the
    start with the video URL, the questions or the text set according to
    its type and nothing else changed, lessons at other paths are those of
    the course at the start, and so is the order of the modules.  The
    course held when the request settles does not enter the result: an
    edit made while the request was pending is gone. *)
Theorem generateLessonBody_success
    (st : State) (c : Course) (moduleId lessonId : string) (lesson : Lesson)
    (result : Generated (lesson_type lesson)) :
  course st = Some c → find_lesson c moduleId lessonId = Some lesson →
  let req := mkRequest c moduleId lessonId lesson in
  requests (generateLessonBody moduleId lessonId st) = requests st ++ [req]
  ∧ ∀ k st',
      ∃ c',
        course (generateLessonBody_resume k req (Some result) st') = Some c'
        ∧ c' = editLessons moduleId lessonId (install (lesson_type lesson) result) c
        ∧ find_lesson c' moduleId lessonId
          = Some (install (lesson_type lesson) result lesson)
        ∧ (∀ moduleId' lessonId',
             moduleId' ≠ moduleId ∨ lessonId' ≠ lessonId →
             find_lesson c' moduleId' lessonId' = find_lesson c moduleId' lessonId')
        ∧ map module_id (modules c') = map module_id (modules c)
        ∧ (∀ l url, install video url l = with_videoUrl url l)
        ∧ (∀ l qs, install quiz qs l = with_quiz qs l)
        ∧ (∀ l html, install text html l = with_content html l
                     ∧ install interactive html l = with_content html l).
Proof.
  intros Hc Hl req. split.
  - by rewrite (generateLessonBody_found _ _ _ c lesson).
  - intros k st'. eexists. split; [reflexivity|].
    rewrite (updatedModules_edit req result). simpl.
    split_and!; try done.
    + rewrite editLessons_find, Hl by apply install_lesson_id. done.
    + intros m' l' Hother. apply editLessons_find_other; [apply install_lesson_id|done].
    + apply editLessons_shape, install_lesson_id.
Qed.

Lemma generateLessonBody_success_witness :
  ∃ c',
    course (generateLessonBody_resume 0
              (mkRequest sampleCourse "m1" "l1" sampleQuizLesson)
              (Some [newQuestion]) generating_l1) = Some c'
    ∧ find_lesson c' "m1" "l1" = Some (with_quiz [newQuestion] sampleQuizLesson).
Proof.
  destruct (generateLessonBody_success (idle (Some sampleCourse)) sampleCourse
              "m1" "l1" sampleQuizLesson [newQuestion] eq_refl eq_refl) as [_ Hdone].
  destruct (Hdone 0 generating_l1) as (c' & Hc' & _ & Hfind & _).
  exists c'. split; [exact Hc' | exact Hfind].
Defined.

(** ** Creating a course *)

(** X9. [handleInitialGeneration].  With an empty topic nothing happens.
    When both requests are answered, the new course has the random id, the
    title and description of the structure and the thumbnail; its modules
    and lessons are those of the structure, in order, with their ids,
    titles and types; every lesson is empty (no text, no video, no quiz)
    and is not marked as generated; the status is cleared.  When a request
    is rejected, the course is the one before (none is created from a
    structure without thumbnail), and the status text stays.  In all cases
    [isGenerating] ends false unless the topic was empty. *)
Theorem handleInitialGeneration_outcomes
    (generateCourseStructure : string → option Structure)
    (generateThumbnail : string → option string) (randomId : string) (d : Draft) :
  let d' := handleInitialGeneration generateCourseStructure generateThumbnail randomId d in
  (draft_topic d = "" → d' = d)
  ∧ (draft_topic d ≠ "" → draft_isGenerating d' = false ∧ draft_topic d' = draft_topic d)
  ∧ (∀ structure thumb,
       draft_topic d ≠ "" →
       generateCourseStructure (draft_topic d) = Some structure →
       generateThumbnail (draft_topic d) = Some thumb →
       ∃ c,
         draft_course d' = Some c
         ∧ draft_loadingStatus d' = ""
         ∧ course_id c = randomId
         ∧ course_title c = structure_title structure
         ∧ description c = structure_description structure
         ∧ thumbnail c = Some thumb
         ∧ map module_id (modules c) = map mstub_id (structure_modules structure)
         ∧ (∀ i ms, structure_modules structure !! i = Some ms →
              ∃ m, modules c !! i = Some m
                   ∧ module_title m = mstub_title ms
                   ∧ map lesson_id (lessons m) = map stub_id (mstub_lessons ms)
                   ∧ map lesson_title (lessons m) = map stub_title (mstub_lessons ms)
                   ∧ map lesson_type (lessons m) = map stub_type (mstub_lessons ms))
         ∧ (∀ m l, m ∈ modules c → l ∈ lessons m →
              content l = "" ∧ videoUrl l = None ∧ lesson_quiz l = None
              ∧ hasContent l = false)
         ∧ course_well_formed c)
  ∧ (draft_topic d ≠ "" →
     generateCourseStructure (draft_topic d) = None
     ∨ generateThumbnail (draft_topic d) = None →
     draft_course d' = draft_course d
     ∧ draft_loadingStatus d' = "Architecting course structure...").
Proof.
  intros d'. unfold d', handleInitialGeneration.
  destruct (bool_decide (draft_topic d = "")) eqn:Htopic.
  { apply bool_decide_eq_true in Htopic. split_and!; try done. }
  apply bool_decide_eq_false in Htopic.
  assert (Hempty : ∀ ms l, l ∈ lessons (module_of_stub ms) →
            content l = "" ∧ videoUrl l = None ∧ lesson_quiz l = None
            ∧ hasContent l = false).
  { intros ms l Hl. simpl in Hl. apply list_elem_of_fmap in Hl as (ls & -> & _). done. }
  split_and!.
  - done.
  - intros _. destruct (generateCourseStructure _); [|done].
    by destruct (generateThumbnail _).
  - intros structure thumb _ -> ->. eexists. split; [reflexivity|]. simpl.
    split_and!; try done.
    + rewrite map_map. by apply map_ext.
    + intros i ms Hms. eexists. change (map ?f ?l) with (f <$> l) at 1.
      rewrite list_lookup_fmap, Hms. simpl. split; [reflexivity|].
      split_and!; try done; simpl; rewrite map_map; by apply map_ext.
    + intros m l Hm Hl. apply list_elem_of_fmap in Hm as (ms & -> & _).
      by eapply Hempty.
    + intros m l Hm Hl qs q Hqs. apply list_elem_of_fmap in Hm as (ms & -> & _).
      destruct (Hempty ms l Hl) as (_ & _ & Hnone & _). congruence.
  - intros _ [Hs|Ht].
    + by rewrite Hs.
    + rewrite Ht. by destruct (generateCourseStructure _).
Qed.

Lemma handleInitialGeneration_outcomes_witness :
  ∃ c,
    draft_course
      (handleInitialGeneration
         (λ _, Some (mkStructure "Course" "About"
                       [mkModuleStub "m1" "Basics" [mkLessonStub "l1" "Intro" text]]))
         (λ _, Some "data:image/png;base64,AAAA") "k3j9x0a1b"
         (mkDraft "Triangles" false "" None)) = Some c
    ∧ course_id c = "k3j9x0a1b".
Proof.
  destruct (handleInitialGeneration_outcomes
              (λ _, Some (mkStructure "Course" "About"
                            [mkModuleStub "m1" "Basics" [mkLessonStub "l1" "Intro" text]]))
              (λ _, Some "data:image/png;base64,AAAA") "k3j9x0a1b"
              (mkDraft "Triangles" false "" None)) as (_ & _ & Hok & _).
  destruct (Hok _ _ ltac:(done) eq_refl eq_refl) as (c & Hc & _ & Hid & _).
  exists c. split; [exact Hc | exact Hid].
Defined.

(** ** The stored library *)

Import LocalStorage.

Lemma findIndex_from_shift {A} (p : A → bool) (idx : nat) (l : list A) :
  Js.findIndex_from p (S idx) l = S <$> Js.findIndex_from p idx l.
Proof.
  revert idx. induction l as [|x l IH]; intros idx; simpl; [done|].
  destruct (p x); [done|]. apply IH.
Qed.

Lemma findIndex_cons {A} (p : A → bool) (x : A) (l : list A) :
  Js.findIndex p (x :: l) = if p x then Some 0 else S <$> Js.findIndex p l.
Proof.
  unfold Js.findIndex. simpl. destruct (p x); [done|]. apply findIndex_from_shift.
Qed.

(** The test of both savers: a stored course has the id of the saved one. *)
Definition same_id (c : Course) : Course → bool :=
  λ x, bool_decide (course_id x = course_id c).

(** The list the auto-save effect stores. *)
Definition replaceFirst (c : Course) (coursesList : list Course) : list Course :=
  match Js.findIndex (same_id c) coursesList with
  | Some i => <[i := c]> coursesList
  | None => coursesList ++ [c]
  end.

(** The list [saveCourse] stores. *)
Definition replaceAll (c : Course) (prev : list Course) : list Course :=
  match List.find (same_id c) prev with
  | Some _ => map (λ x, if same_id c x then c else x) prev
  | None => prev ++ [c]
  end.

Lemma replaceFirst_cons (c x : Course) (l : list Course) :
  replaceFirst c (x :: l) = if same_id c x then c :: l else x :: replaceFirst c l.
Proof.
  unfold replaceFirst. rewrite findIndex_cons.
  destruct (same_id c x); [done|]. by destruct (Js.findIndex (same_id c) l).
Qed.

Lemma same_id_refl (c : Course) : same_id c c = true.
Proof. by apply bool_decide_eq_true. Qed.

Lemma replaceFirst_find (c : Course) (l : list Course) :
  List.find (same_id c) (replaceFirst c l) = Some c.
Proof.
  induction l as [|x l IH].
  - simpl. by rewrite same_id_refl.
  - rewrite replaceFirst_cons. destruct (same_id c x) eqn:Hx; simpl.
    + by rewrite same_id_refl.
    + by rewrite Hx.
Qed.

Lemma replaceFirst_find_other (c : Course) (l : list Course) (id : string) :
  id ≠ course_id c →
  List.find (λ x, bool_decide (course_id x = id)) (replaceFirst c l)
  = List.find (λ x, bool_decide (course_id x = id)) l.
Proof.
  intros Hid. induction l as [|x l IH].
  - simpl. by rewrite bool_decide_eq_false_2.
  - rewrite replaceFirst_cons. destruct (same_id c x) eqn:Hx; simpl.
    + apply bool_decide_eq_true in Hx.
      rewrite !bool_decide_eq_false_2 by congruence. done.
    + by rewrite IH.
Qed.

Lemma replaceFirst_ids (c : Course) (l : list Course) :
  map course_id (replaceFirst c l)
  = if bool_decide (course_id c ∈ map course_id l) then map course_id l
    else map course_id l ++ [course_id c].
Proof.
  induction l as [|x l IH].
  - rewrite bool_decide_eq_false_2 by apply not_elem_of_nil. reflexivity.
  - rewrite replaceFirst_cons. destruct (same_id c x) eqn:Hx; simpl map.
    + apply bool_decide_eq_true in Hx.
      rewrite bool_decide_eq_true_2 by (rewrite Hx; apply list_elem_of_here). by rewrite Hx.
    + apply bool_decide_eq_false in Hx. rewrite IH.
      destruct (bool_decide (course_id c ∈ map course_id l)) eqn:Hin.
      * apply bool_decide_eq_true in Hin.
        by rewrite bool_decide_eq_true_2 by by apply list_elem_of_further.
      * apply bool_decide_eq_false in Hin.
        rewrite bool_decide_eq_false_2; [done|].
        intros [?|?]%elem_of_cons; congruence.
Qed.

Lemma replaceFirst_idempotent (c : Course) (l : list Course) :
  replaceFirst c (replaceFirst c l) = replaceFirst c l.
Proof.
  induction l as [|x l IH].
  - unfold replaceFirst at 2. simpl. by rewrite replaceFirst_cons, same_id_refl.
  - rewrite replaceFirst_cons. destruct (same_id c x) eqn:Hx.
    + by rewrite replaceFirst_cons, same_id_refl.
    + by rewrite replaceFirst_cons, Hx, IH.
Qed.

(** Positions that do not hold the id keep their course. *)
Lemma replaceFirst_lookup_other (c : Course) (l : list Course) (i : nat) (x : Course) :
  l !! i = Some x → course_id x ≠ course_id c → replaceFirst c l !! i = Some x.
Proof.
  revert i. induction l as [|y l IH]; intros i Hi Hx; [done|].
  rewrite replaceFirst_cons. destruct (same_id c y) eqn:Hy.
  - destruct i as [|i]; [|done]. simpl in Hi. inversion Hi; subst y.
    apply bool_decide_eq_true in Hy. congruence.
  - destruct i as [|i]; [done|]. simpl. by apply IH.
Qed.

Lemma ids_NoDup_after (ids : list string) (id : string) :
  NoDup ids → NoDup (if bool_decide (id ∈ ids) then ids else ids ++ [id]).
Proof.
  intros Hnd. destruct (bool_decide (id ∈ ids)) eqn:Hin; [done|].
  apply bool_decide_eq_false in Hin. apply NoDup_app. split; [done|]. split.
  - intros x Hx ->%list_elem_of_singleton. done.
  - apply NoDup_singleton.
Qed.

(** X10. The auto-save effect of the course builder.  After it ran for a
    course, looking the course's id up in the stored list finds exactly
    that course; looking up any other id finds what it found before; every
    stored course with another id keeps its position; the list of stored
    ids is the old one, with the id added at the end if it was not there,
    so ids that were unique stay unique; the topic draft is removed.
    Running the effect twice stores what running it once stores, and
    without a course it stores nothing. *)
Theorem autosave_stores (c : Course) (store : Storage) :
  let old := default [] (edugenius_courses store) in
  ∃ saved,
    autosave (Some c) store
    = {| edugenius_courses := Some saved; edugenius_topic_draft := None |}
    ∧ List.find (λ x, bool_decide (course_id x = course_id c)) saved = Some c
    ∧ (∀ id, id ≠ course_id c →
         List.find (λ x, bool_decide (course_id x = id)) saved
         = List.find (λ x, bool_decide (course_id x = id)) old)
    ∧ (∀ i x, old !! i = Some x → course_id x ≠ course_id c → saved !! i = Some x)
    ∧ map course_id saved
      = (if bool_decide (course_id c ∈ map course_id old) then map course_id old
         else map course_id old ++ [course_id c])
    ∧ (NoDup (map course_id old) → NoDup (map course_id saved))
    ∧ autosave (Some c) (autosave (Some c) store) = autosave (Some c) store
    ∧ autosave None store = store.
Proof.
  intros old. exists (replaceFirst c old). split_and!.
  - reflexivity.
  - apply replaceFirst_find.
  - intros id Hid. by apply replaceFirst_find_other.
  - intros i x. apply replaceFirst_lookup_other.
  - apply replaceFirst_ids.
  - intros Hnd. rewrite replaceFirst_ids. by apply ids_NoDup_after.
  - unfold autosave. simpl. do 2 f_equal. apply (replaceFirst_idempotent c old).
  - reflexivity.
Qed.

Lemma find_same_id_None (c : Course) (l : list Course) :
  List.find (same_id c) l = None ↔ course_id c ∉ map course_id l.
Proof.
  induction l as [|x l IH]; simpl.
  - split; [intros _; apply not_elem_of_nil | done].
  - unfold same_id at 1. destruct (bool_decide (course_id x = course_id c)) eqn:Hx.
    + apply bool_decide_eq_true in Hx. split; [done|]. intros Hnot. exfalso.
      apply Hnot. rewrite Hx. apply list_elem_of_here.
    + apply bool_decide_eq_false in Hx. rewrite IH, not_elem_of_cons.
      split; [intros H; split; [congruence | done] | by intros [_ H]].
Qed.

Lemma map_replace_find (c : Course) (l : list Course) :
  course_id c ∈ map course_id l →
  List.find (same_id c) (map (λ x, if same_id c x then c else x) l) = Some c.
Proof.
  induction l as [|x l IH]; simpl; [by intros ?%elem_of_nil|].
  intros Hin. destruct (same_id c x) eqn:Hx.
  - by rewrite same_id_refl.
  - rewrite Hx. apply IH. apply elem_of_cons in Hin as [Heq|Hin]; [|done].
    apply bool_decide_eq_false in Hx. congruence.
Qed.

Lemma map_replace_find_other (c : Course) (l : list Course) (id : string) :
  id ≠ course_id c →
  List.find (λ x, bool_decide (course_id x = id))
            (map (λ x, if same_id c x then c else x) l)
  = List.find (λ x, bool_decide (course_id x = id)) l.
Proof.
  intros Hid. induction l as [|x l IH]; simpl; [done|].
  destruct (same_id c x) eqn:Hx.
  - apply bool_decide_eq_true in Hx.
    rewrite !bool_decide_eq_false_2 by congruence. done.
  - by rewrite IH.
Qed.

Lemma map_replace_ids (c : Course) (l : list Course) :
  map course_id (map (λ x, if same_id c x then c else x) l) = map course_id l.
Proof.
  rewrite map_map. apply map_ext. intros x. destruct (same_id c x) eqn:Hx; [|done].
  by apply bool_decide_eq_true in Hx.
Qed.

Lemma replaceAll_ids (c : Course) (l : list Course) :
  map course_id (replaceAll c l)
  = if bool_decide (course_id c ∈ map course_id l) then map course_id l
    else map course_id l ++ [course_id c].
Proof.
  unfold replaceAll. destruct (List.find (same_id c) l) eqn:Hfind.
  - rewrite bool_decide_eq_true_2, map_replace_ids; [done|].
    destruct (decide (course_id c ∈ map course_id l)) as [|Hnot]; [done|].
    apply find_same_id_None in Hnot. congruence.
  - apply find_same_id_None in Hfind. rewrite bool_decide_eq_false_2 by done.
    by rewrite map_app.
Qed.

(** With unique ids, replacing every course with the id replaces the
    first one. *)
Lemma replaceAll_replaceFirst (c : Course) (l : list Course) :
  NoDup (map course_id l) → replaceAll c l = replaceFirst c l.
Proof.
  intros Hnd. unfold replaceAll. induction l as [|x l IH]; [done|].
  rewrite replaceFirst_cons. simpl. apply NoDup_cons in Hnd as [Hx Hnd].
  destruct (same_id c x) eqn:Hid.
  - f_equal. apply map_pointwise_id. intros y Hy.
    destruct (same_id c y) eqn:Hy'; [|done].
    apply bool_decide_eq_true in Hid, Hy'. exfalso. apply Hx.
    rewrite Hid, <- Hy'. apply list_elem_of_fmap. by exists y.
  - specialize (IH Hnd). destruct (List.find (same_id c) l); by rewrite <- IH.
Qed.

Lemma find_app {A} (p : A → bool) (l k : list A) :
  List.find p (l ++ k)
  = match List.find p l with
    | Some x => Some x
    | None => List.find p k
    end.
Proof.
  induction l as [|x l IH]; simpl; [done|]. by destruct (p x).
Qed.

Lemma replaceAll_find (c : Course) (l : list Course) :
  List.find (same_id c) (replaceAll c l) = Some c.
Proof.
  unfold replaceAll. destruct (List.find (same_id c) l) eqn:Hf.
  - apply map_replace_find.
    destruct (decide (course_id c ∈ map course_id l)) as [|Hnot]; [done|].
    apply find_same_id_None in Hnot. congruence.
  - rewrite find_app, Hf. simpl. by rewrite same_id_refl.
Qed.

Lemma replaceAll_find_other (c : Course) (l : list Course) (id : string) :
  id ≠ course_id c →
  List.find (λ x, bool_decide (course_id x = id)) (replaceAll c l)
  = List.find (λ x, bool_decide (course_id x = id)) l.
Proof.
  intros Hid. unfold replaceAll. destruct (List.find (same_id c) l) eqn:Hf.
  - by apply map_replace_find_other.
  - rewrite find_app.
    destruct (List.find (λ x, bool_decide (course_id x = id)) l); [done|].
    simpl. by rewrite bool_decide_eq_false_2 by congruence.
Qed.

Lemma replaceAll_idempotent (c : Course) (l : list Course) :
  replaceAll c (replaceAll c l) = replaceAll c l.
Proof.
  unfold replaceAll at 1. rewrite replaceAll_find.
  apply map_pointwise_id. intros x Hx.
  destruct (same_id c x) eqn:Hid; [|done].
  unfold replaceAll in Hx. destruct (List.find (same_id c) l) eqn:Hf.
  - apply list_elem_of_fmap in Hx as (y & -> & _).
    destruct (same_id c y) eqn:Hy; [done | congruence].
  - apply elem_of_app in Hx as [Hx|Hx%list_elem_of_singleton]; [|done].
    apply find_same_id_None in Hf. exfalso. apply Hf.
    apply bool_decide_eq_true in Hid. rewrite <- Hid.
    apply list_elem_of_fmap. by exists x.
Qed.

(** X11. [saveCourse] of the application.  The library in memory and the
    stored list are the same list afterwards, and the dashboard is shown.
    Looking the saved course's id up finds that course, looking up another
    id finds what it found before; the ids of the library are the old ones,
    with the id added at the end if it was new, so unique ids stay unique.
    On a library with unique ids it stores the list the builder's auto-save
    stores, and saving the same course twice is saving it once. *)
Theorem saveCourse_stores (c : Course) (st : App.State) (store : Storage) :
  let st' := (App.saveCourse c st store).1 in
  let store' := (App.saveCourse c st store).2 in
  edugenius_courses store' = Some (App.courses st')
  ∧ edugenius_topic_draft store' = edugenius_topic_draft store
  ∧ App.currentView st' = App.dashboard
  ∧ List.find (λ x, bool_decide (course_id x = course_id c)) (App.courses st') = Some c
  ∧ (∀ id, id ≠ course_id c →
       List.find (λ x, bool_decide (course_id x = id)) (App.courses st')
       = List.find (λ x, bool_decide (course_id x = id)) (App.courses st))
  ∧ map course_id (App.courses st')
    = (if bool_decide (course_id c ∈ map course_id (App.courses st))
       then map course_id (App.courses st)
       else map course_id (App.courses st) ++ [course_id c])
  ∧ (NoDup (map course_id (App.courses st)) →
       NoDup (map course_id (App.courses st'))
       ∧ autosave (Some c) {| edugenius_courses := Some (App.courses st);
                              edugenius_topic_draft := edugenius_topic_draft store |}
         = {| edugenius_courses := Some (App.courses st');
              edugenius_topic_draft := None |})
  ∧ App.saveCourse c st' store' = (st', store').
Proof.
  intros st' store'.
  assert (Hcourses : App.courses st' = replaceAll c (App.courses st)) by reflexivity.
  split_and!; try done.
  - rewrite Hcourses. apply replaceAll_find.
  - intros id Hid. rewrite Hcourses. by apply replaceAll_find_other.
  - rewrite Hcourses. apply replaceAll_ids.
  - intros Hnd. rewrite Hcourses. split.
    + rewrite replaceAll_ids. by apply ids_NoDup_after.
    + unfold autosave. simpl. do 2 f_equal. symmetry.
      by apply replaceAll_replaceFirst.
  - assert (Hagain : App.saveCourse c st' store'
                     = (App.mkState (replaceAll c (App.courses st')) App.dashboard
                          (App.activeCourse st') (App.interactiveLesson st')
                          (App.isGeneratingInteractive st') (App.interactiveTopic st')
                          (App.genProgress st') (App.genStatus st') (App.published st'),
                        {| edugenius_courses := Some (replaceAll c (App.courses st'));
                           edugenius_topic_draft := edugenius_topic_draft store' |}))
      by reflexivity.
    rewrite Hagain, Hcourses, replaceAll_idempotent. reflexivity.
Qed.

Lemma filter_id_ids (id : string) (l : list Course) :
  map course_id (filter (λ c, course_id c ≠ id) l)
  = filter (λ i, i ≠ id) (map course_id l).
Proof.
  induction l as [|x l IH]; [done|]. simpl.
  destruct (decide (course_id x = id)) as [Hx|Hx].
  - rewrite !filter_cons_False by tauto. done.
  - rewrite !filter_cons_True by done. simpl. by rewrite IH.
Qed.

Lemma filter_id_absent (id : string) (l : list Course) :
  id ∉ map course_id l → filter (λ c, course_id c ≠ id) l = l.
Proof.
  induction l as [|x l IH]; [done|]. simpl. intros [Hx Hl]%not_elem_of_cons.
  rewrite filter_cons_True by congruence. f_equal. by apply IH.
Qed.

Lemma filter_id_find (id : string) (l : list Course) :
  List.find (λ x, bool_decide (course_id x = id)) (filter (λ c, course_id c ≠ id) l)
  = None.
Proof.
  induction l as [|x l IH]; [done|].
  destruct (decide (course_id x = id)) as [Hx|Hx].
  - by rewrite filter_cons_False by tauto.
  - rewrite filter_cons_True by done. simpl.
    by rewrite bool_decide_eq_false_2 by done.
Qed.

Lemma filter_id_find_other (id id' : string) (l : list Course) :
  id' ≠ id →
  List.find (λ x, bool_decide (course_id x = id')) (filter (λ c, course_id c ≠ id) l)
  = List.find (λ x, bool_decide (course_id x = id')) l.
Proof.
  intros Hid'. induction l as [|x l IH]; [done|].
  destruct (decide (course_id x = id)) as [Hx|Hx].
  - rewrite filter_cons_False by tauto. simpl.
    by rewrite bool_decide_eq_false_2 by congruence.
  - rewrite filter_cons_True by done. simpl. by rewrite IH.
Qed.

(** X12. [deleteCourse].  When the user confirms, every course with the
    id is removed from the library and from the store, which hold the same
    list afterwards: looking the id up finds nothing, looking another id up
    finds what it found before, the other courses keep their order, unique
    ids stay unique, and an id that is not in the library changes nothing
    in it.  Deleting a course right after saving it, when its id was new,
    gives back the library as it was.  When the user declines, nothing
    changes. *)
Theorem deleteCourse_removes (id : string) (st : App.State) (store : Storage) :
  let st' := (App.deleteCourse true id st store).1 in
  let store' := (App.deleteCourse true id st store).2 in
  edugenius_courses store' = Some (App.courses st')
  ∧ App.currentView st' = App.currentView st
  ∧ List.find (λ x, bool_decide (course_id x = id)) (App.courses st') = None
  ∧ (∀ id', id' ≠ id →
       List.find (λ x, bool_decide (course_id x = id')) (App.courses st')
       = List.find (λ x, bool_decide (course_id x = id')) (App.courses st))
  ∧ map course_id (App.courses st') = filter (λ i, i ≠ id) (map course_id (App.courses st))
  ∧ (NoDup (map course_id (App.courses st)) → NoDup (map course_id (App.courses st')))
  ∧ (id ∉ map course_id (App.courses st) → App.courses st' = App.courses st)
  ∧ (∀ c, course_id c = id → id ∉ map course_id (App.courses st) →
       App.courses (App.deleteCourse true id (App.saveCourse c st store).1
                      (App.saveCourse c st store).2).1
       = App.courses st)
  ∧ App.deleteCourse false id st store = (st, store).
Proof.
  intros st' store'.
  assert (Hcourses : App.courses st' = filter (λ c, course_id c ≠ id) (App.courses st))
    by reflexivity.
  split_and!; try done.
  - rewrite Hcourses. apply filter_id_find.
  - intros id' Hid'. rewrite Hcourses. by apply filter_id_find_other.
  - rewrite Hcourses. apply filter_id_ids.
  - intros Hnd. rewrite Hcourses, filter_id_ids. by apply NoDup_filter.
  - intros Hnot. rewrite Hcourses. by apply filter_id_absent.
  - intros c Hc Hnot.
    change (filter (λ x, course_id x ≠ id) (replaceAll c (App.courses st)) = App.courses st).
    unfold replaceAll.
    rewrite (proj2 (find_same_id_None c (App.courses st))) by by rewrite Hc.
    rewrite filter_app, filter_cons_False, filter_nil, app_nil_r by tauto.
    by apply filter_id_absent.
Qed.

(** * Further properties of the interactive generation *)

(** ** Every outcome of a generation *)

(** The number of leading steps of [todo], the first of which is step [i]
    of the lesson, whose illustration and narration requests are both
    answered. *)
Fixpoint answered (svc : App.Service) (i : nat) (todo : list LessonStep) : nat :=
  match todo with
  | [] => 0
  | step :: rest =>
      match App.generateIllustration svc i (imagePrompt step),
            App.generateNarration svc i (explanation step) with
      | Some _, Some _ => S (answered svc (S i) rest)
      | _, _ => 0
      end
  end.

Lemma answered_le (svc : App.Service) (todo : list LessonStep) :
  ∀ i, answered svc i todo ≤ length todo.
Proof.
  induction todo as [|step rest IH]; intros i; simpl; [done|].
  destruct (App.generateIllustration svc i (imagePrompt step)); [|lia].
  destruct (App.generateNarration svc i (explanation step)); [|lia].
  specialize (IH (S i)). lia.
Qed.

Lemma answered_all (svc : App.Service) (todo : list LessonStep) :
  ∀ i, answered svc i todo = length todo ↔ assets_available svc i todo.
Proof.
  induction todo as [|step rest IH]; intros i; simpl.
  - split; [|done]. intros _ j s Hs. by rewrite lookup_nil in Hs.
  - split.
    + intros Hall [|j] s Hs; simpl in Hs.
      * inversion Hs; subst s. rewrite Nat.add_0_r.
        destruct (App.generateIllustration svc i (imagePrompt step)); [|done].
        destruct (App.generateNarration svc i (explanation step)); [|done].
        by split.
      * destruct (App.generateIllustration svc i (imagePrompt step)); [|done].
        destruct (App.generateNarration svc i (explanation step)); [|done].
        replace (i + S j) with (S i + j) by lia.
        apply (proj1 (IH (S i))); [lia | done].
    + intros Havail.
      destruct (Havail 0 step eq_refl) as [[img Himg] [aud Haud]].
      rewrite Nat.add_0_r in Himg, Haud. rewrite Himg, Haud. f_equal.
      apply IH. by apply (assets_available_tail svc i step).
Qed.

(** The loop publishes one progress value for each step whose assets
    arrived before the first rejection, and returns when there was
    none. *)
Lemma generateAssets_published (svc : App.Service) (total : nat) (todo : list LessonStep) :
  ∀ i acc st,
    App.published (App.generateAssets svc total i todo acc st).1
    = App.published st
      ++ map (λ completed, App.stepProgress completed total)
             (seq (S i) (answered svc i todo))
    ∧ (answered svc i todo = length todo →
         ∃ stepsWithAssets,
           (App.generateAssets svc total i todo acc st).2 = Js.ok stepsWithAssets
           ∧ length stepsWithAssets = length acc + length todo)
    ∧ (answered svc i todo < length todo →
         (App.generateAssets svc total i todo acc st).2 = Js.throw Js.ServiceError).
Proof.
  induction todo as [|step rest IH]; intros i acc st; simpl.
  - split_and!.
    + by rewrite app_nil_r.
    + intros _. exists acc. split; [done | lia].
    + lia.
  - destruct (App.generateIllustration svc i (imagePrompt step)) as [img|].
    2: { simpl. split_and!; [by rewrite app_nil_r | lia | done]. }
    destruct (App.generateNarration svc i (explanation step)) as [aud|].
    2: { simpl. split_and!; [by rewrite app_nil_r | lia | done]. }
    match goal with
    | |- context [App.generateAssets svc total (S i) rest ?acc' ?st'] =>
        destruct (IH (S i) acc' st') as (Hpub & Hok & Hfail)
    end.
    split_and!.
    + rewrite Hpub. simpl. rewrite <- app_assoc. simpl.
      by replace (i + 1) with (S i) by lia.
    + intros Hall. destruct Hok as (sw & Hres & Hlen); [lia|].
      exists sw. split; [done|]. rewrite Hlen, length_app. simpl. lia.
    + intros Hlt. apply Hfail. lia.
Qed.

(** X13. An interactive generation, whatever the service answers.  With
    an empty topic nothing happens.  Otherwise the [finally] block has run
    when the call is over: the indicator is off, the progress is 0 and the
    status is empty; the library, the open course and the topic are
    untouched.  The progress values published are 10, then, if the
    structure arrived, 40 and one value for each step whose illustration
    and narration both arrived before the first rejection, then 0.  The
    player is shown with the lesson exactly when the structure and every
    asset arrived; in every other case the view and the lesson are those
    before the call. *)
Theorem startInteractiveGeneration_outcomes (svc : App.Service) (st : App.State) :
  let st' := App.startInteractiveGeneration svc st in
  (App.interactiveTopic st = "" → st' = st)
  ∧ (App.interactiveTopic st ≠ "" →
       App.isGeneratingInteractive st' = false
       ∧ App.genProgress st' = 0%float
       ∧ App.genStatus st' = ""
       ∧ App.courses st' = App.courses st
       ∧ App.activeCourse st' = App.activeCourse st
       ∧ App.interactiveTopic st' = App.interactiveTopic st
       ∧ match App.generateInteractiveLessonStructure svc (App.interactiveTopic st) with
         | None =>
             App.published st' = App.published st ++ [10%float; 0%float]
             ∧ App.currentView st' = App.currentView st
             ∧ App.interactiveLesson st' = App.interactiveLesson st
         | Some lesson =>
             let total := length (steps lesson) in
             let done_ := answered svc 0 (steps lesson) in
             done_ ≤ total
             ∧ App.published st'
               = App.published st
                 ++ [10%float; 40%float]
                 ++ map (λ completed, App.stepProgress completed total) (seq 1 done_)
                 ++ [0%float]
             ∧ (done_ = total →
                  App.currentView st' = App.interactive_play
                  ∧ ∃ stepsWithAssets,
                      length stepsWithAssets = total
                      ∧ App.interactiveLesson st'
                        = Some (mkInteractiveLesson (il_id lesson) (topic lesson)
                                  stepsWithAssets (il_quiz lesson)))
             ∧ (done_ < total →
                  App.currentView st' = App.currentView st
                  ∧ App.interactiveLesson st' = App.interactiveLesson st)
         end).
Proof.
  intros st'. unfold st'. split.
  { intros Hempty. unfold App.startInteractiveGeneration.
    by rewrite bool_decide_eq_true_2. }
  intros Htopic. rewrite startInteractiveGeneration_unfold by done.
  unfold App.tryGeneration. simpl App.interactiveTopic.
  destruct (App.generateInteractiveLessonStructure svc (App.interactiveTopic st))
    as [lesson|]; [|split_and!; try done; simpl; by rewrite <- app_assoc].
  cbv zeta.
  match goal with
  | |- context [App.generateAssets svc ?t 0 ?todo [] ?s] =>
      destruct (generateAssets_published svc t todo 0 [] s) as (Hpub & Hok & Hfail);
      destruct (generateAssets_frame svc t todo 0 [] s)
        as [(H1 & H2 & H3 & H4 & H5) H6];
      pose proof (answered_le svc todo 0) as Hle;
      destruct (App.generateAssets svc t 0 todo [] s) as [st1 r] eqn:Hrun
  end.
  simpl in Hpub, Hok, Hfail, H1, H2, H3, H4, H5, H6.
  assert (Hpublished : ∀ v : App.State * Js.result unit,
            App.published v.1 = App.published st1 →
            App.published v.1 ++ [0%float]
            = App.published st ++ [10%float; 40%float]
              ++ map (λ completed, App.stepProgress completed (length (steps lesson)))
                     (seq 1 (answered svc 0 (steps lesson)))
              ++ [0%float]).
  { intros v ->. rewrite Hpub, <- !app_assoc. reflexivity. }
  destruct r as [e|sw]; simpl.
  - split_and!; try done.
    + by apply (Hpublished (st1, Js.throw e)).
    + intros Hall. destruct (Hok Hall) as (sw & Hres & _). done.
  - split_and!; try done.
    + by apply (Hpublished (st1, Js.ok ())).
    + intros Hall. split; [done|]. destruct (Hok Hall) as (sw' & Hres & Hlen).
      inversion Hres; subst sw'. by exists sw.
    + intros Hlt. by specialize (Hfail Hlt).
Qed.

(** ** The lesson that is shown *)

(** X14. When the structure and every asset arrive, the lesson shown has
    the id, the topic and the quiz of the structure, and as many steps;
    each step is the structure's step at that position with the
    illustration and the narration the service returned for that position
    attached, and is otherwise unchanged. *)
Theorem startInteractiveGeneration_attaches_assets
    (svc : App.Service) (st : App.State) (lesson : InteractiveLesson) :
  App.interactiveTopic st ≠ "" →
  App.generateInteractiveLessonStructure svc (App.interactiveTopic st) = Some lesson →
  assets_available svc 0 (steps lesson) →
  ∃ shown,
    App.interactiveLesson (App.startInteractiveGeneration svc st) = Some shown
    ∧ il_id shown = il_id lesson
    ∧ topic shown = topic lesson
    ∧ il_quiz shown = il_quiz lesson
    ∧ length (steps shown) = length (steps lesson)
    ∧ ∀ j step, steps lesson !! j = Some step →
        ∃ imageUrl audio step',
          App.generateIllustration svc j (imagePrompt step) = Some imageUrl
          ∧ App.generateNarration svc j (explanation step) = Some audio
          ∧ steps shown !! j = Some step'
          ∧ step_imageUrl step' = Some imageUrl
          ∧ audioData step' = Some audio
          ∧ step_id step' = step_id step
          ∧ step_title step' = step_title step
          ∧ explanation step' = explanation step
          ∧ keyPoints step' = keyPoints step
          ∧ imagePrompt step' = imagePrompt step.
Proof.
  intros Htopic Hstructure Havail.
  rewrite startInteractiveGeneration_unfold by done.
  unfold App.tryGeneration. simpl App.interactiveTopic. rewrite Hstructure.
  match goal with
  | |- context [App.generateAssets svc ?t 0 ?todo [] ?s] =>
      destruct (generateAssets_complete svc t todo 0 [] s Havail)
        as (sw & Hres & _ & Hlen & _ & Hsteps);
      destruct (App.generateAssets svc t 0 todo [] s) as [st1 r] eqn:Hrun
  end.
  simpl in Hres, Hlen, Hsteps. subst r. simpl.
  eexists. split; [reflexivity|]. simpl. split_and!; try done.
  intros j step Hstep. destruct (Hsteps j step Hstep) as (img & aud & Himg & Haud & Hsw).
  exists img, aud, (App.with_assets img aud step). by split_and!.
Qed.

Lemma startInteractiveGeneration_attaches_assets_witness :
  ∃ shown,
    App.interactiveLesson (App.startInteractiveGeneration reliable ready) = Some shown
    ∧ map audioData (steps shown)
      = [Some "AAD/fw=="; Some "AAD/fw=="; Some "AAD/fw=="].
Proof.
  assert (Havail : assets_available reliable 0 (steps sampleLesson)).
  { intros j step _. split; by eexists. }
  destruct (startInteractiveGeneration_attaches_assets reliable ready sampleLesson)
    as (shown & Hshown & _); [done | reflexivity | exact Havail |].
  exists shown. split; [done|].
  vm_compute in Hshown. inversion Hshown. reflexivity.
Defined.

(** * Further properties of the stored drafts *)

(** X15. The topic draft.  A topic typed while no course is open is
    stored, and the library in the store is not touched; a builder opened
    later without a course gets that topic back; emptying the field does
    not remove the stored topic; and once a course was auto-saved the
    draft is gone, so a builder opened later keeps its own topic. *)
Theorem topic_draft_round_trip (d : Draft) (store : Storage) :
  draft_course d = None →
  draft_topic d ≠ "" →
  edugenius_topic_draft (saveTopicDraft d store) = Some (draft_topic d)
  ∧ edugenius_courses (saveTopicDraft d store) = edugenius_courses store
  ∧ (∀ d0, draft_course d0 = None →
       draft_topic (loadTopicDraft (saveTopicDraft d store) d0) = draft_topic d
       ∧ draft_course (loadTopicDraft (saveTopicDraft d store) d0) = None)
  ∧ (∀ d', draft_course d' = None → draft_topic d' = "" →
       saveTopicDraft d' (saveTopicDraft d store) = saveTopicDraft d store)
  ∧ (∀ c d0, loadTopicDraft (autosave (Some c) (saveTopicDraft d store)) d0 = d0)
  ∧ (∀ c d', draft_course d' = Some c → saveTopicDraft d' store = store).
Proof.
  intros Hcourse Htopic.
  assert (Hsaved : saveTopicDraft d store
                   = {| edugenius_courses := edugenius_courses store;
                        edugenius_topic_draft := Some (draft_topic d) |}).
  { unfold saveTopicDraft. by rewrite Hcourse, bool_decide_eq_false_2. }
  rewrite Hsaved. split_and!; try done.
  - intros d0 Hd0. unfold loadTopicDraft. simpl.
    rewrite Hd0, bool_decide_eq_false_2 by done. done.
  - intros d' Hd' Hempty. unfold saveTopicDraft.
    by rewrite Hd', bool_decide_eq_true_2.
  - intros c d0. unfold loadTopicDraft. simpl. by destruct (draft_course d0).
  - intros c d' Hd'. unfold saveTopicDraft. by rewrite Hd'.
Qed.

Lemma topic_draft_round_trip_witness :
  draft_topic
    (loadTopicDraft
       (saveTopicDraft (mkDraft "Triangles" false "" None) (mkStorage None None))
       (mkDraft "" false "" None))
  = "Triangles".
Proof.
  destruct (topic_draft_round_trip (mkDraft "Triangles" false "" None)
              (mkStorage None None)) as (_ & _ & Hload & _); [reflexivity | done |].
  by destruct (Hload (mkDraft "" false "" None)) as [-> _].
Defined.

(** * Further properties of the players *)

(** ** Steps of the interactive player *)

Section Steps.

Import InteractivePlayer.
Variable steps : list LessonStep.




End Steps.


(** ** Lessons of the course player *)

Lemma index_Some {A} (xs : list A) (i : Z) (x : A) :
  Js.index xs i = Some x ↔ (0 ≤ i)%Z ∧ xs !! Z.to_nat i = Some x.
Proof.
  unfold Js.index. destruct (Z.ltb_spec i 0).
  - split; [done|]. intros [? _]. lia.
  - split; [done|]. by intros [_ ?].
Qed.

Lemma index_of_nat {A} (xs : list A) (i : nat) :
  Js.index xs (Z.of_nat i) = xs !! i.
Proof.
  unfold Js.index. destruct (Z.ltb_spec (Z.of_nat i) 0); [lia|].
  by rewrite Nat2Z.id.
Qed.

Section Lessons.

Import LMSPlayer.
Variable c : Course.

(** The lessons of the course in reading order. *)
Definition flat : list Lesson := concat (map lessons (modules c)).

(** The number of lessons in the modules before module [m]. *)
Definition offset (m : nat) : nat :=
  length (concat (map lessons (take m (modules c)))).

(** The place of the cursor in reading order. *)
Definition position (s : Cursor) : Z :=
  (Z.of_nat (offset (Z.to_nat (activeModuleIndex s))) + activeLessonIndex s)%Z.

Lemma offset_S (m : nat) (M : CourseModule) :
  modules c !! m = Some M → offset (S m) = offset m + length (lessons M).
Proof using Type.
  intros HM. unfold offset. rewrite (take_S_r _ _ _ HM).
  rewrite map_app, concat_app, length_app. simpl. by rewrite app_nil_r.
Qed.

Lemma offset_all : offset (length (modules c)) = length flat.
Proof using Type. unfold offset, flat. by rewrite firstn_all. Qed.

Lemma flat_lookup (m l : nat) (M : CourseModule) (L : Lesson) :
  modules c !! m = Some M → lessons M !! l = Some L →
  flat !! (offset m + l) = Some L.
Proof using Type.
  intros HM HL. unfold offset.
  assert (Hflat : flat = concat (map lessons (take m (modules c)))
                         ++ lessons M ++ concat (map lessons (drop (S m) (modules c)))).
  { unfold flat. rewrite <- (take_drop_middle _ _ _ HM) at 1.
    by rewrite map_app, concat_app. }
  rewrite Hflat, lookup_app_r by lia.
  replace (_ + l - _) with l by lia.
  by apply lookup_app_l_Some.
Qed.

(** The cursor names a lesson: its place in reading order. *)
Lemma lessonAt_flat (s : Cursor) (L : Lesson) :
  lessonAt c s = Some L →
  ∃ m l M,
    s = mkCursor (Z.of_nat m) (Z.of_nat l)
    ∧ modules c !! m = Some M ∧ lessons M !! l = Some L
    ∧ position s = Z.of_nat (offset m + l)
    ∧ flat !! (offset m + l) = Some L.
Proof using Type.
  unfold lessonAt. destruct s as [mi li]. simpl.
  destruct (Js.index (modules c) mi) as [M|] eqn:HM; [|done].
  intros HL. apply index_Some in HM as [Hmi HM], HL as [Hli HL].
  exists (Z.to_nat mi), (Z.to_nat li), M. split_and!; try done.
  - f_equal; lia.
  - unfold position. simpl. lia.
  - by apply (flat_lookup _ _ M).
Qed.

Lemma lessonAt_select (m l : nat) (M : CourseModule) :
  modules c !! m = Some M → lessonAt c (select m l) = lessons M !! l.
Proof using Type.
  intros HM. unfold lessonAt, select. simpl.
  by rewrite index_of_nat, HM, index_of_nat.
Qed.

End Lessons.

(** X17. The Next button of the course player, in a course whose modules
    all have lessons, with the cursor on a lesson.  The call returns.  If
    the button is disabled the cursor is on the last lesson of the course
    and stays there.  Otherwise the cursor moves to the lesson that
    follows in reading order (the next one of the module, or the first one
    of the next module), and Previous leads back. *)
Theorem LMS_handleNext_reading_order (c : Course) (s : LMSPlayer.Cursor) (current : Lesson) :
  Forall (λ m, lessons m ≠ []) (modules c) →
  LMSPlayer.lessonAt c s = Some current →
  ∃ s' disabled,
    LMSPlayer.handleNext c s = (s', Js.ok ())
    ∧ LMSPlayer.nextDisabled c s = Js.ok disabled
    ∧ (0 ≤ position c s)%Z
    ∧ flat c !! Z.to_nat (position c s) = Some current
    ∧ if disabled
      then s' = s ∧ position c s = (Z.of_nat (length (flat c)) - 1)%Z
      else position c s' = (position c s + 1)%Z
           ∧ is_Some (LMSPlayer.lessonAt c s')
           ∧ LMSPlayer.lessonAt c s' = flat c !! Z.to_nat (position c s + 1)
           ∧ LMSPlayer.handlePrev c s' = (s, Js.ok ()).
Proof.
  intros Hne Hcur.
  destruct (lessonAt_flat c s current Hcur) as (m & l & M & -> & HM & HL & Hpos & Hflat).
  pose proof (lookup_lt_Some _ _ _ HM) as Hm.
  pose proof (lookup_lt_Some _ _ _ HL) as Hl.
  unfold LMSPlayer.handleNext, LMSPlayer.nextDisabled. simpl.
  rewrite index_of_nat, HM.
  destruct (Z.ltb_spec (Z.of_nat l) (Z.of_nat (length (lessons M)) - 1)) as [Hlt|Hge].
  - (* the next lesson of the module *)
    assert (Hnext : is_Some (lessons M !! S l)) by (apply lookup_lt_is_Some; lia).
    destruct Hnext as [L' HL'].
    assert (Hat : LMSPlayer.lessonAt c (LMSPlayer.mkCursor (Z.of_nat m) (Z.of_nat l + 1))
                  = Some L').
    { replace (Z.of_nat l + 1)%Z with (Z.of_nat (S l)) by lia.
      change (LMSPlayer.lessonAt c (LMSPlayer.select m (S l)) = Some L').
      by rewrite (lessonAt_select c m (S l) M). }
    destruct (lessonAt_flat c _ L' Hat) as (m' & l' & M' & Heq & _ & _ & Hpos' & Hflat').
    injection Heq as Hm' Hl'.
    assert (m' = m) as -> by lia. assert (l' = S l) as -> by lia.
    exists (LMSPlayer.mkCursor (Z.of_nat m) (Z.of_nat l + 1)), false.
    split_and!; try done.
    + destruct (Z.eqb_spec (Z.of_nat m) (Z.of_nat (length (modules c)) - 1)) as [Hlast|];
        [|done].
      replace (Z.of_nat (length (modules c)) - 1)%Z with (Z.of_nat m) by lia.
      rewrite index_of_nat, HM.
      destruct (Z.eqb_spec (Z.of_nat l) (Z.of_nat (length (lessons M)) - 1)); [lia|done].
    + lia.
    + by rewrite Hpos, Nat2Z.id.
    + rewrite Hpos', Hpos. lia.
    + rewrite Hat, Hpos. replace (Z.to_nat _) with (offset c m + S l) by lia. done.
    + unfold LMSPlayer.handlePrev. simpl.
      destruct (Z.ltb_spec 0 (Z.of_nat l + 1)); [|lia].
      do 2 f_equal. lia.
  - assert (Hlast : l = length (lessons M) - 1) by lia.
    destruct (Z.ltb_spec (Z.of_nat m) (Z.of_nat (length (modules c)) - 1)) as [Hmlt|Hmge].
    + (* the first lesson of the next module *)
      assert (Hnext : is_Some (modules c !! S m)) by (apply lookup_lt_is_Some; lia).
      destruct Hnext as [M' HM'].
      assert (Hfirst : is_Some (lessons M' !! 0)).
      { apply lookup_lt_is_Some.
        pose proof (proj1 (Forall_lookup _ _) Hne _ _ HM') as HneM. simpl in HneM.
        destruct (lessons M'); [done | simpl; lia]. }
      destruct Hfirst as [L' HL'].
      assert (Hat : LMSPlayer.lessonAt c (LMSPlayer.mkCursor (Z.of_nat m + 1) 0) = Some L').
      { replace (Z.of_nat m + 1)%Z with (Z.of_nat (S m)) by lia.
        change (LMSPlayer.lessonAt c (LMSPlayer.select (S m) 0) = Some L').
        by rewrite (lessonAt_select c (S m) 0 M'). }
      destruct (lessonAt_flat c _ L' Hat) as (m' & l' & M'' & Heq & _ & _ & Hpos' & Hflat').
      injection Heq as Hm' Hl'.
      assert (m' = S m) as -> by lia. assert (l' = 0) as -> by lia.
      rewrite (offset_S c m M HM) in Hpos', Hflat'.
      exists (LMSPlayer.mkCursor (Z.of_nat m + 1) 0), false.
      split_and!; try done.
      * destruct (Z.eqb_spec (Z.of_nat m) (Z.of_nat (length (modules c)) - 1)); [lia|done].
      * lia.
      * by rewrite Hpos, Nat2Z.id.
      * rewrite Hpos', Hpos. lia.
      * rewrite Hat, Hpos.
        replace (Z.to_nat _) with (offset c m + length (lessons M) + 0) by lia. done.
      * unfold LMSPlayer.handlePrev. simpl.
        destruct (Z.ltb_spec 0 (Z.of_nat m + 1)); [|lia].
        replace (Z.of_nat m + 1 - 1)%Z with (Z.of_nat m) by lia.
        rewrite index_of_nat, HM. do 2 f_equal. lia.
    + (* the last lesson of the course *)
      assert (Hmlast : S m = length (modules c)) by lia.
      exists (LMSPlayer.mkCursor (Z.of_nat m) (Z.of_nat l)), true.
      split_and!; try done.
      * destruct (Z.eqb_spec (Z.of_nat m) (Z.of_nat (length (modules c)) - 1)); [|lia].
        replace (Z.of_nat (length (modules c)) - 1)%Z with (Z.of_nat m) by lia.
        rewrite index_of_nat, HM.
        destruct (Z.eqb_spec (Z.of_nat l) (Z.of_nat (length (lessons M)) - 1)); [done|lia].
      * lia.
      * by rewrite Hpos, Nat2Z.id.
      * rewrite Hpos, <- offset_all, <- Hmlast, (offset_S c m M HM). lia.
Qed.

(** A course of two modules, with two lessons and one. *)
Definition lessonNamed (n : string) : Lesson :=
  mkLesson n ("Lesson " +:+ n) "<p>Text</p>" text None None None None.

Definition twoModules : Course :=
  mkCourse "c2" "Course" "" None
    [mkModule "m1" "Basics" [lessonNamed "a"; lessonNamed "b"];
     mkModule "m2" "More" [lessonNamed "c"]] None.

Lemma LMS_handleNext_reading_order_witness :
  ∃ s', LMSPlayer.handleNext twoModules (LMSPlayer.mkCursor 0 1) = (s', Js.ok ())
        ∧ LMSPlayer.lessonAt twoModules s' = Some (lessonNamed "c").
Proof.
  destruct (LMS_handleNext_reading_order twoModules (LMSPlayer.mkCursor 0 1)
              (lessonNamed "b"))
    as (s' & disabled & Hnext & Hdisabled & _ & _ & Hcase).
  - repeat constructor; done.
  - reflexivity.
  - exists s'. split; [done|].
    injection Hdisabled as <-. simpl in Hcase.
    destruct Hcase as (_ & _ & -> & _). reflexivity.
Defined.

(** X18. The Previous button of the course player, in a course whose
    modules all have lessons, with the cursor on a lesson.  The call
    returns.  If the button is disabled the cursor is on the first lesson
    of the course and stays there.  Otherwise the cursor moves to the
    lesson that precedes in reading order (the one before in the module,
    or the last one of the module before), and Next leads back. *)
Theorem LMS_handlePrev_reading_order (c : Course) (s : LMSPlayer.Cursor) (current : Lesson) :
  Forall (λ m, lessons m ≠ []) (modules c) →
  LMSPlayer.lessonAt c s = Some current →
  ∃ s',
    LMSPlayer.handlePrev c s = (s', Js.ok ())
    ∧ if LMSPlayer.prevDisabled s
      then s' = s ∧ position c s = 0%Z
      else position c s' = (position c s - 1)%Z
           ∧ is_Some (LMSPlayer.lessonAt c s')
           ∧ LMSPlayer.lessonAt c s' = flat c !! Z.to_nat (position c s - 1)
           ∧ LMSPlayer.handleNext c s' = (s, Js.ok ()).
Proof.
  intros Hne Hcur.
  destruct (lessonAt_flat c s current Hcur) as (m & l & M & -> & HM & HL & Hpos & Hflat).
  pose proof (lookup_lt_Some _ _ _ HM) as Hm.
  pose proof (lookup_lt_Some _ _ _ HL) as Hl.
  unfold LMSPlayer.handlePrev, LMSPlayer.prevDisabled. simpl.
  destruct (Z.ltb_spec 0 (Z.of_nat l)) as [Hlpos|Hl0].
  - (* the lesson before, in the same module *)
    destruct l as [|l]; [lia|].
    assert (Hbefore : is_Some (lessons M !! l)) by (apply lookup_lt_is_Some; lia).
    destruct Hbefore as [L' HL'].
    assert (Hat : LMSPlayer.lessonAt c (LMSPlayer.mkCursor (Z.of_nat m) (Z.of_nat (S l) - 1))
                  = Some L').
    { replace (Z.of_nat (S l) - 1)%Z with (Z.of_nat l) by lia.
      change (LMSPlayer.lessonAt c (LMSPlayer.select m l) = Some L').
      by rewrite (lessonAt_select c m l M). }
    destruct (lessonAt_flat c _ L' Hat) as (m' & l' & M' & Heq & _ & _ & Hpos' & Hflat').
    injection Heq as Hm' Hl'.
    assert (m' = m) as -> by lia. assert (l' = l) as -> by lia.
    exists (LMSPlayer.mkCursor (Z.of_nat m) (Z.of_nat (S l) - 1)). split; [done|].
    destruct (Z.eqb_spec (Z.of_nat (S l)) 0); [lia|]. rewrite andb_false_r.
    split_and!; try done.
    + rewrite Hpos', Hpos. lia.
    + rewrite Hat, Hpos. replace (Z.to_nat _) with (offset c m + l) by lia. done.
    + unfold LMSPlayer.handleNext. simpl. rewrite index_of_nat, HM.
      destruct (Z.ltb_spec (Z.of_nat (S l) - 1) (Z.of_nat (length (lessons M)) - 1));
        [|lia].
      do 2 f_equal. lia.
  - assert (l = 0) as -> by lia.
    destruct (Z.ltb_spec 0 (Z.of_nat m)) as [Hmpos|Hm0].
    + (* the last lesson of the module before *)
      destruct m as [|m]; [lia|].
      replace (Z.of_nat (S m) - 1)%Z with (Z.of_nat m) by lia.
      assert (Hbefore : is_Some (modules c !! m)) by (apply lookup_lt_is_Some; lia).
      destruct Hbefore as [M' HM'].
      rewrite index_of_nat, HM'.
      pose proof (proj1 (Forall_lookup _ _) Hne _ _ HM') as HneM. simpl in HneM.
      assert (Hlen : 1 ≤ length (lessons M')).
      { destruct (lessons M'); [done | simpl; lia]. }
      assert (Hlast : is_Some (lessons M' !! (length (lessons M') - 1)))
        by (apply lookup_lt_is_Some; lia).
      destruct Hlast as [L' HL'].
      assert (Hat : LMSPlayer.lessonAt c
                      (LMSPlayer.mkCursor (Z.of_nat m) (Z.of_nat (length (lessons M')) - 1))
                    = Some L').
      { replace (Z.of_nat (length (lessons M')) - 1)%Z
          with (Z.of_nat (length (lessons M') - 1)) by lia.
        change (LMSPlayer.lessonAt c (LMSPlayer.select m (length (lessons M') - 1)) = Some L').
        by rewrite (lessonAt_select c m _ M'). }
      destruct (lessonAt_flat c _ L' Hat) as (m' & l' & M'' & Heq & _ & _ & Hpos' & Hflat').
      injection Heq as Hm' Hl'.
      assert (m' = m) as -> by lia.
      assert (l' = length (lessons M') - 1) as -> by lia.
      rewrite (offset_S c m M' HM') in Hpos.
      eexists. split; [reflexivity|].
      destruct (Z.eqb_spec (Z.of_nat (S m)) 0); [lia|]. simpl.
      split_and!; try done.
      * rewrite Hpos', Hpos. lia.
      * rewrite Hat, Hpos.
        replace (Z.to_nat _) with (offset c m + (length (lessons M') - 1)) by lia. done.
      * unfold LMSPlayer.handleNext. simpl. rewrite index_of_nat, HM'.
        destruct (Z.ltb_spec (Z.of_nat (length (lessons M')) - 1)
                    (Z.of_nat (length (lessons M')) - 1)); [lia|].
        destruct (Z.ltb_spec (Z.of_nat m) (Z.of_nat (length (modules c)) - 1)); [|lia].
        do 2 f_equal. lia.
    + (* the first lesson of the course *)
      assert (m = 0) as -> by lia.
      eexists. split; [reflexivity|]. simpl. split; [done|]. rewrite Hpos. done.
Qed.

Lemma LMS_handlePrev_reading_order_witness :
  ∃ s', LMSPlayer.handlePrev twoModules (LMSPlayer.mkCursor 1 0) = (s', Js.ok ())
        ∧ LMSPlayer.lessonAt twoModules s' = Some (lessonNamed "b").
Proof.
  destruct (LMS_handlePrev_reading_order twoModules (LMSPlayer.mkCursor 1 0)
              (lessonNamed "c"))
    as (s' & Hprev & Hcase).
  - repeat constructor; done.
  - reflexivity.
  - exists s'. split; [done|]. simpl in Hcase.
    destruct Hcase as (_ & _ & -> & _). reflexivity.
Defined.

(** In a course with a module that has no lesson, Previous from the first
    lesson of the module after it leaves the cursor on no lesson. *)
Example LMS_handlePrev_empty_module :
  let c := mkCourse "c3" "Course" "" None
             [mkModule "m1" "Empty" []; mkModule "m2" "More" [lessonNamed "c"]] None in
  LMSPlayer.handlePrev c (LMSPlayer.mkCursor 1 0) = (LMSPlayer.mkCursor 0 (-1), Js.ok ())
  ∧ LMSPlayer.lessonAt c (LMSPlayer.mkCursor 0 (-1)) = None.
Proof. split; reflexivity. Qed.

(** ** Narration of the course player *)

Section Narration.

Import LMSPlayer.












End Narration.




(** ** From the learner's clicks to the score *)

(** The answers map after a sequence of clicks on options (question,
    option), oldest first, from the empty map the player starts with. *)
Definition answers_after (clicks : list (nat * nat)) : gmap nat (list nat) :=
  foldl (λ prev click, InteractivePlayer.toggleAnswer false prev click.1 click.2)
        ∅ clicks.

(** How often option [x] of question [i] was clicked. *)
Definition clicked (i x : nat) (clicks : list (nat * nat)) : nat :=
  length (filter (λ click, click = (i, x)) clicks).

Lemma clicked_snoc (i x : nat) (clicks : list (nat * nat)) (click : nat * nat) :
  clicked i x (clicks ++ [click])
  = clicked i x clicks + (if decide (click = (i, x)) then 1 else 0).
Proof.
  unfold clicked. rewrite filter_app, length_app. f_equal.
  destruct (decide (click = (i, x))).
  - by rewrite filter_cons_True.
  - by rewrite filter_cons_False.
Qed.

(** One toggle: duplicate-freedom is kept, and exactly the membership of
    the clicked option in the clicked question's selection flips. *)
Lemma toggleAnswer_flips (prev : gmap nat (list nat)) (qIdx oIdx : nat) :
  (∀ i sel, prev !! i = Some sel → NoDup sel) →
  let next := InteractivePlayer.toggleAnswer false prev qIdx oIdx in
  (∀ i sel, next !! i = Some sel → NoDup sel)
  ∧ ∀ i x, x ∈ default [] (next !! i)
           ↔ if decide ((qIdx, oIdx) = (i, x))
             then x ∉ default [] (prev !! i)
             else x ∈ default [] (prev !! i).
Proof.
  intros Hprev next. unfold next, InteractivePlayer.toggleAnswer.
  set (current := default [] (prev !! qIdx)).
  assert (Hcur : NoDup current).
  { unfold current. destruct (prev !! qIdx) as [sel|] eqn:Hsel; simpl.
    - by eapply Hprev.
    - constructor. }
  destruct (Js.includes current oIdx) eqn:Hinc.
  - apply includes_spec in Hinc.
    destruct (toggled_remove current oIdx Hcur) as (Hnd & Hout & Hmem).
    split.
    + intros i sel. rewrite lookup_insert. case_decide; [|by apply Hprev].
      by intros [= <-].
    + intros i x. destruct (decide (i = qIdx)) as [->|Hi].
      * rewrite lookup_insert_eq. simpl. rewrite Hmem. fold current.
        destruct (decide ((qIdx, oIdx) = (qIdx, x))) as [[= <-]|Hne]; [tauto|].
        split; [tauto|]. intros Hx. split; [done|]. congruence.
      * rewrite lookup_insert_ne by done.
        destruct (decide ((qIdx, oIdx) = (i, x))) as [[= ? ?]|]; [congruence|done].
  - apply includes_false in Hinc.
    destruct (toggled_append current oIdx Hcur Hinc) as (Hnd & Hmem).
    split.
    + intros i sel. rewrite lookup_insert. case_decide; [|by apply Hprev].
      by intros [= <-].
    + intros i x. destruct (decide (i = qIdx)) as [->|Hi].
      * rewrite lookup_insert_eq. simpl. rewrite Hmem. fold current.
        destruct (decide ((qIdx, oIdx) = (qIdx, x))) as [[= <-]|Hne].
        -- split; [done | by right].
        -- split; [|by left]. intros [Hx| ->]; [done | congruence].
      * rewrite lookup_insert_ne by done.
        destruct (decide ((qIdx, oIdx) = (i, x))) as [[= ? ?]|]; [congruence|done].
Qed.

Lemma answers_after_parity (clicks : list (nat * nat)) :
  (∀ i sel, answers_after clicks !! i = Some sel → NoDup sel)
  ∧ ∀ i x, x ∈ default [] (answers_after clicks !! i)
           ↔ Nat.odd (clicked i x clicks) = true.
Proof.
  unfold answers_after.
  induction clicks as [|[q o] clicks [IHnd IHmem]] using rev_ind.
  - cbn [foldl]. split; [intros i sel; by rewrite lookup_empty|].
    intros i x. rewrite lookup_empty. simpl. split; [|done].
    by intros ?%elem_of_nil.
  - rewrite foldl_app. cbn [foldl fst snd].
    destruct (toggleAnswer_flips _ q o IHnd) as [Hnd Hmem]. split; [exact Hnd|].
    intros i x. rewrite Hmem, clicked_snoc, Nat.odd_add.
    destruct (decide ((q, o) = (i, x))); simpl.
    + rewrite IHmem.
      destruct (Nat.odd (clicked i x clicks)); simpl; split; intros H;
        first [done | by destruct H].
    + rewrite IHmem, xorb_false_r. done.
Qed.

(** X21. From clicks to score in the interactive player.  After any
    sequence of clicks on options, starting from the empty answers map,
    every selection is duplicate-free, and an option is selected exactly
    when it was clicked an odd number of times.  Hence, for questions with
    duplicate-free correct answers, a question is scored as correct
    exactly when the options clicked an odd number of times are its
    correct answers, and the score is the number of questions exactly when
    this holds for every question. *)
Theorem score_after_clicks (quiz : list QuizQuestion) (clicks : list (nat * nat)) :
  let userAnswers := answers_after clicks in
  (∀ i sel, userAnswers !! i = Some sel → NoDup sel)
  ∧ (∀ i x, x ∈ default [] (userAnswers !! i) ↔ Nat.odd (clicked i x clicks) = true)
  ∧ ((∀ i q, quiz !! i = Some q → NoDup (correctAnswers q)) →
       (∀ i q, quiz !! i = Some q →
          InteractivePlayer.isCorrect q (default [] (userAnswers !! i)) = true
          ↔ ∀ x, Nat.odd (clicked i x clicks) = true ↔ x ∈ correctAnswers q)
       ∧ InteractivePlayer.score true quiz userAnswers ≤ length quiz
       ∧ (InteractivePlayer.score true quiz userAnswers = length quiz
          ↔ ∀ i q x, quiz !! i = Some q →
              Nat.odd (clicked i x clicks) = true ↔ x ∈ correctAnswers q)).
Proof.
  intros userAnswers.
  destruct (answers_after_parity clicks) as [Hnd Hmem]. fold userAnswers in Hnd, Hmem.
  split; [exact Hnd|]. split; [exact Hmem|]. intros Hquiz.
  assert (Hsel : ∀ i, NoDup (default [] (userAnswers !! i))).
  { intros i. destruct (userAnswers !! i) as [sel|] eqn:Hi; simpl.
    - by eapply Hnd.
    - constructor. }
  assert (Hcorrect : ∀ i q, quiz !! i = Some q →
            InteractivePlayer.isCorrect q (default [] (userAnswers !! i)) = true
            ↔ ∀ x, Nat.odd (clicked i x clicks) = true ↔ x ∈ correctAnswers q).
  { intros i q Hq.
    rewrite (isCorrect_same_members q _ (Hsel i) (Hquiz i q Hq)).
    unfold same_members. split; intros H x; specialize (H x); rewrite Hmem in *; done. }
  split; [exact Hcorrect|].
  set (point := λ (i : nat) (q : QuizQuestion),
         if InteractivePlayer.isCorrect q (default [] (userAnswers !! i)) then 1 else 0).
  assert (Hscore : InteractivePlayer.score true quiz userAnswers
                   = sum_list (imap point quiz)).
  { unfold InteractivePlayer.score, Js.reduce.
    exact (reduce_from_sum point quiz 0 0). }
  assert (Hle : ∀ i q, point i q ≤ 1).
  { intros i q. unfold point. destruct (InteractivePlayer.isCorrect _ _); lia. }
  destruct (sum_points_bound point quiz Hle) as [Hbound Hfull].
  rewrite Hscore. split; [exact Hbound|]. rewrite Hfull. split.
  - intros Hall i q x Hq. apply (proj1 (Hcorrect i q Hq)).
    specialize (Hall i q Hq). unfold point in Hall.
    by destruct (InteractivePlayer.isCorrect _ _).
  - intros Hall i q Hq. unfold point.
    rewrite (proj2 (Hcorrect i q Hq)); [done|]. intros x. by apply Hall.
Qed.

(** * Further properties of the audio decoder *)

Section DecodeOutcome.

Import GeminiService.
Import Strings.Byte.

Lemma createBuffer_rejects (ctx : AudioContext) (nc : nat) (frameCount : Q) (rate : Z) :
  nc = 0 ∨ maxChannelCount ctx < nc ∨ to_unsigned_long frameCount = 0
  ∨ (rate < minSampleRate ctx)%Z ∨ (maxSampleRate ctx < rate)%Z →
  createBuffer ctx nc frameCount rate = Js.throw Js.NotSupportedError.
Proof.
  intros Hbad. unfold createBuffer.
  destruct (Nat.eqb_spec nc 0); [done|].
  destruct (Nat.ltb_spec (maxChannelCount ctx) nc); [done|].
  destruct (Nat.eqb_spec (to_unsigned_long frameCount) 0); [done|].
  destruct (Z.ltb_spec rate (minSampleRate ctx)); [done|].
  destruct (Z.ltb_spec (maxSampleRate ctx) rate); [done|].
  lia.
Qed.

Lemma deinterleaved_shape (dataInt16 : list Z) (nc frames : nat) :
  length (deinterleaved dataInt16 nc frames) = nc
  ∧ Forall (λ cd, length cd = frames) (deinterleaved dataInt16 nc frames).
Proof.
  unfold deinterleaved. split.
  - by rewrite length_map, length_seq.
  - apply Forall_forall. intros cd Hcd.
    apply list_elem_of_In, in_map_iff in Hcd as (ch & <- & _).
    by rewrite length_map, length_seq.
Qed.

End DecodeOutcome.

(** X22. Every outcome of [decodeAudioData], for data shorter than 2^33
    bytes.  An odd number of bytes raises a [RangeError], whatever the
    other arguments are.  An even number raises a [NotSupportedError] when
    the channel count is zero or above the limit of the context, when the
    data holds no whole frame, or when the sample rate is outside the
    range of the context.  In every other case a buffer is returned, with
    the channel count and the rate asked for and one array of [frames]
    samples per channel.  For the players' calls (mono, 24000 Hz) on a
    context with the limits the standard requires, decoding succeeds
    exactly when the data has an even number of bytes and at least two. *)
Theorem decodeAudioData_outcome
    (ctx : GeminiService.AudioContext) (data : list Byte.byte) (sampleRate : Z)
    (numChannels : nat) :
  let frames := length data / 2 / numChannels in
  (Z.of_nat (length data) < 2 ^ 33)%Z →
  (Nat.even (length data) = false →
     GeminiService.decodeAudioData data ctx sampleRate numChannels
     = Js.throw Js.RangeError)
  ∧ (Nat.even (length data) = true →
     numChannels = 0 ∨ GeminiService.maxChannelCount ctx < numChannels ∨ frames = 0
     ∨ (sampleRate < GeminiService.minSampleRate ctx)%Z
     ∨ (GeminiService.maxSampleRate ctx < sampleRate)%Z →
     GeminiService.decodeAudioData data ctx sampleRate numChannels
     = Js.throw Js.NotSupportedError)
  ∧ (Nat.even (length data) = true →
     1 ≤ numChannels ≤ GeminiService.maxChannelCount ctx → 1 ≤ frames →
     (GeminiService.minSampleRate ctx ≤ sampleRate ≤ GeminiService.maxSampleRate ctx)%Z →
     ∃ buffer,
       GeminiService.decodeAudioData data ctx sampleRate numChannels = Js.ok buffer
       ∧ GeminiService.numberOfChannels buffer = numChannels
       ∧ GeminiService.buffer_length buffer = frames
       ∧ GeminiService.buffer_sampleRate buffer = sampleRate
       ∧ length (GeminiService.channels buffer) = numChannels
       ∧ Forall (λ cd, length cd = frames) (GeminiService.channels buffer))
  ∧ (numChannels = 1 → sampleRate = 24000%Z →
     32 ≤ GeminiService.maxChannelCount ctx →
     (GeminiService.minSampleRate ctx ≤ 8000)%Z →
     (96000 ≤ GeminiService.maxSampleRate ctx)%Z →
     (∃ buffer, GeminiService.decodeAudioData data ctx sampleRate numChannels
                = Js.ok buffer)
     ↔ Nat.even (length data) = true ∧ 2 ≤ length data).
Proof.
  intros frames Hsmall.
  assert (Hframes : (Z.of_nat frames < 2 ^ 32)%Z).
  { assert (frames ≤ length data / 2) as Hle.
    { unfold frames. destruct numChannels; [simpl; lia|]. apply Nat.Div0.div_le_upper_bound.
      nia. }
    assert (Z.of_nat (length data / 2) < 2 ^ 32)%Z; [|lia].
    rewrite Nat2Z.inj_div. apply Z.div_lt_upper_bound; lia. }
  assert (Hodd : Nat.even (length data) = false →
            GeminiService.decodeAudioData data ctx sampleRate numChannels
            = Js.throw Js.RangeError).
  { intros Hodd. unfold GeminiService.decodeAudioData, GeminiService.Int16Array.
    by rewrite Hodd. }
  assert (Hbad : Nat.even (length data) = true →
            numChannels = 0 ∨ GeminiService.maxChannelCount ctx < numChannels ∨ frames = 0
            ∨ (sampleRate < GeminiService.minSampleRate ctx)%Z
            ∨ (GeminiService.maxSampleRate ctx < sampleRate)%Z →
            GeminiService.decodeAudioData data ctx sampleRate numChannels
            = Js.throw Js.NotSupportedError).
  { intros Heven Hcase. unfold GeminiService.decodeAudioData, GeminiService.Int16Array.
    rewrite Heven. simpl Js.bind. rewrite int16_elements_length.
    rewrite createBuffer_rejects; [done|].
    destruct (decide (numChannels = 0)) as [|Hnc]; [by left|].
    destruct Hcase as [?|[?|[Hzero|[?|?]]]]; [tauto | tauto | | tauto | tauto].
    right. right. left. unfold GeminiService.to_unsigned_long.
    rewrite frameCount_floor by lia. fold frames. rewrite Hzero. done. }
  assert (Hgood : Nat.even (length data) = true →
            1 ≤ numChannels ≤ GeminiService.maxChannelCount ctx → 1 ≤ frames →
            (GeminiService.minSampleRate ctx ≤ sampleRate
             ≤ GeminiService.maxSampleRate ctx)%Z →
            GeminiService.decodeAudioData data ctx sampleRate numChannels
            = Js.ok {| GeminiService.numberOfChannels := numChannels;
                       GeminiService.buffer_length := frames;
                       GeminiService.buffer_sampleRate := sampleRate;
                       GeminiService.channels :=
                         deinterleaved (GeminiService.int16_elements data)
                                       numChannels frames |}).
  { intros Heven Hnc Hpos Hrate. by apply decodeAudioData_even. }
  split_and!; try done.
  - intros Heven Hnc Hpos Hrate. eexists. split; [by apply Hgood|]. simpl.
    destruct (deinterleaved_shape (GeminiService.int16_elements data) numChannels frames).
    by split_and!.
  - intros -> -> Hmax Hmin Hrate.
    assert (Hone : frames = length data / 2).
    { unfold frames. by rewrite Nat.div_1_r. }
    split.
    + intros [buffer Hok].
      destruct (Nat.even (length data)) eqn:Heven.
      * split; [done|].
        destruct (decide (frames = 0)) as [Hzero|Hpos].
        -- rewrite Hbad in Hok; [done | done | tauto].
        -- assert (length data / 2 ≠ 0) as Hdiv by lia.
           destruct (length data) as [|[|n]]; [done | done | lia].
      * by rewrite Hodd in Hok.
    + intros [Heven Hlen]. eexists. apply Hgood; [done | lia | | lia].
      rewrite Hone. change 1 with (2 / 2). apply Nat.Div0.div_le_mono. lia.
Qed.

Lemma decodeAudioData_outcome_witness :
  GeminiService.decodeAudioData [] (GeminiService.mkAudioContext 32 8000 96000) 24000 1
  = Js.throw Js.NotSupportedError.
Proof.
  destruct (decodeAudioData_outcome (GeminiService.mkAudioContext 32 8000 96000)
              [] 24000 1) as (_ & Hbad & _); [simpl; lia|].
  apply Hbad; [reflexivity|]. right. right. left. reflexivity.
Defined.

(** * Further properties of the narration request *)

Section Tags.

Import GeminiService.

Lemma replaceTags_inside (t : list N) :
  62%N ∉ t → replaceTags true t = [].
Proof.
  induction t as [|c t IH]; [done|]. intros [Hc Ht]%not_elem_of_cons. simpl.
  destruct (N.eqb_spec c 62); [done|]. by apply IH.
Qed.

Lemma replaceTags_close (t b : list N) :
  62%N ∉ t → replaceTags true (t ++ 62%N :: b) = replaceTags false b.
Proof.
  induction t as [|c t IH]; [done|]. intros [Hc Ht]%not_elem_of_cons. simpl.
  destruct (N.eqb_spec c 62); [done|]. by apply IH.
Qed.

Lemma replaceTags_outside (a r : list N) :
  60%N ∉ a → replaceTags false (a ++ r) = a ++ replaceTags false r.
Proof.
  induction a as [|c a IH]; [done|]. intros [Hc Ha]%not_elem_of_cons. simpl.
  destruct (N.eqb_spec c 60); [done|]. f_equal. by apply IH.
Qed.

Lemma replaceTags_clean (inTag : bool) (text : list N) :
  60%N ∉ replaceTags inTag text.
Proof.
  revert inTag. induction text as [|c text IH]; intros inTag; simpl.
  - apply not_elem_of_nil.
  - destruct inTag; [apply IH|].
    destruct (N.eqb_spec c 60); [apply IH|].
    apply not_elem_of_cons. split; [done | apply IH].
Qed.

Lemma replaceTags_sublist (inTag : bool) (text : list N) :
  sublist (replaceTags inTag text) text.
Proof.
  revert inTag. induction text as [|c text IH]; intros inTag; simpl.
  - constructor.
  - destruct inTag; [apply sublist_cons, IH|].
    destruct (N.eqb_spec c 60); [apply sublist_cons, IH|].
    apply sublist_skip, IH.
Qed.

End Tags.

(** X23. The text sent for a narration.  Removing the tags leaves no [<]
    and keeps the remaining code units in their order; a text without [<]
    is unchanged, so removing twice is removing once.  A tag runs from a
    [<] to the next [>], and an unclosed [<] takes the rest of the text
    with it.  The request holds at most 800 code units of the cleaned
    text after the instruction, and no [<] from the lesson; and a
    narration that is returned is never empty. *)
Theorem narration_request (text : list N) :
  (60%N ∉ GeminiService.replaceTags false text)
  ∧ sublist (GeminiService.replaceTags false text) text
  ∧ (60%N ∉ text → GeminiService.replaceTags false text = text)
  ∧ GeminiService.replaceTags false (GeminiService.replaceTags false text)
    = GeminiService.replaceTags false text
  ∧ (∀ a t b, 60%N ∉ a → 62%N ∉ t →
       GeminiService.replaceTags false (a ++ 60%N :: t ++ 62%N :: b)
       = a ++ GeminiService.replaceTags false b)
  ∧ (∀ a t, 60%N ∉ a → 62%N ∉ t →
       GeminiService.replaceTags false (a ++ 60%N :: t) = a)
  ∧ (∃ sent,
       GeminiService.narrationPrompt text
       = GeminiService.codeUnits "Explain this clearly and educationally: " ++ sent
       ∧ length sent ≤ 800
       ∧ (60%N ∉ sent)
       ∧ sent `prefix_of` GeminiService.replaceTags false text
       ∧ (length (GeminiService.replaceTags false text) ≤ 800 →
            sent = GeminiService.replaceTags false text))
  ∧ (∀ respond audio,
       GeminiService.generateNarration respond text = Js.ok audio →
       audio ≠ ""
       ∧ respond (GeminiService.narrationPrompt text) = Some (Some audio)).
Proof.
  assert (Hsame : ∀ l, 60%N ∉ l → GeminiService.replaceTags false l = l).
  { intros l Hl. rewrite <- (app_nil_r l) at 1.
    rewrite replaceTags_outside by done. simpl. apply app_nil_r. }
  split_and!.
  - apply replaceTags_clean.
  - apply replaceTags_sublist.
  - apply Hsame.
  - apply Hsame, replaceTags_clean.
  - intros a t b Ha Ht. rewrite replaceTags_outside by done. simpl.
    by rewrite replaceTags_close.
  - intros a t Ha Ht. rewrite replaceTags_outside by done. simpl.
    by rewrite replaceTags_inside, app_nil_r.
  - exists (take 800 (GeminiService.replaceTags false text)). split_and!.
    + reflexivity.
    + rewrite length_take. lia.
    + intros Hin. apply (replaceTags_clean false text).
      by apply (elem_of_sublist _ _ _ Hin), sublist_take.
    + apply prefix_take.
    + intros Hlen. by apply take_ge.
  - intros respond audio. unfold GeminiService.generateNarration.
    destruct (respond _) as [[a|]|]; try done.
    destruct (decide (a = "")) as [->|Hne].
    + by rewrite bool_decide_eq_true_2.
    + rewrite bool_decide_eq_false_2 by done. by intros [= <-].
Qed.

(** Markup of a lesson: the tags go, the text between them stays. *)
Example replaceTags_paragraph :
  GeminiService.replaceTags false (GeminiService.codeUnits "<p>Sum of <b>angles</b></p>")
  = GeminiService.codeUnits "Sum of angles"
  ∧ GeminiService.replaceTags false (GeminiService.codeUnits "a > b <i")
    = GeminiService.codeUnits "a > b ".
Proof. split; vm_compute; reflexivity. Qed.

(** * Further properties of the answer toggle of the editor *)

(** A traversal fails with an exception of its callback. *)
Lemma mapM_error {A B} (f : A → Js.result B) (l : list A) (e : Js.Error) :
  Js.mapM f l = Js.throw e → ∃ x, x ∈ l ∧ f x = Js.throw e.
Proof.
  induction l as [|x l IH]; simpl; [done|].
  destruct (f x) as [e'|b] eqn:Hfx; simpl.
  - intros [= <-]. exists x. split; [apply list_elem_of_here | done].
  - destruct (Js.mapM f l) as [e'|bs]; simpl; [|done].
    intros [= <-]. destruct IH as (y & Hy & Hfy); [done|].
    exists y. split; [by apply list_elem_of_further | done].
Qed.

Lemma toggleQuizAnswer_error (moduleId lessonId : string) (qIdx oIdx : nat)
    (c : Course) (e : Js.Error) :
  toggleQuizAnswer moduleId lessonId qIdx oIdx (Some c) = Js.throw e → e = Js.TypeError.
Proof.
  unfold toggleQuizAnswer. intros Hthrow.
  destruct (Js.mapM _ (modules c)) as [e'|ms] eqn:Hms; [|done].
  simpl in Hthrow. injection Hthrow as ->.
  apply mapM_error in Hms as (m & _ & Hm).
  destruct (bool_decide (module_id m = moduleId)); [|done].
  destruct (Js.mapM _ (lessons m)) as [e'|ls] eqn:Hls; [|done].
  simpl in Hm. injection Hm as ->.
  apply mapM_error in Hls as (l & _ & Hl).
  unfold toggleQuizAnswer_lesson in Hl.
  destruct (bool_decide (lesson_id l = lessonId)); [|done].
  destruct (lesson_quiz l) as [qs|]; [|done].
  destruct (qs !! qIdx); [done|]. by injection Hl as <-.
Qed.

(** X24. Every outcome of [toggleQuizAnswer].  Without a course nothing
    happens.  The call returns exactly when the question index exists in
    every quiz it addresses; otherwise it raises a [TypeError].  When it
    returns, the addressed question has its old text and options, and its
    correct answers are the old ones with the option removed if it was
    among them and added if it was not; the other questions of the quiz,
    the length of the quiz and the lessons at other paths are as
    before. *)
Theorem toggleQuizAnswer_outcome
    (c : Course) (moduleId lessonId : string) (qIdx oIdx : nat) :
  toggleQuizAnswer moduleId lessonId qIdx oIdx None = Js.ok None
  ∧ (quiz_index_valid moduleId lessonId qIdx c
     ↔ ∃ next, toggleQuizAnswer moduleId lessonId qIdx oIdx (Some c) = Js.ok next)
  ∧ (¬ quiz_index_valid moduleId lessonId qIdx c →
       toggleQuizAnswer moduleId lessonId qIdx oIdx (Some c) = Js.throw Js.TypeError)
  ∧ (∀ next,
       toggleQuizAnswer moduleId lessonId qIdx oIdx (Some c) = Js.ok next →
       ∃ c1,
         next = Some c1
         ∧ map module_id (modules c1) = map module_id (modules c)
         ∧ (∀ les qs,
              find_lesson c moduleId lessonId = Some les → lesson_quiz les = Some qs →
              ∃ les' qs',
                find_lesson c1 moduleId lessonId = Some les'
                ∧ lesson_quiz les' = Some qs'
                ∧ length qs' = length qs
                ∧ (∀ q, qs !! qIdx = Some q →
                     ∃ q', qs' !! qIdx = Some q'
                           ∧ question q' = question q
                           ∧ options q' = options q
                           ∧ ∀ x, x ∈ correctAnswers q'
                                  ↔ (x ∈ correctAnswers q ∧ x ≠ oIdx)
                                    ∨ (x = oIdx ∧ oIdx ∉ correctAnswers q))
                ∧ (∀ k, k ≠ qIdx → qs' !! k = qs !! k))
         ∧ (∀ moduleId' lessonId',
              moduleId' ≠ moduleId ∨ lessonId' ≠ lessonId →
              find_lesson c1 moduleId' lessonId' = find_lesson c moduleId' lessonId')).
Proof.
  split_and!.
  - reflexivity.
  - split.
    + intros Hvalid. eexists. by apply toggleQuizAnswer_ok.
    + intros [next Hok]. by eapply toggleQuizAnswer_ok_inv.
  - intros Hinvalid.
    destruct (toggleQuizAnswer moduleId lessonId qIdx oIdx (Some c)) as [e|next] eqn:Hrun.
    + by rewrite (toggleQuizAnswer_error _ _ _ _ _ _ Hrun).
    + exfalso. apply Hinvalid. by eapply toggleQuizAnswer_ok_inv.
  - intros next Hok.
    pose proof (toggleQuizAnswer_ok_inv _ _ _ _ _ _ Hok) as Hvalid.
    rewrite (toggleQuizAnswer_ok _ _ _ _ _ Hvalid) in Hok. injection Hok as <-.
    rewrite toggledCourse_as_edit.
    destruct (editQuestion_read_back moduleId lessonId qIdx (toggledQuestion oIdx) c)
      as (Hread & Hother & _).
    eexists. split; [reflexivity|]. split_and!.
    + unfold editQuestion. by apply editLessons_shape.
    + intros les qs Hles Hqs.
      destruct (Hread les qs Hles Hqs) as (les' & qs' & Hles' & Hqs' & Hlen & Hq & Hk).
      exists les', qs'. split_and!; try done.
      intros q Hlook. exists (toggledQuestion oIdx q). split; [by apply Hq|].
      split_and!; try done. intros x. apply newAnswers_members.
    + exact Hother.
Qed.

(** * Further properties of the players' effects *)


